(** * minecraftjs: the physics core (fixed-step integrator, broad phase,
      narrow phase, collision resolver) over the voxel world.

    The TypeScript [number] type is read as a real number: every arithmetic
    operation of the source is the exact operation on [R].  Where what the
    code does turns on the rounding of its binary64 numbers (how many turns
    the loop of [update] takes, whether an emitted overlap is positive) the
    code is embedded a second time, in [Binary64], over the primitive
    binary64 numbers with their IEEE 754 operations.  Loop counters and
    array indices, which the source only ever fills with integral values,
    are integers ([Z]).  A thrown [TypeError] (indexing [undefined]) is an
    explicit outcome, and the [while] loop of [update] is driven by fuel,
    with running out of fuel as a third outcome.

    The three.js operations ([Vector3], [PointerLockControls]) and the
    JavaScript built-ins ([Math], [Array.prototype.sort]) are library code;
    they are given by their documented behaviour.  The debug meshes of the
    [helpers] group are kept by kind and position only.

    Beside the physics the file covers the grid of the world and the passes
    that generate it (world.ts), the random number generator (rng.ts) and
    the keyboard input of the player (player.ts).  The words of the
    generator are the 32-bit integers of the JavaScript bit operators,
    written out on [Z].  [SimplexNoise] is library code: the passes take its
    noise functions as arguments, as they take the tables of blocks.ts (the
    resources, the block types).  An [InstancedMesh] is kept by its count
    and the positions of its instances. *)

From Stdlib Require Import Reals Zfloor Lra Lia ZArith List Bool Permutation Sorted.
From Stdlib Require Import Psatz.
From Stdlib Require String.
From Stdlib Require Floats.
Import String.StringSyntax.
Delimit Scope string_scope with string.
Import ListNotations.

Local Open Scope R_scope.

(** ** Outcomes of fallible code *)

Inductive result (A : Type) : Type :=
| Ok (a : A)
| TypeError
| OutOfFuel.

Arguments Ok {A} a.
Arguments TypeError {A}.
Arguments OutOfFuel {A}.

Definition bind {A B : Type} (m : result A) (k : A -> result B) : result B :=
  match m with
  | Ok a => k a
  | TypeError => TypeError
  | OutOfFuel => OutOfFuel
  end.

Notation "x <- m ;; k" := (bind m (fun x => k))
  (at level 61, m at next level, right associativity).
Notation "' pat <- m ;; k" := (bind m (fun x => match x with pat => k end))
  (at level 61, pat pattern, m at next level, right associativity).

(** [for (let i = lo; i <= hi; i++) body] over a state [S]. *)
Definition zrange (lo hi : Z) : list Z :=
  map (fun i => (lo + Z.of_nat i)%Z) (seq 0 (Z.to_nat (hi - lo + 1))).

Fixpoint forEach {S : Type} (l : list Z) (body : Z -> S -> result S) (s : S)
  : result S :=
  match l with
  | [] => Ok s
  | i :: rest => s' <- body i s ;; forEach rest body s'
  end.

Definition forRange {S : Type} (lo hi : Z) (body : Z -> S -> result S) (s : S)
  : result S :=
  forEach (zrange lo hi) body s.

(** ** The JavaScript built-ins the physics uses *)

Module Math.

Definition ltb (x y : R) : bool := if Rlt_dec x y then true else false.
Definition geb (x y : R) : bool := if Rge_dec x y then true else false.
Definition eqb (x y : R) : bool := if Req_dec_T x y then true else false.

Definition floor (x : R) : Z := Zfloor x.
Definition ceil (x : R) : Z := Zceil x.
Definition max (x y : R) : R := Rmax x y.
Definition min (x y : R) : R := Rmin x y.
Definition abs (x : R) : R := Rabs x.
(** Only ever applied to a sum of squares.  This is the exact root; the
    rounded one is in [Binary64]. *)
Definition sqrt (x : R) : R := R_sqrt.sqrt x.
Definition sign (x : R) : R :=
  if Rlt_dec 0 x then 1 else if Rlt_dec x 0 then -1 else 0.

End Math.

(** [Array.prototype.sort(cmp)]: a stable sort by a three-way comparator
    (negative: first argument goes first). *)
Section ArraySort.
Context {A : Type} (cmp : A -> A -> Z).

Fixpoint insert (a : A) (l : list A) : list A :=
  match l with
  | [] => [a]
  | b :: rest => if (cmp a b <=? 0)%Z then a :: b :: rest
                 else b :: insert a rest
  end.

Fixpoint Array_sort (l : list A) : list A :=
  match l with
  | [] => []
  | a :: rest => insert a (Array_sort rest)
  end.
End ArraySort.

(** ** three.js: the part of [Vector3] and [PointerLockControls] in use *)

Module THREE.

Record Vector3 : Type := mkVector3 { x : R; y : R; z : R }.

Definition add (v w : Vector3) : Vector3 :=
  mkVector3 (x v + x w) (y v + y w) (z v + z w).
Definition multiplyScalar (v : Vector3) (s : R) : Vector3 :=
  mkVector3 (x v * s) (y v * s) (z v * s).
Definition divideScalar (v : Vector3) (s : R) : Vector3 :=
  multiplyScalar v (1 / s).
Definition addScaledVector (v w : Vector3) (s : R) : Vector3 :=
  mkVector3 (x v + x w * s) (y v + y w * s) (z v + z w * s).
Definition negate (v : Vector3) : Vector3 :=
  mkVector3 (- x v) (- y v) (- z v).
Definition dot (v w : Vector3) : R :=
  x v * x w + y v * y w + z v * z w.
Definition crossVectors (a b : Vector3) : Vector3 :=
  mkVector3 (y a * z b - z a * y b)
            (z a * x b - x a * z b)
            (x a * y b - y a * x b).
Definition length (v : Vector3) : R :=
  Math.sqrt (x v * x v + y v * y v + z v * z v).
(** [this.divideScalar(this.length() || 1)] *)
Definition normalize (v : Vector3) : Vector3 :=
  divideScalar v (if Math.eqb (length v) 0 then 1 else length v).

(** [Object3D.DEFAULT_UP] *)
Definition up : Vector3 := mkVector3 0 1 0.

End THREE.

(** ** blocks.ts *)

Module blocks.
Definition empty_id : Z := 0.
Definition grass_id : Z := 1.
Definition dirt_id : Z := 2.
End blocks.

(** ** rng.ts *)

Module RNG.

(** The 32-bit integer operators of JavaScript on integral numbers: the
    operands are wrapped to signed 32 bits, a shift count is taken modulo 32,
    [>>>] gives the unsigned reading. *)
Definition ToInt32 (n : Z) : Z :=
  ((n + 2147483648) mod 4294967296 - 2147483648)%Z.
Definition ToUint32 (n : Z) : Z := (n mod 4294967296)%Z.

(** [a & b] *)
Definition and32 (a b : Z) : Z := Z.land (ToInt32 a) (ToInt32 b).
(** [a >> k] *)
Definition sar32 (a k : Z) : Z := Z.shiftr (ToInt32 a) (Z.land (ToUint32 k) 31).
(** [a << k] *)
Definition shl32 (a k : Z) : Z :=
  ToInt32 (Z.shiftl (ToInt32 a) (Z.land (ToUint32 k) 31)).
(** [a >>> k] *)
Definition shr32 (a k : Z) : Z :=
  Z.shiftr (ToUint32 a) (Z.land (ToUint32 k) 31).

(** A number loses its fraction, towards zero, before it is wrapped. *)
Definition truncate (r : R) : Z := if Rlt_dec r 0 then Zceil r else Zfloor r.

Record RNG : Type := mkRNG { m_w : Z; m_z : Z; mask : Z }.

(** The field initialisers set [mask = 0xffffffff]; the constructor then
    seeds the two words.  The two sums are exact here; the code forms them
    in binary64, which is the same for every seed whose sums are exactly
    representable, as for each integer of magnitude up to 2^52. *)
Definition new_RNG (seed : R) : RNG :=
  let mask := 4294967295%Z in
  mkRNG (and32 (truncate (1234567890 + seed)) mask)
        (and32 (truncate (9876543210 - seed)) mask)
        mask.

Definition random (g : RNG) : R * RNG :=
  let m_z := and32 (36969 * and32 (m_z g) 65535 + sar32 (m_z g) 16) (mask g) in
  let m_w := and32 (18000 * and32 (m_w g) 65535 + sar32 (m_w g) 16) (mask g) in
  let result := shr32 (shl32 m_z 16 + and32 m_w 65535) 0 in
  (IZR result / 4294967296, mkRNG m_w m_z (mask g)).

(** [n] calls of [random], the values drawn first to last. *)
Fixpoint randoms (n : nat) (g : RNG) : list R * RNG :=
  match n with
  | O => ([], g)
  | S n' =>
      let '(r, g) := random g in
      let '(rs, g) := randoms n' g in
      (r :: rs, g)
  end.

End RNG.

(** ** world.ts *)

Module World.

Record WorldSize : Type := mkWorldSize { width : Z; height : Z }.
Record BlockData : Type := mkBlockData { id : Z; instanceId : Z }.

(** The grid part of the class: [size] and the nested array [data]. *)
Record World : Type := mkWorld {
  size : WorldSize;
  data : list (list (list BlockData))
}.

Definition inBounds (w : World) (x y z : Z) : bool :=
  (x >=? 0)%Z && (x <? width (size w))%Z &&
  (y >=? 0)%Z && (y <? height (size w))%Z &&
  (z >=? 0)%Z && (z <? width (size w))%Z.

(** [this.data[x][y][z]]: indexing [undefined] throws; a missing last
    element is [undefined], which is as falsy as [null]. *)
Definition index3 (d : list (list (list BlockData))) (x y z : Z)
  : result (option BlockData) :=
  match nth_error d (Z.to_nat x) with
  | None => TypeError
  | Some slice =>
      match nth_error slice (Z.to_nat y) with
      | None => TypeError
      | Some row => Ok (nth_error row (Z.to_nat z))
      end
  end.

Definition getBlock (w : World) (x y z : Z) : result (option BlockData) :=
  if inBounds w x y z then index3 (data w) x y z else Ok None.

(** [arr[i] = v] on an index that exists. *)
Fixpoint set_nth {A : Type} (i : nat) (v : A) (l : list A) : list A :=
  match l, i with
  | [], _ => []
  | _ :: rest, O => v :: rest
  | a :: rest, S i' => a :: set_nth i' v rest
  end.

Definition emptyBlock : BlockData := mkBlockData blocks.empty_id (-1).

(** The three nested loops push [width] slices of [height] rows of [width]
    fresh empty blocks. *)
Definition initializeTerrain (w : World) : World :=
  mkWorld (size w)
    (repeat
       (repeat (repeat emptyBlock (Z.to_nat (width (size w))))
               (Z.to_nat (height (size w))))
       (Z.to_nat (width (size w)))).

(** [this.data[x][y][z].id = id] within bounds; a missing element on the
    way throws. *)
Definition setBlockId (w : World) (x y z : Z) (id' : Z) : result World :=
  if inBounds w x y z then
    match nth_error (data w) (Z.to_nat x) with
    | None => TypeError
    | Some slice =>
        match nth_error slice (Z.to_nat y) with
        | None => TypeError
        | Some row =>
            match nth_error row (Z.to_nat z) with
            | None => TypeError
            | Some b =>
                let row' := set_nth (Z.to_nat z)
                                    (mkBlockData id' (instanceId b)) row in
                let slice' := set_nth (Z.to_nat y) row' slice in
                Ok (mkWorld (size w) (set_nth (Z.to_nat x) slice' (data w)))
            end
        end
    end
  else Ok w.

(** The shape [initializeTerrain] gives to [data]:
    [width] slices of [height] rows of [width] blocks. *)
Definition shaped (w : World) : Prop :=
  List.length (data w) = Z.to_nat (width (size w)) /\
  Forall (fun slice =>
            List.length slice = Z.to_nat (height (size w)) /\
            Forall (fun row => List.length row = Z.to_nat (width (size w)))
                   slice)
         (data w).

(** [this.data[x][y][z].instanceId = instanceId] within bounds; a missing
    element on the way throws. *)
Definition setBlockInstanceId (w : World) (x y z : Z) (instanceId' : Z)
  : result World :=
  if inBounds w x y z then
    match nth_error (data w) (Z.to_nat x) with
    | None => TypeError
    | Some slice =>
        match nth_error slice (Z.to_nat y) with
        | None => TypeError
        | Some row =>
            match nth_error row (Z.to_nat z) with
            | None => TypeError
            | Some b =>
                let row' := set_nth (Z.to_nat z)
                                    (mkBlockData (id b) instanceId') row in
                let slice' := set_nth (Z.to_nat y) row' slice in
                Ok (mkWorld (size w) (set_nth (Z.to_nat x) slice' (data w)))
            end
        end
    end
  else Ok w.

(** [this.getBlock(x, y, z)?.id ?? blocks.empty.id] *)
Definition idOrEmpty (w : World) (x y z : Z) : result Z :=
  b <- getBlock w x y z ;;
  Ok (match b with
      | Some b => id b
      | None => blocks.empty_id
      end).

Definition isBlockObscured (w : World) (x y z : Z) : result bool :=
  up <- idOrEmpty w x (y + 1) z ;;
  down <- idOrEmpty w x (y - 1) z ;;
  left <- idOrEmpty w (x + 1) y z ;;
  right <- idOrEmpty w (x - 1) y z ;;
  forward <- idOrEmpty w x y (z + 1) ;;
  back <- idOrEmpty w x y (z - 1) ;;
  Ok (negb ((up =? blocks.empty_id)%Z
            || (down =? blocks.empty_id)%Z
            || (left =? blocks.empty_id)%Z
            || (right =? blocks.empty_id)%Z
            || (forward =? blocks.empty_id)%Z
            || (back =? blocks.empty_id)%Z)).

(** The terrain parameters of [params]. *)
Record WorldTerrain : Type := mkWorldTerrain {
  scale : R;
  magnitude : R;
  offset : R
}.

(** The height of the column over [(x, z)]: the scaled noise, floored and
    kept within the grid.  [simplex] is the [noise] function of the
    [SimplexNoise] object the method builds from the generator. *)
Definition terrainHeight (simplex : R -> R -> R) (terrain : WorldTerrain)
           (w : World) (x z : Z) : Z :=
  let value := simplex (IZR x / scale terrain) (IZR z / scale terrain) in
  let scaledNoise := offset terrain + magnitude terrain * value in
  let height' := Math.floor (IZR (height (size w)) * scaledNoise) in
  Z.max 0 (Z.min height' (height (size w) - 1)).

(** One turn of the loop over [y]: dirt below the height where the cell is
    empty, grass at the height, empty above. *)
Definition terrainCell (w : World) (x y z height' : Z) : result World :=
  if (y <? height')%Z then
    b <- getBlock w x y z ;;
    match b with
    | None => TypeError
    | Some b =>
        if (id b =? blocks.empty_id)%Z then setBlockId w x y z blocks.dirt_id
        else Ok w
    end
  else if (y =? height')%Z then setBlockId w x y z blocks.grass_id
  else if (y >? height')%Z then setBlockId w x y z blocks.empty_id
  else Ok w.

Definition generateTerrain (simplex : R -> R -> R) (terrain : WorldTerrain)
           (w : World) : result World :=
  forRange 0 (width (size w) - 1) (fun x =>
    forRange 0 (width (size w) - 1) (fun z w =>
      let height' := terrainHeight simplex terrain w x z in
      forRange 0 (height (size w))
               (fun y w => terrainCell w x y z height') w)) w.

(** An entry of the [resources] table, with the fields [generateResources]
    reads: the block id, the noise scale along each axis and the scarcity. *)
Record Resource : Type := mkResource {
  resourceId : Z;
  scaleX : R;
  scaleY : R;
  scaleZ : R;
  scarcity : R
}.

(** One turn of the innermost loop of [generateResources]; [simplex3d] is
    the [noise3d] function of the [SimplexNoise] object. *)
Definition resourceCell (simplex3d : R -> R -> R -> R) (resource : Resource)
           (w : World) (x y z : Z) : result World :=
  let value := simplex3d (IZR x / scaleX resource) (IZR y / scaleY resource)
                         (IZR z / scaleZ resource) in
  if Math.ltb (scarcity resource) value
  then setBlockId w x y z (resourceId resource)
  else Ok w.

(** The three loops for one resource. *)
Definition generateResource (simplex3d : R -> R -> R -> R)
           (resource : Resource) (w : World) : result World :=
  forRange 0 (width (size w) - 1) (fun x =>
    forRange 0 (height (size w) - 1) (fun y =>
      forRange 0 (width (size w) - 1) (fun z w =>
        resourceCell simplex3d resource w x y z))) w.

(** [resources.forEach], over the table given. *)
Fixpoint generateResources (simplex3d : R -> R -> R -> R)
         (resources : list Resource) (w : World) : result World :=
  match resources with
  | [] => Ok w
  | resource :: rest =>
      w <- generateResource simplex3d resource w ;;
      generateResources simplex3d rest w
  end.

(** A [THREE.InstancedMesh] as [generateMeshes] uses it: [count], and the
    instance matrices by index.  Each matrix is a translation, held as the
    position [matrix.setPosition] gave it; a slot never written holds none.
    The name, the material and the shadow flags play no part in the
    bookkeeping and are left out, and so is the capacity [maxCount], the
    number of cells of the grid, which one instance per cell cannot exceed. *)
Record InstancedMesh : Type := mkInstancedMesh {
  count : Z;
  instanceMatrix : Z -> option (Z * (Z * Z))
}.

Definition setMatrixAt (mesh : InstancedMesh) (index : Z)
           (matrix : Z * (Z * Z)) : InstancedMesh :=
  mkInstancedMesh (count mesh)
    (fun n => if (n =? index)%Z then Some matrix else instanceMatrix mesh n).

(** The lookup table [meshes]: a JS object keyed by block id. *)
Definition Meshes : Type := list (Z * InstancedMesh).

(** [meshes[key]] *)
Fixpoint meshOf (meshes : Meshes) (key : Z) : option InstancedMesh :=
  match meshes with
  | [] => None
  | (k, mesh) :: rest => if (k =? key)%Z then Some mesh else meshOf rest key
  end.

(** [meshes[key] = mesh], and as well what a change to the mesh object that
    the table holds under [key] does to the table. *)
Fixpoint setMesh (meshes : Meshes) (key : Z) (mesh : InstancedMesh) : Meshes :=
  match meshes with
  | [] => [(key, mesh)]
  | (k, m) :: rest =>
      if (k =? key)%Z then (k, mesh) :: rest
      else (k, m) :: setMesh rest key mesh
  end.

(** The table as built before the loops: an empty mesh for each block type
    but the empty one.  [blockTypes] lists the ids of [Object.values(blocks)]. *)
Definition newMeshes (blockTypes : list Z) : Meshes :=
  fold_left (fun meshes blockType =>
               setMesh meshes blockType (mkInstancedMesh 0 (fun _ => None)))
            (filter (fun blockType => negb (blockType =? blocks.empty_id)%Z)
                    blockTypes)
            [].

(** One turn of the innermost loop of [generateMeshes].  [mesh.count] is
    read before the block is tested for being obscured, so an id without a
    mesh throws whether or not the block shows. *)
Definition meshCell (x y z : Z) (st : World * Meshes)
  : result (World * Meshes) :=
  let '(w, meshes) := st in
  b <- getBlock w x y z ;;
  match b with
  | None => TypeError
  | Some b =>
      let blockId := id b in
      if negb (blockId =? blocks.empty_id)%Z then
        match meshOf meshes blockId with
        | None => TypeError
        | Some mesh =>
            let instanceId := count mesh in
            obscured <- isBlockObscured w x y z ;;
            if negb obscured then
              let mesh := setMatrixAt mesh instanceId (x, (y, z)) in
              w <- setBlockInstanceId w x y z instanceId ;;
              Ok (w, setMesh meshes blockId
                       (mkInstancedMesh (count mesh + 1)
                                        (instanceMatrix mesh)))
            else Ok (w, meshes)
        end
      else Ok (w, meshes)
  end.

(** [generateMeshes]: the grid with its instance ids, and the table whose
    values the method makes the children of the group. *)
Definition generateMeshes (blockTypes : list Z) (w : World)
  : result (World * Meshes) :=
  forRange 0 (width (size w) - 1) (fun x =>
    forRange 0 (height (size w) - 1) (fun y =>
      forRange 0 (width (size w) - 1) (fun z st => meshCell x y z st)))
    (w, newMeshes blockTypes).

(** [generate]: [hideTerrain] and [terrain] are the fields of [params];
    [simplex3d] and [simplex] are the noise functions of the two
    [SimplexNoise] objects that the resources and the terrain pass build
    from the generator seeded with [params.seed]; [resources] and
    [blockTypes] are the tables of blocks.ts. *)
Definition generate (simplex3d : R -> R -> R -> R) (simplex : R -> R -> R)
           (resources : list Resource) (blockTypes : list Z)
           (terrain : WorldTerrain) (hideTerrain : bool) (w : World)
  : result (World * Meshes) :=
  let w := initializeTerrain w in
  w <- generateResources simplex3d resources w ;;
  w <- (if negb hideTerrain then generateTerrain simplex terrain w
        else Ok w) ;;
  generateMeshes blockTypes w.

End World.

(** ** player.ts *)

Module Player.
Import THREE.

(** [position] is [camera.position]; [cameraRight] is column 0 of
    [camera.matrix]; [isLocked] is [controls.isLocked].  The fields
    [radius], [height] and [onGround] are read and written by the physics;
    the class declaring them is not part of the sources at hand, so they
    are plain fields here. *)
Record Player : Type := mkPlayer {
  maxSpeed : R;
  input : Vector3;
  velocity : Vector3;
  position : Vector3;
  cameraRight : Vector3;
  isLocked : bool;
  radius : R;
  height : R;
  onGround : bool
}.

Definition set_velocity (p : Player) (v : Vector3) : Player :=
  mkPlayer (maxSpeed p) (input p) v (position p) (cameraRight p)
           (isLocked p) (radius p) (height p) (onGround p).
Definition set_position (p : Player) (v : Vector3) : Player :=
  mkPlayer (maxSpeed p) (input p) (velocity p) v (cameraRight p)
           (isLocked p) (radius p) (height p) (onGround p).
Definition set_onGround (p : Player) (b : bool) : Player :=
  mkPlayer (maxSpeed p) (input p) (velocity p) (position p) (cameraRight p)
           (isLocked p) (radius p) (height p) b.

(** [PointerLockControls.moveRight] and [moveForward] *)
Definition moveRight (p : Player) (distance : R) : Player :=
  set_position p (addScaledVector (position p) (cameraRight p) distance).
Definition moveForward (p : Player) (distance : R) : Player :=
  set_position p
    (addScaledVector (position p) (crossVectors up (cameraRight p)) distance).

Definition applyInputs (p : Player) (dt : R) : Player :=
  if isLocked p then
    let p := set_velocity p (mkVector3 (x (input p)) (y (velocity p)) (z (velocity p))) in
    let p := set_velocity p (mkVector3 (x (velocity p)) (y (velocity p)) (z (input p))) in
    let p := moveRight p (x (velocity p) * dt) in
    moveForward p (z (velocity p) * dt)
  else p.

(** Modelled from the spec: the getter [worldVelocity] is called by
    [resolveCollisions] but its definition is not part of the sources at
    hand.  The spec's Actor holds its [velocity] as the world-space linear
    velocity, and the resolver projects "the current world-space velocity"
    onto the normal. *)
Definition worldVelocity (p : Player) : Vector3 := velocity p.

(** Modelled from the spec: [applyWorldDeltaVelocity] is called by
    [resolveCollisions] but its definition is not part of the sources at
    hand.  The spec's resolver subtracts the projection from the
    world-space velocity: the given world-space change is added to it. *)
Definition applyWorldDeltaVelocity (p : Player) (dv : Vector3) : Player :=
  set_velocity p (add (velocity p) dv).

Definition set_input (p : Player) (v : Vector3) : Player :=
  mkPlayer (maxSpeed p) v (velocity p) (position p) (cameraRight p)
           (isLocked p) (radius p) (height p) (onGround p).

(** [switch (event.code)] of [onKeyDown] *)
Definition keyDownInput (p : Player) (code : String.string) : Player :=
  if String.eqb code "KeyW"%string then
    set_input p (mkVector3 (x (input p)) (y (input p)) (maxSpeed p))
  else if String.eqb code "KeyA"%string then
    set_input p (mkVector3 (- maxSpeed p) (y (input p)) (z (input p)))
  else if String.eqb code "KeyS"%string then
    set_input p (mkVector3 (x (input p)) (y (input p)) (- maxSpeed p))
  else if String.eqb code "KeyD"%string then
    set_input p (mkVector3 (maxSpeed p) (y (input p)) (z (input p)))
  else p.

(** [onKeyDown], by the [code] of the event.  When the controls are not
    locked it calls [controls.lock()], which asks the browser for the pointer
    and leaves [isLocked] as it is until the browser answers: the second
    component tells whether the call was made. *)
Definition onKeyDown (p : Player) (code : String.string) : Player * bool :=
  (keyDownInput p code, negb (isLocked p)).

Definition onKeyUp (p : Player) (code : String.string) : Player :=
  if String.eqb code "KeyW"%string then
    set_input p (mkVector3 (x (input p)) (y (input p)) 0)
  else if String.eqb code "KeyA"%string then
    set_input p (mkVector3 0 (y (input p)) (z (input p)))
  else if String.eqb code "KeyS"%string then
    set_input p (mkVector3 (x (input p)) (y (input p)) 0)
  else if String.eqb code "KeyD"%string then
    set_input p (mkVector3 0 (y (input p)) (z (input p)))
  else p.

(** The keyboard events the two listeners receive. *)
Inductive KeyEvent : Type :=
| KeyDown (code : String.string)
| KeyUp (code : String.string).

Definition onKey (p : Player) (e : KeyEvent) : Player :=
  match e with
  | KeyDown code => fst (onKeyDown p code)
  | KeyUp code => onKeyUp p code
  end.

End Player.

(** ** physics.ts *)

Module Physics.
Import THREE.

Record Point3D : Type := mkPoint3D { px : R; py : R; pz : R }.

Record BlockCollision : Type := mkBlockCollision {
  block : Point3D;
  contactPoint : Point3D;
  normal : Vector3;
  overlap : R
}.

(** The debug meshes kept in the [helpers] group, by their position. *)
Inductive Mesh : Type :=
| CollisionMesh (at_ : Point3D)
| ContactMesh (at_ : Point3D).

Record Physics : Type := mkPhysics {
  helpers : list Mesh;
  gravity : R;
  simulationRate : R;
  timestep : R;
  accumulator : R
}.

(** The field initialisers of the class. *)
Definition new_Physics : Physics :=
  mkPhysics [] 32 250 (1 / 250) 0.

Definition set_helpers (ph : Physics) (h : list Mesh) : Physics :=
  mkPhysics h (gravity ph) (simulationRate ph) (timestep ph) (accumulator ph).
Definition set_accumulator (ph : Physics) (a : R) : Physics :=
  mkPhysics (helpers ph) (gravity ph) (simulationRate ph) (timestep ph) a.

Definition addCollisionHelper (ph : Physics) (b : Point3D) : Physics :=
  set_helpers ph (helpers ph ++ [CollisionMesh b]).
Definition addContactPointerHelper (ph : Physics) (p : Point3D) : Physics :=
  set_helpers ph (helpers ph ++ [ContactMesh p]).

(** *** broadPhase *)

Definition scanCell (world : World.World) (x y z : Z)
           (st : list Point3D * Physics) : result (list Point3D * Physics) :=
  blk <- World.getBlock world x y z ;;
  match blk with
  | Some b =>
      if negb (World.id b =? blocks.empty_id)%Z then
        let blockPos := mkPoint3D (IZR x) (IZR y) (IZR z) in
        Ok (fst st ++ [blockPos], addCollisionHelper (snd st) blockPos)
      else Ok st
  | None => Ok st
  end.

Definition broadPhase (ph : Physics) (player : Player.Player)
           (world : World.World) : result (list Point3D * Physics) :=
  let xmin := Math.floor (x (Player.position player) - Player.radius player) in
  let xmax := Math.ceil (x (Player.position player) + Player.radius player) in
  let ymin := Math.floor (y (Player.position player) - Player.height player) in
  let ymax := Math.ceil (y (Player.position player)) in
  let zmin := Math.floor (z (Player.position player) - Player.radius player) in
  let zmax := Math.ceil (z (Player.position player) + Player.radius player) in
  forRange xmin xmax (fun x =>
    forRange ymin ymax (fun y =>
      forRange zmin zmax (fun z => scanCell world x y z)))
    ([], ph).

(** *** narrowPhase *)

Definition pointInPlayerBoundingCylinder (p : Point3D)
           (player : Player.Player) : bool :=
  let dx := px p - x (Player.position player) in
  let dy := py p - (y (Player.position player) - Player.height player / 2) in
  let dz := pz p - z (Player.position player) in
  let r_sq := dx * dx + dz * dz in
  Math.ltb (Math.abs dy) (Player.height player / 2)
  && Math.ltb r_sq (Player.radius player * Player.radius player).

Definition closestPointOn (blk : Point3D) (player : Player.Player) : Point3D :=
  mkPoint3D
    (Math.max (px blk - 0.5)
              (Math.min (x (Player.position player)) (px blk + 0.5)))
    (Math.max (py blk - 0.5)
              (Math.min (y (Player.position player) - Player.height player / 2)
                        (py blk + 0.5)))
    (Math.max (pz blk - 0.5)
              (Math.min (z (Player.position player)) (pz blk + 0.5))).

(** One turn of the [for (const block of candidates)] loop. *)
Definition narrowCell
           (st : list BlockCollision * Physics * Player.Player)
           (blk : Point3D) : list BlockCollision * Physics * Player.Player :=
  let '(collisions, ph, player) := st in
  let closestPoint := closestPointOn blk player in
  let dx := px closestPoint - x (Player.position player) in
  let dy := py closestPoint
            - (y (Player.position player) - Player.height player / 2) in
  let dz := pz closestPoint - z (Player.position player) in
  if pointInPlayerBoundingCylinder closestPoint player then
    let overlapY := Player.height player / 2 - Math.abs dy in
    let overlapXZ := Player.radius player - Math.sqrt (dx * dx + dz * dz) in
    let '(normal, overlap, player) :=
      if Math.ltb overlapY overlapXZ then
        (mkVector3 0 (- Math.sign dy) 0, overlapY,
         Player.set_onGround player true)
      else
        (normalize (mkVector3 (- dx) 0 (- dz)), overlapXZ, player) in
    (collisions ++ [mkBlockCollision blk closestPoint normal overlap],
     addContactPointerHelper ph closestPoint,
     player)
  else st.

Definition narrowPhase (ph : Physics) (candidates : list Point3D)
           (player : Player.Player)
  : list BlockCollision * Physics * Player.Player :=
  fold_left narrowCell candidates ([], ph, player).

(** *** resolveCollisions *)

Definition compareOverlap (a b : BlockCollision) : Z :=
  if Math.ltb (overlap a) (overlap b) then (-1)%Z
  else if Math.ltb (overlap b) (overlap a) then 1%Z
  else 0%Z.

(** One turn of the [for (const collision of collisions)] loop. *)
Definition resolveOne (player : Player.Player) (collision : BlockCollision)
  : Player.Player :=
  let deltaPosition := multiplyScalar (normal collision) (overlap collision) in
  let player :=
    Player.set_position player (add (Player.position player) deltaPosition) in
  let magnitude := dot (Player.worldVelocity player) (normal collision) in
  let velocityAdjustment := multiplyScalar (normal collision) magnitude in
  Player.applyWorldDeltaVelocity player (negate velocityAdjustment).

Definition resolveCollisions (collisions : list BlockCollision)
           (player : Player.Player) : Player.Player :=
  fold_left resolveOne (Array_sort compareOverlap collisions) player.

(** *** detectCollisions *)

Definition detectCollisions (ph : Physics) (player : Player.Player)
           (world : World.World) : result (Physics * Player.Player) :=
  let player := Player.set_onGround player false in
  let ph := set_helpers ph [] in
  '(candidates, ph) <- broadPhase ph player world ;;
  let '(collisions, ph, player) := narrowPhase ph candidates player in
  if (0 <? List.length collisions)%nat then
    Ok (ph, resolveCollisions collisions player)
  else Ok (ph, player).

(** *** update *)

(** The body of the [while] loop. *)
Definition fixedStep (ph : Physics) (player : Player.Player)
           (world : World.World) : result (Physics * Player.Player) :=
  let player :=
    Player.set_velocity player
      (mkVector3 (x (Player.velocity player))
                 (y (Player.velocity player) - gravity ph * timestep ph)
                 (z (Player.velocity player))) in
  let player := Player.applyInputs player (timestep ph) in
  '(ph, player) <- detectCollisions ph player world ;;
  Ok (set_accumulator ph (accumulator ph - timestep ph), player).

(** The loop over the reals: the accumulator is added to and subtracted
    from exactly.  [Binary64.while_loop] has the accumulator and the
    timestep as the binary64 numbers of the code. *)
Fixpoint while_loop (fuel : nat) (ph : Physics) (player : Player.Player)
         (world : World.World) : result (Physics * Player.Player) :=
  if Math.geb (accumulator ph) (timestep ph) then
    match fuel with
    | O => OutOfFuel
    | S fuel' =>
        '(ph, player) <- fixedStep ph player world ;;
        while_loop fuel' ph player world
    end
  else Ok (ph, player).

Definition update (fuel : nat) (dt : R) (ph : Physics)
           (player : Player.Player) (world : World.World)
  : result (Physics * Player.Player) :=
  let ph := set_accumulator ph (accumulator ph + dt) in
  while_loop fuel ph player world.

End Physics.

Import THREE.

(** ** The narrow phase in the words of the spec *)

Module NarrowSpec.
Import Physics.

(** Clamping [v] to the interval from [lo] to [hi]. *)
Definition clamp (lo hi v : R) : R :=
  if Rlt_dec v lo then lo else if Rlt_dec hi v then hi else v.

(** The closest point of the unit cube centred on the cell: X and Z are
    clamped against the actor's horizontal position, Y against the actor's
    vertical centre [position.y - height/2]. *)
Definition closest (cell : Point3D) (a : Player.Player) : Point3D :=
  mkPoint3D
    (clamp (px cell - 0.5) (px cell + 0.5) (x (Player.position a)))
    (clamp (py cell - 0.5) (py cell + 0.5)
           (y (Player.position a) - Player.height a / 2))
    (clamp (pz cell - 0.5) (pz cell + 0.5) (z (Player.position a))).

Definition dx (cell : Point3D) (a : Player.Player) : R :=
  px (closest cell a) - x (Player.position a).
Definition dy (cell : Point3D) (a : Player.Player) : R :=
  py (closest cell a) - (y (Player.position a) - Player.height a / 2).
Definition dz (cell : Point3D) (a : Player.Player) : R :=
  pz (closest cell a) - z (Player.position a).

(** [|dy| < height/2 AND dx²+dz² < radius²] *)
Definition contained (cell : Point3D) (a : Player.Player) : Prop :=
  Rabs (dy cell a) < Player.height a / 2 /\
  (dx cell a)² + (dz cell a)² < (Player.radius a)².

Definition overlapY (cell : Point3D) (a : Player.Player) : R :=
  Player.height a / 2 - Rabs (dy cell a).
Definition overlapXZ (cell : Point3D) (a : Player.Player) : R :=
  Player.radius a - R_sqrt.sqrt ((dx cell a)² + (dz cell a)²).

(** The record the spec asks for when the cell is contained. *)
Definition record (cell : Point3D) (a : Player.Player) : BlockCollision :=
  if Rlt_dec (overlapY cell a) (overlapXZ cell a) then
    mkBlockCollision cell (closest cell a)
      (mkVector3 0 (- Math.sign (dy cell a)) 0) (overlapY cell a)
  else
    mkBlockCollision cell (closest cell a)
      (normalize (mkVector3 (- dx cell a) 0 (- dz cell a))) (overlapXZ cell a).

Definition containedb (a : Player.Player) (cell : Point3D) : bool :=
  if Rlt_dec (Rabs (dy cell a)) (Player.height a / 2) then
    if Rlt_dec ((dx cell a)² + (dz cell a)²) ((Player.radius a)²) then true
    else false
  else false.

Definition verticalb (a : Player.Player) (cell : Point3D) : bool :=
  if Rlt_dec (overlapY cell a) (overlapXZ cell a) then true else false.

End NarrowSpec.

(** ** The broad phase in the words of the spec *)

Module BroadSpec.
Import Physics.

(** The inclusive range of cells: minimum floored, maximum ceiled, over
    [position.x - radius .. position.x + radius], [position.y - height ..
    position.y] and [position.z - radius .. position.z + radius]. *)
Definition inExtents (a : Player.Player) (i j k : Z) : Prop :=
  (Zfloor (x (Player.position a) - Player.radius a) <= i
   <= Zceil (x (Player.position a) + Player.radius a))%Z /\
  (Zfloor (y (Player.position a) - Player.height a) <= j
   <= Zceil (y (Player.position a)))%Z /\
  (Zfloor (z (Player.position a) - Player.radius a) <= k
   <= Zceil (z (Player.position a) + Player.radius a))%Z.

(** The cell lies within the grid bounds and holds a non-empty block id. *)
Definition occupied (w : World.World) (i j k : Z) : Prop :=
  World.inBounds w i j k = true /\
  exists b, World.index3 (World.data w) i j k = Ok (Some b) /\
            World.id b <> blocks.empty_id.

(** The same as a test on a cell of the enumeration. *)
Definition keep (w : World.World) (c : Z * (Z * Z)) : bool :=
  let '(i, (j, k)) := c in
  match World.getBlock w i j k with
  | Ok (Some b) => negb (World.id b =? blocks.empty_id)%Z
  | _ => false
  end.

Definition pointOf (c : Z * (Z * Z)) : Point3D :=
  let '(i, (j, k)) := c in mkPoint3D (IZR i) (IZR j) (IZR k).

(** The cells of the extents in the order of the three nested loops. *)
Definition cells (a : Player.Player) : list (Z * (Z * Z)) :=
  list_prod
    (zrange (Zfloor (x (Player.position a) - Player.radius a))
            (Zceil (x (Player.position a) + Player.radius a)))
    (list_prod
       (zrange (Zfloor (y (Player.position a) - Player.height a))
               (Zceil (y (Player.position a))))
       (zrange (Zfloor (z (Player.position a) - Player.radius a))
               (Zceil (z (Player.position a) + Player.radius a)))).

(** Appending found cells to the candidates and their meshes to the helpers. *)
Definition push (st : list Point3D * Physics) (found : list Point3D)
  : list Point3D * Physics :=
  (fst st ++ found,
   set_helpers (snd st) (helpers (snd st) ++ map CollisionMesh found)).

End BroadSpec.

(** ** The resolver's order in the words of the spec *)

(** The records of overlap [v], for comparing discovery orders. *)
Definition sameOverlap (v : R) (c : Physics.BlockCollision) : bool :=
  Math.eqb (Physics.overlap c) v.

(** ** Fixed steps, one after the other *)

Module Steps.
Import Physics.

(** [n] turns of the [while] loop of [update], whatever the accumulator. *)
Fixpoint steps (n : nat) (ph : Physics) (player : Player.Player)
         (world : World.World) : result (Physics * Player.Player) :=
  match n with
  | O => Ok (ph, player)
  | S n' =>
      '(ph, player) <- fixedStep ph player world ;;
      steps n' ph player world
  end.

(** The helpers a detection pass leaves on a shaped grid. *)
Definition passHelpers (a : Player.Player) (w : World.World) : list Mesh :=
  let a0 := Player.set_onGround a false in
  let cands := map BroadSpec.pointOf
                   (filter (BroadSpec.keep w) (BroadSpec.cells a0)) in
  map CollisionMesh cands
  ++ map (fun c => ContactMesh (NarrowSpec.closest c a0))
         (filter (NarrowSpec.containedb a0) cands).

(** The actor a detection pass leaves on a shaped grid. *)
Definition passActor (a : Player.Player) (w : World.World) : Player.Player :=
  let a0 := Player.set_onGround a false in
  let cands := map BroadSpec.pointOf
                   (filter (BroadSpec.keep w) (BroadSpec.cells a0)) in
  let cols := map (fun c => NarrowSpec.record c a0)
                  (filter (NarrowSpec.containedb a0) cands) in
  let a2 := Player.set_onGround a0
              (existsb (fun c => NarrowSpec.containedb a0 c
                                 && NarrowSpec.verticalb a0 c) cands) in
  if (0 <? List.length cols)%nat then resolveCollisions cols a2 else a2.

(** Gravity on the vertical velocity. *)
Definition fall (ph : Physics) (a : Player.Player) : Player.Player :=
  Player.set_velocity a
    (mkVector3 (x (Player.velocity a))
               (y (Player.velocity a) - gravity ph * timestep ph)
               (z (Player.velocity a))).

(** One turn of the loop on a shaped grid, as a total function. *)
Definition pureStep (w : World.World) (s : Physics * Player.Player)
  : Physics * Player.Player :=
  let a1 := Player.applyInputs (fall (fst s) (snd s)) (timestep (fst s)) in
  (set_accumulator (set_helpers (fst s) (passHelpers a1 w))
                   (accumulator (fst s) - timestep (fst s)),
   passActor a1 w).

End Steps.

(** ** The terrain in one formula *)

(** The id the terrain pass leaves in a cell at level [y] of a column of
    height [h] that held [old]. *)
Definition terrainId (h y old : Z) : Z :=
  if (y <? h)%Z then
    if (old =? blocks.empty_id)%Z then blocks.dirt_id else old
  else if (y =? h)%Z then blocks.grass_id
  else blocks.empty_id.

(** [w'] is [w] with the cells chosen by [P] passed through the terrain
    formula for the heights [h], every other cell as it was. *)
Definition terraformed (P : Z -> Z -> Z -> bool) (h : Z -> Z -> Z)
           (w w' : World.World) : Prop :=
  World.size w' = World.size w /\
  World.shaped w' /\
  forall i j k,
    World.inBounds w i j k = true ->
    exists b,
      World.getBlock w i j k = Ok (Some b) /\
      World.getBlock w' i j k
      = Ok (Some (if P i j k
                  then World.mkBlockData (terrainId (h i k) j (World.id b))
                                         (World.instanceId b)
                  else b)).

Definition inb (i : Z) (l : list Z) : bool := existsb (Z.eqb i) l.

(** ** The resources in one formula *)

(** Whether the noise of a resource at a cell exceeds its scarcity. *)
Definition claimed (simplex3d : R -> R -> R -> R) (resource : World.Resource)
           (i j k : Z) : bool :=
  Math.ltb (World.scarcity resource)
           (simplex3d (IZR i / World.scaleX resource)
                      (IZR j / World.scaleY resource)
                      (IZR k / World.scaleZ resource)).

(** The id a cell that held [old] ends with: that of the last resource of
    the table that claims the cell, [old] when none does. *)
Definition resourceIdAt (simplex3d : R -> R -> R -> R)
           (resources : list World.Resource) (i j k old : Z) : Z :=
  fold_left (fun o resource =>
               if claimed simplex3d resource i j k
               then World.resourceId resource else o)
            resources old.

(** What one resource does to the id of a cell. *)
Definition resourceLabel (simplex3d : R -> R -> R -> R)
           (resource : World.Resource) (i j k old : Z) : Z :=
  if claimed simplex3d resource i j k then World.resourceId resource else old.

(** [w'] is [w] with the id of each cell chosen by [P] passed through [g],
    every other cell, and every instance id, as it was. *)
Definition relabelled (P : Z -> Z -> Z -> bool) (g : Z -> Z -> Z -> Z -> Z)
           (w w' : World.World) : Prop :=
  World.size w' = World.size w /\
  World.shaped w' /\
  forall i j k,
    World.inBounds w i j k = true ->
    exists b,
      World.getBlock w i j k = Ok (Some b) /\
      World.getBlock w' i j k
      = Ok (Some (if P i j k
                  then World.mkBlockData (g i j k (World.id b))
                                         (World.instanceId b)
                  else b)).

(** ** The meshes in one formula *)

(** A loop over a list of cells. *)
Fixpoint forCells {S : Type} (l : list (Z * (Z * Z)))
         (body : Z -> Z -> Z -> S -> result S) (s : S) : result S :=
  match l with
  | [] => Ok s
  | (i, (j, k)) :: rest => s' <- body i j k s ;; forCells rest body s'
  end.

(** The cells of the grid in the order the three loops visit them. *)
Definition grid (w : World.World) : list (Z * (Z * Z)) :=
  list_prod (zrange 0 (World.width (World.size w) - 1))
    (list_prod (zrange 0 (World.height (World.size w) - 1))
               (zrange 0 (World.width (World.size w) - 1))).

(** A block that gets an instance: not empty and not obscured. *)
Definition visible (w : World.World) (i j k : Z) : bool :=
  match World.idOrEmpty w i j k, World.isBlockObscured w i j k with
  | Ok v, Ok false => negb (v =? blocks.empty_id)%Z
  | _, _ => false
  end.

(** The cell shows a block of the given id. *)
Definition shows (w : World.World) (blockId : Z) (q : Z * (Z * Z)) : bool :=
  let '(i, (j, k)) := q in
  visible w i j k &&
  match World.idOrEmpty w i j k with
  | Ok v => (v =? blockId)%Z
  | _ => false
  end.

Definition shown (w : World.World) (blockId : Z) (cells : list (Z * (Z * Z)))
  : list (Z * (Z * Z)) :=
  filter (shows w blockId) cells.

(** The ids that have a mesh. *)
Definition knownb (blockTypes : list Z) (blockId : Z) : bool :=
  negb (blockId =? blocks.empty_id)%Z && inb blockId blockTypes.

(** The cell holds nothing or a block whose id has a mesh. *)
Definition meshable (blockTypes : list Z) (w : World.World)
           (q : Z * (Z * Z)) : bool :=
  let '(i, (j, k)) := q in
  match World.idOrEmpty w i j k with
  | Ok v => (v =? blocks.empty_id)%Z || knownb blockTypes v
  | _ => false
  end.

(** The state of [generateMeshes] once the cells [done] of the grid [w] have
    been visited: the ids are those of [w]; a visited cell that shows holds
    as instance id its place among the visited cells showing the same id,
    every other cell is as in [w]; and the mesh of each id lists those
    cells, in order. *)
Definition meshed (blockTypes : list Z) (w : World.World)
           (done : list (Z * (Z * Z))) (st : World.World * World.Meshes)
  : Prop :=
  World.size (fst st) = World.size w /\
  World.shaped (fst st) /\
  (forall i j k, World.idOrEmpty (fst st) i j k = World.idOrEmpty w i j k) /\
  (forall i j k,
     World.inBounds w i j k = true ->
     exists b b',
       World.getBlock w i j k = Ok (Some b) /\
       World.getBlock (fst st) i j k = Ok (Some b') /\
       ((In (i, (j, k)) done /\ visible w i j k = true /\
         exists n, World.instanceId b' = Z.of_nat n /\
                   nth_error (shown w (World.id b) done) n = Some (i, (j, k)))
        \/ (~ (In (i, (j, k)) done /\ visible w i j k = true) /\ b' = b))) /\
  (forall blockId,
     if knownb blockTypes blockId
     then exists mesh,
         World.meshOf (snd st) blockId = Some mesh /\
         World.count mesh = Z.of_nat (List.length (shown w blockId done)) /\
         forall n, (n < List.length (shown w blockId done))%nat ->
                   World.instanceMatrix mesh (Z.of_nat n)
                   = nth_error (shown w blockId done) n
     else World.meshOf (snd st) blockId = None).

(** ** Input values *)

(** An input axis is at rest or at full speed, one way or the other. *)
Definition ofSpeed (s v : R) : Prop := v = - s \/ v = 0 \/ v = s.

(** ** The single-voxel scene of the spec's scenario *)

Module Scenario.

(** One grass block at cell (0,1,0), every other cell empty. *)
Definition blockAt (i j k : nat) : World.BlockData :=
  if ((i =? 0) && (j =? 1) && (k =? 0))%nat
  then World.mkBlockData blocks.grass_id (-1)
  else World.emptyBlock.

Definition world : World.World :=
  World.mkWorld (World.mkWorldSize 8 8)
    (map (fun i => map (fun j => map (fun k => blockAt i j k) (seq 0 8))
                       (seq 0 8))
         (seq 0 8)).

Definition cell : Physics.Point3D := Physics.mkPoint3D 0 1 0.

(** radius 0.4, height 1.8, at (0.5, 2.0, 0.5), at rest, no key held,
    pointer not locked. *)
Definition actor : Player.Player :=
  Player.mkPlayer 10 (mkVector3 0 0 0) (mkVector3 0 0 0)
    (mkVector3 0.5 2 0.5) (mkVector3 1 0 0) false 0.4 1.8 false.

(** A squat actor (radius 1, height 1) whose vertical centre lies inside the
    cell at the origin. *)
Definition origin : Physics.Point3D := Physics.mkPoint3D 0 0 0.

Definition squat : Player.Player :=
  Player.mkPlayer 10 (mkVector3 0 0 0) (mkVector3 0 0 0)
    (mkVector3 0 0.5 0) (mkVector3 1 0 0) false 1 1 false.

(** Actors that stand where the scenario puts its actor. *)
Definition placed (a : Player.Player) : Prop :=
  Player.position a = mkVector3 0.5 2 0.5 /\
  Player.radius a = 0.4 /\ Player.height a = 1.8.

(** Two contacts of a corner: a wall on the east side, 0.3 deep, found
    first, and the floor, 0.1 deep, found second; and an actor running into
    both. *)
Definition wall : Physics.BlockCollision :=
  Physics.mkBlockCollision (Physics.mkPoint3D 1 1 0) (Physics.mkPoint3D 0.5 1 0)
    (mkVector3 (-1) 0 0) 0.3.
Definition floor : Physics.BlockCollision :=
  Physics.mkBlockCollision (Physics.mkPoint3D 0 0 0) (Physics.mkPoint3D 0 0.5 0)
    (mkVector3 0 1 0) 0.1.
Definition runner : Player.Player :=
  Player.mkPlayer 10 (mkVector3 0 0 0) (mkVector3 3 (-2) 5)
    (mkVector3 0 2 0) (mkVector3 1 0 0) false 0.5 1.75 false.

(** The default terrain parameters, and a noise that slopes along x. *)
Definition defaultTerrain : World.WorldTerrain :=
  World.mkWorldTerrain 30 0.5 0.2.
Definition slope (u v : R) : R := u - v / 2.

(** A resources table of two entries, and a noise to run it with. *)
Definition stone : World.Resource := World.mkResource 3 10 10 10 0.5.
Definition coal : World.Resource := World.mkResource 4 20 20 20 0.8.
Definition ores : list World.Resource := [stone; coal].
Definition wave (u v t : R) : R := u + v - t.

(** The ids of the block types of blocks.ts, and of those with the two
    resources added. *)
Definition blockTypes : list Z :=
  [blocks.empty_id; blocks.grass_id; blocks.dirt_id].
Definition allTypes : list Z := blockTypes ++ [3; 4]%Z.

(** A freshly initialised grid of the same size, every cell empty. *)
Definition emptyWorld : World.World :=
  World.initializeTerrain (World.mkWorld (World.mkWorldSize 8 8) []).

(** An actor with the pointer locked, W and D held, looking down the
    negative z axis. *)
Definition strafer : Player.Player :=
  Player.mkPlayer 10 (mkVector3 10 0 10) (mkVector3 0 (-3) 0)
    (mkVector3 32 16 32) (mkVector3 1 0 0) true 0.5 1.75 false.

(** Keys going down and up, W still held at the end. *)
Definition keystrokes : list Player.KeyEvent :=
  [Player.KeyDown "KeyD"; Player.KeyDown "KeyW"; Player.KeyDown "Space";
   Player.KeyDown "KeyA"; Player.KeyUp "KeyA"]%string.

(** Placed actors that no input moves: pointer not locked, or no key held. *)
Definition idle (a : Player.Player) : Prop :=
  placed a /\
  (Player.isLocked a = false \/
   (x (Player.input a) = 0 /\ z (Player.input a) = 0)).

End Scenario.

(** ** Binary64, where rounding decides *)

Module Binary64.
Import PrimFloat.
#[local] Set Warnings "-inexact-float".
Local Open Scope float_scope.

(** The numbers at or above zero, [-0] among them, and those that carry
    the sign [s], in the specification of the format. *)
Definition nonneg (a : SpecFloat.spec_float) : bool :=
  match a with
  | SpecFloat.S754_zero _ => true
  | SpecFloat.S754_infinity s => negb s
  | SpecFloat.S754_finite s _ _ => negb s
  | SpecFloat.S754_nan => false
  end.

Definition signed (s : bool) (a : SpecFloat.spec_float) : Prop :=
  match a with
  | SpecFloat.S754_zero s' => s' = s
  | SpecFloat.S754_infinity s' => s' = s
  | SpecFloat.S754_finite s' _ _ => s' = s
  | SpecFloat.S754_nan => False
  end.

(** The exact value of a finite binary64 number (0 for the others). *)
Definition toR (f : float) : R :=
  match FloatOps.Prim2SF f with
  | SpecFloat.S754_finite s m e =>
      let v := if (0 <=? e)%Z then IZR (Zpos m * 2 ^ e)
               else (IZR (Zpos m) / IZR (2 ^ (- e)))%R in
      if s then (- v)%R else v
  | _ => 0%R
  end.

(** [Math.max] and [Math.min]: NaN when an argument is, and [-0] below
    [+0]; [Math.sign]. *)
Definition max (a b : float) : float :=
  if is_nan a || is_nan b then nan
  else if a <? b then b
  else if b <? a then a
  else if get_sign a then b else a.
Definition min (a b : float) : float :=
  if is_nan a || is_nan b then nan
  else if a <? b then a
  else if b <? a then b
  else if get_sign a then a else b.
Definition sign (a : float) : float :=
  if is_nan a then nan
  else if 0 <? a then 1
  else if a <? 0 then -1
  else a.

(** *** The clock of [update] *)

(** The two fields of [Physics] that decide how many turns the loop of
    [update] takes, as the binary64 numbers they are. *)
Record Clock : Type := mkClock { timestep : float; accumulator : float }.

(** [timestep = 1 / this.simulationRate], [accumulator = 0] *)
Definition new_Clock : Clock := mkClock (1 / 250) 0.

(** The body of the loop but for its last line: gravity, inputs and
    detection, with the physics math over the reals as in
    [Physics.fixedStep]. *)
Definition loopBody (ph : Physics.Physics) (player : Player.Player)
           (world : World.World) : result (Physics.Physics * Player.Player) :=
  let player :=
    Player.set_velocity player
      (THREE.mkVector3
         (THREE.x (Player.velocity player))
         (THREE.y (Player.velocity player)
          - Physics.gravity ph * Physics.timestep ph)%R
         (THREE.z (Player.velocity player))) in
  let player := Player.applyInputs player (Physics.timestep ph) in
  Physics.detectCollisions ph player world.

(** [while (this.accumulator >= this.timestep) { ...;
    this.accumulator -= this.timestep }] *)
Fixpoint while_loop (fuel : nat) (c : Clock) (ph : Physics.Physics)
         (player : Player.Player) (world : World.World)
  : result (Clock * Physics.Physics * Player.Player) :=
  if timestep c <=? accumulator c then
    match fuel with
    | O => OutOfFuel
    | S fuel' =>
        '(ph, player) <- loopBody ph player world ;;
        while_loop fuel' (mkClock (timestep c) (accumulator c - timestep c))
                   ph player world
    end
  else Ok (c, ph, player).

(** [this.accumulator += dt], then the loop. *)
Definition update (fuel : nat) (dt : float) (c : Clock) (ph : Physics.Physics)
           (player : Player.Player) (world : World.World)
  : result (Clock * Physics.Physics * Player.Player) :=
  while_loop fuel (mkClock (timestep c) (accumulator c + dt)) ph player world.

(** The render loop calling [update] once per frame. *)
Fixpoint frames (fuel : nat) (dts : list float) (c : Clock)
         (ph : Physics.Physics) (player : Player.Player) (world : World.World)
  : result (Clock * Physics.Physics * Player.Player) :=
  match dts with
  | [] => Ok (c, ph, player)
  | dt :: rest =>
      '(c, ph, player) <- update fuel dt c ph player world ;;
      frames fuel rest c ph player world
  end.

(** [n] turns of the loop body. *)
Fixpoint turns (n : nat) (ph : Physics.Physics) (player : Player.Player)
         (world : World.World) : result (Physics.Physics * Player.Player) :=
  match n with
  | O => Ok (ph, player)
  | S n' =>
      '(ph, player) <- loopBody ph player world ;;
      turns n' ph player world
  end.

(** The clock alone: how many times the guard of the loop holds from the
    accumulator [acc], and the accumulator left. *)
Fixpoint ticks (fuel : nat) (ts acc : float) : option (nat * float) :=
  if ts <=? acc then
    match fuel with
    | O => None
    | S fuel' =>
        match ticks fuel' ts (acc - ts) with
        | Some (n, acc') => Some (S n, acc')
        | None => None
        end
    end
  else Some (O, acc).

(** The clock over the frames of a run: the turns in all, and the
    accumulator left. *)
Fixpoint frameTicks (fuel : nat) (ts acc : float) (dts : list float)
  : option (nat * float) :=
  match dts with
  | [] => Some (O, acc)
  | dt :: rest =>
      match ticks fuel ts (acc + dt) with
      | Some (n, acc') =>
          match frameTicks fuel ts acc' rest with
          | Some (m, acc'') => Some ((n + m)%nat, acc'')
          | None => None
          end
      | None => None
      end
  end.

(** The time a list of frames adds up to. *)
Fixpoint total (dts : list float) : R :=
  match dts with
  | [] => 0%R
  | dt :: rest => (toR dt + total rest)%R
  end.

(** *** The narrow phase *)

Record Vector3 : Type := mkVector3 { x : float; y : float; z : float }.

Definition multiplyScalar (v : Vector3) (s : float) : Vector3 :=
  mkVector3 (x v * s) (y v * s) (z v * s).
Definition length (v : Vector3) : float :=
  sqrt (x v * x v + y v * y v + z v * z v).
(** [this.divideScalar(this.length() || 1)], where [divideScalar(s)] is
    [multiplyScalar(1 / s)]; a length of 0 or NaN is falsy. *)
Definition normalize (v : Vector3) : Vector3 :=
  let l := length v in
  multiplyScalar v (1 / (if is_zero l || is_nan l then 1 else l)).

Record Point3D : Type := mkPoint3D { px : float; py : float; pz : float }.

Record BlockCollision : Type := mkBlockCollision {
  block : Point3D;
  contactPoint : Point3D;
  normal : Vector3;
  overlap : float
}.

(** The fields of the player that [narrowPhase] reads and writes. *)
Record Player : Type := mkPlayer {
  position : Vector3;
  radius : float;
  height : float;
  onGround : bool
}.

Definition pointInPlayerBoundingCylinder (p : Point3D) (player : Player)
  : bool :=
  let dx := px p - x (position player) in
  let dy := py p - (y (position player) - height player / 2) in
  let dz := pz p - z (position player) in
  let r_sq := dx * dx + dz * dz in
  (abs dy <? height player / 2) && (r_sq <? radius player * radius player).

Definition closestPointOn (blk : Point3D) (player : Player) : Point3D :=
  mkPoint3D
    (max (px blk - 0.5) (min (x (position player)) (px blk + 0.5)))
    (max (py blk - 0.5)
         (min (y (position player) - height player / 2) (py blk + 0.5)))
    (max (pz blk - 0.5) (min (z (position player)) (pz blk + 0.5))).

(** One turn of the [for (const block of candidates)] loop; the second
    component lists the contact helpers added. *)
Definition narrowCell (st : list BlockCollision * list Point3D * Player)
           (blk : Point3D) : list BlockCollision * list Point3D * Player :=
  let '(collisions, helpers, player) := st in
  let closestPoint := closestPointOn blk player in
  let dx := px closestPoint - x (position player) in
  let dy := py closestPoint - (y (position player) - height player / 2) in
  let dz := pz closestPoint - z (position player) in
  if pointInPlayerBoundingCylinder closestPoint player then
    let overlapY := height player / 2 - abs dy in
    let overlapXZ := radius player - sqrt (dx * dx + dz * dz) in
    let '(normal, overlap, player) :=
      if overlapY <? overlapXZ then
        (mkVector3 0 (- sign dy) 0, overlapY,
         mkPlayer (position player) (radius player) (height player) true)
      else
        (normalize (mkVector3 (- dx) 0 (- dz)), overlapXZ, player) in
    (collisions ++ [mkBlockCollision blk closestPoint normal overlap],
     helpers ++ [closestPoint],
     player)
  else st.

Definition narrowPhase (candidates : list Point3D) (player : Player)
  : list BlockCollision * list Point3D * Player :=
  fold_left narrowCell candidates ([], [], player).

(** *** Input values *)

(** Two splits of the same frame time, and one long frame. *)
Definition shortLong : list float := [0.003; 0.009].
Definition longShort : list float := [0.009; 0.003].
Definition oneFrame : list float := [0.004].
Definition twoFrames : list float := [0.002; 0.002].
Definition tenthOfASecond : float := 0.1.

(** A player of radius 0.6 and height 1.8 at (1.332, 1.9, 0.924), beside
    the cell (2, 1, 2). *)
Definition bystander : Player :=
  mkPlayer (mkVector3 1.332 1.9 0.924) 0.6 1.8 false.
Definition corner : Point3D := mkPoint3D 2 1 2.

End Binary64.
(** * Properties *)

(** ** Booleans of the real comparisons *)

Lemma ltb_true (a b : R) : Math.ltb a b = true <-> a < b.
Proof. unfold Math.ltb; destruct (Rlt_dec a b); split; intros; auto; discriminate. Qed.

Lemma ltb_false (a b : R) : Math.ltb a b = false <-> ~ a < b.
Proof. unfold Math.ltb; destruct (Rlt_dec a b); split; intros; auto; try discriminate; contradiction. Qed.

Lemma geb_true (a b : R) : Math.geb a b = true <-> a >= b.
Proof. unfold Math.geb; destruct (Rge_dec a b); split; intros; auto; discriminate. Qed.

Lemma geb_false (a b : R) : Math.geb a b = false <-> a < b.
Proof.
  unfold Math.geb; destruct (Rge_dec a b); split; intros; auto; try discriminate; lra.
Qed.

Lemma eqb_true (a b : R) : Math.eqb a b = true <-> a = b.
Proof. unfold Math.eqb; destruct (Req_dec_T a b); split; intros; auto; discriminate. Qed.

Section NarrowPhase.
Import Physics.

Lemma clamp_max_min (c v : R) :
  Math.max (c - 0.5) (Math.min v (c + 0.5)) = NarrowSpec.clamp (c - 0.5) (c + 0.5) v.
Proof.
  unfold Math.max, Math.min, NarrowSpec.clamp, Rmax, Rmin.
  destruct (Rle_dec v (c + 0.5)), (Rlt_dec v (c - 0.5));
    try destruct (Rlt_dec (c + 0.5) v); destruct (Rle_dec _ _); lra.
Qed.

Lemma closestPointOn_closest (cell : Point3D) (a : Player.Player) :
  closestPointOn cell a = NarrowSpec.closest cell a.
Proof.
  unfold closestPointOn, NarrowSpec.closest.
  now rewrite !clamp_max_min.
Qed.

Lemma containedb_iff (a : Player.Player) (cell : Point3D) :
  NarrowSpec.containedb a cell = true <-> NarrowSpec.contained cell a.
Proof.
  unfold NarrowSpec.containedb, NarrowSpec.contained.
  destruct (Rlt_dec _ _); [destruct (Rlt_dec _ _)|]; split; intros H;
    try discriminate; try tauto.
Qed.

Lemma pointIn_containedb (cell : Point3D) (a : Player.Player) :
  pointInPlayerBoundingCylinder (closestPointOn cell a) a
  = NarrowSpec.containedb a cell.
Proof.
  unfold pointInPlayerBoundingCylinder, NarrowSpec.containedb.
  rewrite closestPointOn_closest.
  fold (NarrowSpec.dx cell a) (NarrowSpec.dy cell a) (NarrowSpec.dz cell a).
  unfold Math.ltb, Math.abs, Rsqr.
  destruct (Rlt_dec _ _); [destruct (Rlt_dec _ _)|]; reflexivity.
Qed.

(** The state after one turn of the loop, by cases on the cell. *)
Lemma narrowCell_step cols ph (a : Player.Player) b cell :
  narrowCell (cols, ph, Player.set_onGround a b) cell =
  if NarrowSpec.containedb a cell then
    (cols ++ [NarrowSpec.record cell a],
     addContactPointerHelper ph (NarrowSpec.closest cell a),
     Player.set_onGround a (b || NarrowSpec.verticalb a cell))
  else (cols, ph, Player.set_onGround a b).
Proof.
  unfold narrowCell.
  change (closestPointOn cell (Player.set_onGround a b))
    with (closestPointOn cell a).
  change (pointInPlayerBoundingCylinder (closestPointOn cell a)
            (Player.set_onGround a b))
    with (pointInPlayerBoundingCylinder (closestPointOn cell a) a).
  rewrite pointIn_containedb.
  destruct (NarrowSpec.containedb a cell); [|reflexivity].
  rewrite closestPointOn_closest.
  cbn [Player.position Player.height Player.radius Player.set_onGround].
  fold (NarrowSpec.dx cell a) (NarrowSpec.dy cell a) (NarrowSpec.dz cell a).
  unfold NarrowSpec.record, NarrowSpec.verticalb, Math.ltb, Math.abs, Math.sqrt.
  change (NarrowSpec.dx cell a * NarrowSpec.dx cell a) with (NarrowSpec.dx cell a)².
  change (NarrowSpec.dz cell a * NarrowSpec.dz cell a) with (NarrowSpec.dz cell a)².
  fold (NarrowSpec.overlapY cell a) (NarrowSpec.overlapXZ cell a).
  destruct (Rlt_dec _ _).
  - now rewrite orb_true_r.
  - now rewrite orb_false_r.
Qed.

Lemma set_onGround_same (a : Player.Player) :
  Player.set_onGround a (Player.onGround a) = a.
Proof. now destruct a. Qed.

Lemma narrowPhase_fold cands : forall cols ph (a : Player.Player) b,
  fold_left narrowCell cands (cols, ph, Player.set_onGround a b) =
  (cols ++ map (fun c => NarrowSpec.record c a)
               (filter (NarrowSpec.containedb a) cands),
   set_helpers ph
     (helpers ph ++ map (fun c => ContactMesh (NarrowSpec.closest c a))
                        (filter (NarrowSpec.containedb a) cands)),
   Player.set_onGround a (b || existsb (fun c => NarrowSpec.containedb a c
                                           && NarrowSpec.verticalb a c) cands)).
Proof.
  induction cands as [|cell rest IH]; intros cols ph a b; cbn [fold_left].
  - cbn. rewrite !app_nil_r, orb_false_r. now destruct ph.
  - rewrite narrowCell_step. cbn [filter existsb].
    destruct (NarrowSpec.containedb a cell); cbn [andb orb].
    + rewrite IH. cbn [map]. rewrite <- !app_assoc. cbn [app].
      unfold addContactPointerHelper, set_helpers; cbn.
      rewrite <- !app_assoc, orb_assoc. reflexivity.
    + now rewrite IH.
Qed.

(** What [narrowPhase] returns, in one equation. *)
Lemma narrowPhase_eq ph cands (a : Player.Player) :
  narrowPhase ph cands a =
  (map (fun c => NarrowSpec.record c a) (filter (NarrowSpec.containedb a) cands),
   set_helpers ph
     (helpers ph ++ map (fun c => ContactMesh (NarrowSpec.closest c a))
                        (filter (NarrowSpec.containedb a) cands)),
   Player.set_onGround a
     (Player.onGround a || existsb (fun c => NarrowSpec.containedb a c
                                       && NarrowSpec.verticalb a c) cands)).
Proof.
  unfold narrowPhase.
  rewrite <- (set_onGround_same a) at 1.
  now rewrite narrowPhase_fold.
Qed.

Lemma record_block cell a : block (NarrowSpec.record cell a) = cell.
Proof. unfold NarrowSpec.record; now destruct (Rlt_dec _ _). Qed.

End NarrowPhase.

Section NarrowPhaseClaims.
Import Physics.

(** C1.  For every candidate cell and every actor, [narrowPhase] emits a
    collision record for that cell if and only if the closest point of the
    cell's unit cube (centre convention, clamped per axis against the actor's
    horizontal position in X and Z and against [position.y - height/2] in Y)
    satisfies [|dy| < height/2] and [dx²+dz² < radius²].  Every emitted
    record belongs to a candidate cell that passes this test, carries the
    closest point as contact point, and has overlap [overlapY] with normal
    [(0, -sign dy, 0)] when [overlapY < overlapXZ], and otherwise overlap
    [overlapXZ = radius - sqrt (dx²+dz²)] with normal the normalized
    [(-dx, 0, -dz)]. *)
Theorem narrowPhase_emits (ph : Physics) (candidates : list Point3D)
        (a : Player.Player) :
  let emitted := fst (fst (narrowPhase ph candidates a)) in
  (forall cell, In cell candidates ->
     ((exists r, In r emitted /\ block r = cell) <-> NarrowSpec.contained cell a))
  /\
  (forall r, In r emitted ->
     let cell := block r in
     In cell candidates /\ NarrowSpec.contained cell a /\
     contactPoint r = NarrowSpec.closest cell a /\
     (NarrowSpec.overlapY cell a < NarrowSpec.overlapXZ cell a ->
        overlap r = NarrowSpec.overlapY cell a /\
        normal r = mkVector3 0 (- Math.sign (NarrowSpec.dy cell a)) 0) /\
     (~ NarrowSpec.overlapY cell a < NarrowSpec.overlapXZ cell a ->
        overlap r = NarrowSpec.overlapXZ cell a /\
        normal r = normalize (mkVector3 (- NarrowSpec.dx cell a) 0
                                        (- NarrowSpec.dz cell a)))).
Proof.
  rewrite narrowPhase_eq; cbn [fst]. split.
  - intros cell Hin. rewrite <- containedb_iff. split.
    + intros (r & Hr & Hb). apply in_map_iff in Hr as (c & <- & Hc).
      apply filter_In in Hc as [_ Hc]. rewrite record_block in Hb. now subst.
    + intros Hc. exists (NarrowSpec.record cell a). split.
      * apply in_map_iff. exists cell. split; [reflexivity|].
        apply filter_In. now split.
      * apply record_block.
  - intros r Hr. apply in_map_iff in Hr as (c & <- & Hc).
    apply filter_In in Hc as [Hin Hc]. apply containedb_iff in Hc.
    cbn zeta. rewrite record_block.
    unfold NarrowSpec.record.
    destruct (Rlt_dec _ _) as [Hlt|Hge]; cbn [block contactPoint overlap normal];
      (split; [assumption|]); (split; [assumption|]); (split; [reflexivity|]);
      split; intros H; try (split; reflexivity); contradiction.
Qed.

End NarrowPhaseClaims.

(** ** The scenario, evaluated *)

Section ScenarioFacts.
Import Physics.

Ltac scene_unfold H :=
  destruct H as (Hpos & Hrad & Hh);
  unfold NarrowSpec.dx, NarrowSpec.dy, NarrowSpec.dz, NarrowSpec.closest,
    NarrowSpec.clamp, Scenario.cell;
  rewrite ?Hpos, ?Hrad, ?Hh; cbn [px py pz x y z];
  repeat destruct (Rlt_dec _ _); try lra.

Lemma scene_dx a : Scenario.placed a -> NarrowSpec.dx Scenario.cell a = 0.
Proof. intros H. scene_unfold H. Qed.

Lemma scene_dy a : Scenario.placed a -> NarrowSpec.dy Scenario.cell a = 0.
Proof. intros H. scene_unfold H. Qed.

Lemma scene_dz a : Scenario.placed a -> NarrowSpec.dz Scenario.cell a = 0.
Proof. intros H. scene_unfold H. Qed.

Lemma scene_overlapY a :
  Scenario.placed a -> NarrowSpec.overlapY Scenario.cell a = 0.9.
Proof.
  intros H. unfold NarrowSpec.overlapY. rewrite (scene_dy a H), Rabs_R0.
  destruct H as (_ & _ & ->). lra.
Qed.

Lemma scene_overlapXZ a :
  Scenario.placed a -> NarrowSpec.overlapXZ Scenario.cell a = 0.4.
Proof.
  intros H. unfold NarrowSpec.overlapXZ.
  rewrite (scene_dx a H), (scene_dz a H).
  replace (0² + 0²) with 0 by (unfold Rsqr; lra). rewrite sqrt_0.
  destruct H as (_ & -> & _). lra.
Qed.

Lemma scene_containedb a :
  Scenario.placed a -> NarrowSpec.containedb a Scenario.cell = true.
Proof.
  intros H. apply containedb_iff. unfold NarrowSpec.contained.
  rewrite (scene_dx a H), (scene_dy a H), (scene_dz a H), Rabs_R0.
  destruct H as (_ & -> & ->). unfold Rsqr. lra.
Qed.

Lemma scene_verticalb a :
  Scenario.placed a -> NarrowSpec.verticalb a Scenario.cell = false.
Proof.
  intros H. unfold NarrowSpec.verticalb.
  rewrite (scene_overlapY a H), (scene_overlapXZ a H).
  destruct (Rlt_dec _ _); [lra|reflexivity].
Qed.

Lemma normalize_degenerate (u w : R) :
  u = 0 -> w = 0 -> normalize (mkVector3 (- u) 0 (- w)) = mkVector3 0 0 0.
Proof.
  intros -> ->. unfold normalize, THREE.length, Math.sqrt. cbn [x y z].
  replace (- 0 * - 0 + 0 * 0 + - 0 * - 0) with 0 by lra. rewrite sqrt_0.
  unfold Math.eqb. destruct (Req_dec_T 0 0); [|contradiction].
  unfold divideScalar, multiplyScalar. cbn [x y z]. f_equal; lra.
Qed.

Lemma scene_record a :
  Scenario.placed a ->
  NarrowSpec.record Scenario.cell a =
  mkBlockCollision Scenario.cell (NarrowSpec.closest Scenario.cell a)
                   (mkVector3 0 0 0) 0.4.
Proof.
  intros H. unfold NarrowSpec.record.
  rewrite (scene_overlapY a H), (scene_overlapXZ a H).
  destruct (Rlt_dec _ _); [lra|].
  now rewrite normalize_degenerate by (auto using scene_dx, scene_dz).
Qed.

Lemma actor_placed : Scenario.placed Scenario.actor.
Proof. repeat split. Qed.

Lemma scene_narrowPhase ph a :
  Scenario.placed a ->
  fst (fst (narrowPhase ph [Scenario.cell] a)) =
  [mkBlockCollision Scenario.cell (NarrowSpec.closest Scenario.cell a)
                    (mkVector3 0 0 0) 0.4].
Proof.
  intros H. rewrite narrowPhase_eq. cbn [fst filter].
  rewrite (scene_containedb a H). cbn [map]. now rewrite (scene_record a H).
Qed.

Ltac squat_unfold :=
  unfold NarrowSpec.dx, NarrowSpec.dy, NarrowSpec.dz, NarrowSpec.closest,
    NarrowSpec.clamp, Scenario.origin, Scenario.squat;
  cbn [px py pz x y z Player.position Player.height Player.radius];
  repeat destruct (Rlt_dec _ _); lra.

Lemma squat_dx : NarrowSpec.dx Scenario.origin Scenario.squat = 0.
Proof. squat_unfold. Qed.

Lemma squat_dy : NarrowSpec.dy Scenario.origin Scenario.squat = 0.
Proof. squat_unfold. Qed.

Lemma squat_dz : NarrowSpec.dz Scenario.origin Scenario.squat = 0.
Proof. squat_unfold. Qed.

Lemma squat_overlaps :
  NarrowSpec.overlapY Scenario.origin Scenario.squat = 0.5 /\
  NarrowSpec.overlapXZ Scenario.origin Scenario.squat = 1.
Proof.
  unfold NarrowSpec.overlapY, NarrowSpec.overlapXZ.
  rewrite squat_dx, squat_dy, squat_dz, Rabs_R0.
  replace (0² + 0²) with 0 by (unfold Rsqr; lra). rewrite sqrt_0.
  cbn [Player.height Player.radius Scenario.squat]. split; lra.
Qed.

(** The squat actor over the origin cell takes the vertical branch with
    [dy = 0]. *)
Lemma squat_narrowPhase ph :
  fst (fst (narrowPhase ph [Scenario.origin] Scenario.squat)) =
  [mkBlockCollision Scenario.origin
     (NarrowSpec.closest Scenario.origin Scenario.squat)
     (mkVector3 0 (- 0) 0) 0.5].
Proof.
  destruct squat_overlaps as [Hy Hxz].
  rewrite narrowPhase_eq. cbn [fst filter].
  replace (NarrowSpec.containedb Scenario.squat Scenario.origin) with true.
  2:{ symmetry. apply containedb_iff. unfold NarrowSpec.contained.
      rewrite squat_dx, squat_dy, squat_dz, Rabs_R0. cbn. unfold Rsqr. lra. }
  cbn [map]. unfold NarrowSpec.record. rewrite Hy, Hxz, squat_dy.
  destruct (Rlt_dec _ _); [|lra].
  unfold Math.sign. destruct (Rlt_dec 0 0); [lra|reflexivity].
Qed.

Lemma length_zero_vector (w : R) : w = 0 -> THREE.length (mkVector3 0 w 0) = 0.
Proof.
  intros ->. unfold THREE.length, Math.sqrt. cbn [x y z].
  replace (0 * 0 + 0 * 0 + 0 * 0) with 0 by lra. apply sqrt_0.
Qed.

End ScenarioFacts.

Section NormalClaims.
Import Physics.

Lemma length_normalize (v : Vector3) :
  THREE.length v <> 0 -> THREE.length (normalize v) = 1.
Proof.
  intros Hl. unfold normalize, Math.eqb.
  destruct (Req_dec_T (THREE.length v) 0) as [E|_]; [contradiction|].
  unfold THREE.length, Math.sqrt in *.
  set (s := x v * x v + y v * y v + z v * z v) in *.
  assert (Hs : 0 <= s) by (unfold s; nra).
  unfold divideScalar, multiplyScalar; cbn [x y z].
  replace (x v * (1 / R_sqrt.sqrt s) * (x v * (1 / R_sqrt.sqrt s)) +
           y v * (1 / R_sqrt.sqrt s) * (y v * (1 / R_sqrt.sqrt s)) +
           z v * (1 / R_sqrt.sqrt s) * (z v * (1 / R_sqrt.sqrt s)))
    with (s / (R_sqrt.sqrt s * R_sqrt.sqrt s)) by (unfold s; field; exact Hl).
  rewrite sqrt_sqrt by assumption.
  replace (s / s) with 1; [apply sqrt_1|].
  field. intros E. apply Hl. rewrite E. apply sqrt_0.
Qed.

(** Away from the degenerate inputs the emitted normal has length 1: in the
    vertical branch when [dy <> 0], in the horizontal branch when [dx] and
    [dz] are not both 0. *)
Lemma narrowPhase_normal_unit (ph : Physics) (candidates : list Point3D)
      (a : Player.Player) (r : BlockCollision) :
  In r (fst (fst (narrowPhase ph candidates a))) ->
  (NarrowSpec.overlapY (block r) a < NarrowSpec.overlapXZ (block r) a ->
   NarrowSpec.dy (block r) a <> 0) ->
  (~ NarrowSpec.overlapY (block r) a < NarrowSpec.overlapXZ (block r) a ->
   NarrowSpec.dx (block r) a <> 0 \/ NarrowSpec.dz (block r) a <> 0) ->
  THREE.length (normal r) = 1.
Proof.
  rewrite narrowPhase_eq; cbn [fst]. intros Hr.
  apply in_map_iff in Hr as (c & <- & _). rewrite record_block.
  unfold NarrowSpec.record. destruct (Rlt_dec _ _) as [Hv|Hh]; cbn [normal].
  - intros Hdy _. specialize (Hdy Hv).
    unfold THREE.length, Math.sqrt, Math.sign; cbn [x y z].
    destruct (Rlt_dec 0 _); [|destruct (Rlt_dec _ 0); [|lra]];
      match goal with |- R_sqrt.sqrt ?e = 1 => replace e with 1 by lra end;
      apply sqrt_1.
  - intros _ Hd. specialize (Hd Hh). apply length_normalize.
    unfold THREE.length, Math.sqrt; cbn [x y z]. intros E.
    apply sqrt_eq_0 in E; [|nra].
    destruct Hd as [Hd|Hd]; apply Hd; nra.
Qed.

(** C5, the code at the two degenerate inputs.  In the scenario the closest
    point has [dx = dz = 0] and the horizontal branch is taken: the emitted
    normal is the zero vector.  For the squat actor the closest point has
    [dy = 0] and the vertical branch is taken: the emitted normal is
    [(0, -0, 0)].  Neither has length 1. *)
Theorem narrowPhase_degenerate_normal :
  (exists r,
     fst (fst (narrowPhase new_Physics [Scenario.cell] Scenario.actor)) = [r] /\
     NarrowSpec.dx Scenario.cell Scenario.actor = 0 /\
     NarrowSpec.dz Scenario.cell Scenario.actor = 0 /\
     ~ NarrowSpec.overlapY Scenario.cell Scenario.actor
       < NarrowSpec.overlapXZ Scenario.cell Scenario.actor /\
     normal r = mkVector3 0 0 0 /\
     THREE.length (normal r) <> 1)
  /\
  (exists r,
     fst (fst (narrowPhase new_Physics [Scenario.origin] Scenario.squat)) = [r] /\
     NarrowSpec.dy Scenario.origin Scenario.squat = 0 /\
     NarrowSpec.overlapY Scenario.origin Scenario.squat
     < NarrowSpec.overlapXZ Scenario.origin Scenario.squat /\
     normal r = mkVector3 0 (- 0) 0 /\
     THREE.length (normal r) <> 1).
Proof.
  split.
  - eexists. split; [apply scene_narrowPhase, actor_placed|].
    split; [apply scene_dx, actor_placed|].
    split; [apply scene_dz, actor_placed|].
    split.
    + rewrite (scene_overlapY _ actor_placed), (scene_overlapXZ _ actor_placed). lra.
    + cbn [normal]. split; [reflexivity|].
      rewrite length_zero_vector by reflexivity. lra.
  - destruct squat_overlaps as [Hy Hxz].
    eexists. split; [apply squat_narrowPhase|].
    split; [exact squat_dy|]. split; [rewrite Hy, Hxz; lra|].
    cbn [normal]. split; [reflexivity|].
    rewrite length_zero_vector by lra. lra.
Qed.

End NormalClaims.

(** ** The stable sort, run *)

Example Array_sort_runs :
  Array_sort (fun a b => (a - b)%Z) [3; 1; 2]%Z = [1; 2; 3]%Z.
Proof. reflexivity. Qed.

(** Equal keys keep their order: 20 stays before 21, 10 before 11. *)
Example Array_sort_keeps_ties :
  Array_sort (fun a b => (a / 10 - b / 10)%Z) [20; 10; 21; 11]%Z
  = [10; 11; 20; 21]%Z.
Proof. reflexivity. Qed.

Example zrange_runs : zrange (-1) 2 = [-1; 0; 1; 2]%Z.
Proof. reflexivity. Qed.

Example zrange_empty : zrange 3 2 = [].
Proof. reflexivity. Qed.

(** ** The resolver *)

Section Resolver.
Import Physics.

Lemma compareOverlap_le (a b : BlockCollision) :
  (compareOverlap a b <=? 0)%Z = true <-> overlap a <= overlap b.
Proof.
  unfold compareOverlap, Math.ltb.
  destruct (Rlt_dec (overlap a) (overlap b)); [cbn; split; intros; [lra|reflexivity]|].
  destruct (Rlt_dec (overlap b) (overlap a)); cbn; split; intros; try lra;
    try discriminate; reflexivity.
Qed.

Lemma insert_perm (a : BlockCollision) (l : list BlockCollision) :
  Permutation (insert compareOverlap a l) (a :: l).
Proof.
  induction l as [|b rest IH]; cbn; [reflexivity|].
  destruct (compareOverlap a b <=? 0)%Z; [reflexivity|].
  rewrite IH. apply perm_swap.
Qed.

Lemma Array_sort_perm (l : list BlockCollision) :
  Permutation (Array_sort compareOverlap l) l.
Proof.
  induction l as [|a rest IH]; cbn; [constructor|].
  rewrite insert_perm. now constructor.
Qed.

Lemma insert_sorted (a : BlockCollision) (l : list BlockCollision) :
  StronglySorted (fun u v => overlap u <= overlap v) l ->
  StronglySorted (fun u v => overlap u <= overlap v) (insert compareOverlap a l).
Proof.
  induction 1 as [|b rest Hs IH Hb]; cbn.
  - repeat constructor.
  - destruct (compareOverlap a b <=? 0)%Z eqn:E.
    + apply compareOverlap_le in E. constructor.
      * now constructor.
      * constructor; [assumption|].
        eapply Forall_impl; [|exact Hb]. cbn; intros; lra.
    + assert (Hab : overlap b <= overlap a).
      { destruct (Rle_dec (overlap a) (overlap b)) as [H|H]; [|lra].
        apply compareOverlap_le in H. congruence. }
      constructor; [assumption|].
      eapply Permutation_Forall; [symmetry; apply insert_perm|].
      now constructor.
Qed.

Lemma Array_sort_sorted (l : list BlockCollision) :
  StronglySorted (fun u v => overlap u <= overlap v) (Array_sort compareOverlap l).
Proof.
  induction l as [|a rest IH]; cbn; [constructor|]. now apply insert_sorted.
Qed.

Lemma insert_stable (v : R) (a : BlockCollision) (l : list BlockCollision) :
  filter (sameOverlap v) (insert compareOverlap a l)
  = filter (sameOverlap v) (a :: l).
Proof.
  induction l as [|b rest IH]; [reflexivity|].
  cbn [insert]. destruct (compareOverlap a b <=? 0)%Z eqn:E; [reflexivity|].
  assert (Hne : overlap a <> overlap b).
  { intros Heq. assert (H : overlap a <= overlap b) by lra.
    apply compareOverlap_le in H. congruence. }
  cbn [filter] in *. rewrite IH.
  unfold sameOverlap, Math.eqb.
  destruct (Req_dec_T (overlap a) v), (Req_dec_T (overlap b) v);
    try reflexivity. congruence.
Qed.

Lemma Array_sort_stable (v : R) (l : list BlockCollision) :
  filter (sameOverlap v) (Array_sort compareOverlap l) = filter (sameOverlap v) l.
Proof.
  induction l as [|a rest IH]; [reflexivity|].
  cbn [Array_sort]. rewrite insert_stable. cbn [filter]. now rewrite IH.
Qed.

Lemma length_one_dot (n : Vector3) : THREE.length n = 1 -> dot n n = 1.
Proof.
  unfold THREE.length, Math.sqrt, dot. intros H.
  rewrite <- (sqrt_sqrt (x n * x n + y n * y n + z n * z n)) by nra.
  rewrite H. lra.
Qed.

(** C2.  [resolveCollisions] runs its loop over the records reordered by
    ascending overlap, records of equal overlap keeping their discovery
    order.  Each turn first moves the position by [normal * overlap] and then
    takes from the world velocity its component [(v . normal) normal] along
    the record's normal: the velocity along any direction orthogonal to the
    normal is unchanged, and for a unit normal nothing is left along it.
    Nothing else of the actor changes. *)
Theorem resolveCollisions_order (collisions : list BlockCollision)
        (player : Player.Player) :
  exists sorted,
    Permutation sorted collisions /\
    StronglySorted (fun u v => overlap u <= overlap v) sorted /\
    (forall v, filter (sameOverlap v) sorted = filter (sameOverlap v) collisions) /\
    resolveCollisions collisions player = fold_left resolveOne sorted player /\
    forall (p : Player.Player) (c : BlockCollision),
      let p' := resolveOne p c in
      let v := Player.worldVelocity p in
      Player.position p'
        = add (Player.position p) (multiplyScalar (normal c) (overlap c)) /\
      Player.worldVelocity p'
        = add v (negate (multiplyScalar (normal c) (dot v (normal c)))) /\
      (forall t, dot t (normal c) = 0 -> dot (Player.worldVelocity p') t = dot v t) /\
      (THREE.length (normal c) = 1 -> dot (Player.worldVelocity p') (normal c) = 0) /\
      Player.set_velocity (Player.set_position p' (Player.position p))
                          (Player.velocity p) = p.
Proof.
  exists (Array_sort compareOverlap collisions).
  split; [apply Array_sort_perm|].
  split; [apply Array_sort_sorted|].
  split; [intros v; apply Array_sort_stable|].
  split; [reflexivity|].
  intros p c p' v. subst p' v.
  split; [reflexivity|]. split; [reflexivity|]. split; [|split].
  - intros t Ht.
    transitivity (dot (Player.worldVelocity p) t
                  - dot (Player.worldVelocity p) (normal c) * dot t (normal c)).
    + unfold Player.worldVelocity, dot; cbn; unfold dot; ring.
    + rewrite Ht. ring.
  - intros Hn. apply length_one_dot in Hn.
    transitivity (dot (Player.worldVelocity p) (normal c)
                  * (1 - dot (normal c) (normal c))).
    + unfold Player.worldVelocity, dot; cbn; unfold dot; ring.
    + rewrite Hn. ring.
  - now destruct p.
Qed.

Lemma resolveOne_position (p : Player.Player) (c : BlockCollision) :
  Player.position (resolveOne p c)
  = add (Player.position p) (multiplyScalar (normal c) (overlap c)).
Proof. reflexivity. Qed.

Lemma resolveOne_velocity (p : Player.Player) (c : BlockCollision) :
  Player.velocity (resolveOne p c)
  = add (Player.velocity p)
        (negate (multiplyScalar (normal c) (dot (Player.velocity p) (normal c)))).
Proof. reflexivity. Qed.

(** The corner, run: the floor (0.1) is resolved before the wall (0.3); the
    actor is lifted by 0.1 and pushed west by 0.3, loses its velocity into the
    floor and into the wall and keeps the velocity along both. *)
Example resolveCollisions_runs :
  Array_sort compareOverlap [Scenario.wall; Scenario.floor]
  = [Scenario.floor; Scenario.wall] /\
  Player.position (resolveCollisions [Scenario.wall; Scenario.floor]
                                      Scenario.runner)
  = mkVector3 (-0.3) 2.1 0 /\
  Player.velocity (resolveCollisions [Scenario.wall; Scenario.floor]
                                      Scenario.runner)
  = mkVector3 0 0 5.
Proof.
  assert (Hs : Array_sort compareOverlap [Scenario.wall; Scenario.floor]
               = [Scenario.floor; Scenario.wall]).
  { cbn [Array_sort insert]. unfold compareOverlap.
    cbn [overlap Scenario.wall Scenario.floor].
    rewrite (proj2 (ltb_false 0.3 0.1)) by lra.
    rewrite (proj2 (ltb_true 0.1 0.3)) by lra. reflexivity. }
  split; [exact Hs|]. unfold resolveCollisions. rewrite Hs.
  cbn [fold_left]. split.
  - rewrite !resolveOne_position.
    unfold Scenario.runner, Scenario.wall, Scenario.floor, add, multiplyScalar.
    cbn [Player.position x y z normal overlap]. f_equal; lra.
  - rewrite !resolveOne_velocity.
    unfold Scenario.runner, Scenario.wall, Scenario.floor, add, negate,
      multiplyScalar, dot.
    cbn [Player.velocity x y z normal overlap]. f_equal; lra.
Qed.

End Resolver.

(** ** The broad phase *)

Section BroadPhase.
Import Physics.

Lemma in_zrange (lo hi i : Z) : In i (zrange lo hi) <-> (lo <= i <= hi)%Z.
Proof.
  unfold zrange. rewrite in_map_iff. split.
  - intros (n & <- & Hn). apply in_seq in Hn. lia.
  - intros H. exists (Z.to_nat (i - lo)). split; [lia|]. apply in_seq. lia.
Qed.

Lemma NoDup_zrange (lo hi : Z) : NoDup (zrange lo hi).
Proof.
  unfold zrange. apply NoDup_map_NoDup_ForallPairs; [|apply seq_NoDup].
  intros m n _ _ H. lia.
Qed.

Lemma NoDup_list_prod {A B : Type} (l : list A) (l' : list B) :
  NoDup l -> NoDup l' -> NoDup (list_prod l l').
Proof.
  induction 1 as [|a l Ha Hl IH]; intros Hl'; cbn; [constructor|].
  apply NoDup_app.
  - apply NoDup_map_NoDup_ForallPairs; [|assumption].
    intros u v _ _ E. now inversion E.
  - now apply IH.
  - intros [a' b'] H1 H2. apply in_map_iff in H1 as (b & E & _).
    inversion E; subst. apply in_prod_iff in H2 as [H2 _]. contradiction.
Qed.

Lemma push_nil st : BroadSpec.push st [] = st.
Proof.
  destruct st as [c ph]. unfold BroadSpec.push; cbn.
  rewrite !app_nil_r. now destruct ph.
Qed.

Lemma push_push st l l' :
  BroadSpec.push (BroadSpec.push st l) l' = BroadSpec.push st (l ++ l').
Proof.
  unfold BroadSpec.push, set_helpers; cbn.
  now rewrite map_app, !app_assoc.
Qed.

(** On a grid with the shape of its size no lookup throws. *)
Lemma index3_shaped (w : World.World) (i j k : Z) :
  World.shaped w -> World.inBounds w i j k = true ->
  exists b, World.index3 (World.data w) i j k = Ok (Some b).
Proof.
  intros [Hlen Hall] Hin. unfold World.inBounds in Hin.
  repeat (apply andb_true_iff in Hin as [Hin ?]).
  unfold World.index3.
  destruct (nth_error (World.data w) (Z.to_nat i)) as [slice|] eqn:E1.
  2:{ apply nth_error_None in E1. lia. }
  apply nth_error_In in E1.
  rewrite Forall_forall in Hall. destruct (Hall _ E1) as [Hl2 Hrows].
  destruct (nth_error slice (Z.to_nat j)) as [row|] eqn:E2.
  2:{ apply nth_error_None in E2. lia. }
  apply nth_error_In in E2.
  rewrite Forall_forall in Hrows. specialize (Hrows _ E2).
  destruct (nth_error row (Z.to_nat k)) as [b|] eqn:E3.
  2:{ apply nth_error_None in E3. lia. }
  now exists b.
Qed.

Lemma getBlock_shaped (w : World.World) (i j k : Z) :
  World.shaped w -> exists ob, World.getBlock w i j k = Ok ob.
Proof.
  intros Hw. unfold World.getBlock.
  destruct (World.inBounds w i j k) eqn:E; [|now exists None].
  destruct (index3_shaped w i j k Hw E) as [b ->]. now exists (Some b).
Qed.

Lemma keep_occupied (w : World.World) (i j k : Z) :
  BroadSpec.keep w (i, (j, k)) = true <-> BroadSpec.occupied w i j k.
Proof.
  unfold BroadSpec.keep, BroadSpec.occupied, World.getBlock.
  destruct (World.inBounds w i j k).
  - destruct (World.index3 (World.data w) i j k) as [[b|]| |]; split;
      try discriminate;
      try (intros [_ (b' & E & _)]; discriminate).
    + intros H. split; [reflexivity|]. exists b. split; [reflexivity|].
      apply negb_true_iff, Z.eqb_neq in H. exact H.
    + intros [_ (b' & E & Hb)]. inversion E; subst.
      now apply negb_true_iff, Z.eqb_neq.
  - split; [discriminate|]. now intros [H _].
Qed.

Lemma scanCell_shaped (w : World.World) (i j k : Z) st :
  World.shaped w ->
  scanCell w i j k st =
  Ok (BroadSpec.push st
        (map BroadSpec.pointOf (filter (BroadSpec.keep w) [(i, (j, k))]))).
Proof.
  intros Hw. unfold scanCell. cbn [filter]. unfold BroadSpec.keep.
  destruct (getBlock_shaped w i j k Hw) as [ob ->]. cbn [bind].
  destruct ob as [b|]; [|now rewrite push_nil].
  destruct (negb (World.id b =? blocks.empty_id)%Z); [reflexivity|].
  now rewrite push_nil.
Qed.

Lemma scan_z (w : World.World) (i j : Z) (lk : list Z) :
  World.shaped w -> forall st,
  forEach lk (fun k => scanCell w i j k) st =
  Ok (BroadSpec.push st
        (map BroadSpec.pointOf
             (filter (BroadSpec.keep w) (map (pair i) (map (pair j) lk))))).
Proof.
  intros Hw. induction lk as [|k lk IH]; intros st; cbn [forEach map].
  - cbn. now rewrite push_nil.
  - rewrite scanCell_shaped by assumption. cbn [bind]. rewrite IH, push_push.
    now rewrite <- map_app, <- filter_app.
Qed.

Lemma scan_y (w : World.World) (i : Z) (lj lk : list Z) :
  World.shaped w -> forall st,
  forEach lj (fun j => forEach lk (fun k => scanCell w i j k)) st =
  Ok (BroadSpec.push st
        (map BroadSpec.pointOf
             (filter (BroadSpec.keep w) (map (pair i) (list_prod lj lk))))).
Proof.
  intros Hw. induction lj as [|j lj IH]; intros st; cbn [forEach list_prod].
  - cbn. now rewrite push_nil.
  - rewrite scan_z by assumption. cbn [bind]. rewrite IH, push_push.
    now rewrite <- map_app, <- filter_app, <- map_app.
Qed.

Lemma scan_x (w : World.World) (li lj lk : list Z) :
  World.shaped w -> forall st,
  forEach li (fun i => forEach lj (fun j => forEach lk (fun k => scanCell w i j k))) st =
  Ok (BroadSpec.push st
        (map BroadSpec.pointOf
             (filter (BroadSpec.keep w) (list_prod li (list_prod lj lk))))).
Proof.
  intros Hw. induction li as [|i li IH]; intros st; cbn [forEach list_prod].
  - cbn. now rewrite push_nil.
  - rewrite scan_y by assumption. cbn [bind]. rewrite IH, push_push.
    now rewrite <- map_app, <- filter_app.
Qed.

(** What [broadPhase] returns on a shaped grid, in one equation. *)
Lemma broadPhase_eq (ph : Physics) (a : Player.Player) (w : World.World) :
  World.shaped w ->
  broadPhase ph a w =
  Ok (BroadSpec.push ([], ph)
        (map BroadSpec.pointOf (filter (BroadSpec.keep w) (BroadSpec.cells a)))).
Proof.
  intros Hw. unfold broadPhase, forRange, Math.floor, Math.ceil.
  cbv zeta. now rewrite scan_x.
Qed.

Lemma pointOf_inj c c' : BroadSpec.pointOf c = BroadSpec.pointOf c' -> c = c'.
Proof.
  destruct c as [i [j k]], c' as [i' [j' k']]. cbn. intros E.
  inversion E as [[E1 E2 E3]].
  apply eq_IZR in E1, E2, E3. now subst.
Qed.

Lemma in_cells (a : Player.Player) (i j k : Z) :
  In (i, (j, k)) (BroadSpec.cells a) <-> BroadSpec.inExtents a i j k.
Proof.
  unfold BroadSpec.cells, BroadSpec.inExtents.
  now rewrite !in_prod_iff, !in_zrange.
Qed.

End BroadPhase.

(** ** The shape of the grid *)

Section GridShape.

Lemma length_set_nth {A : Type} (i : nat) (v : A) (l : list A) :
  List.length (World.set_nth i v l) = List.length l.
Proof.
  revert i. induction l as [|a l IH]; intros [|i]; cbn; auto.
Qed.

Lemma Forall_set_nth {A : Type} (P : A -> Prop) (i : nat) (v : A) (l : list A) :
  P v -> Forall P l -> Forall P (World.set_nth i v l).
Proof.
  intros Hv Hl. revert i. induction Hl as [|a l Ha Hl IH]; intros [|i]; cbn;
    constructor; auto.
Qed.

Lemma initializeTerrain_shaped (w : World.World) :
  World.shaped (World.initializeTerrain w).
Proof.
  unfold World.shaped, World.initializeTerrain; cbn [World.data World.size].
  split; [apply repeat_length|].
  apply Forall_forall. intros slice Hs. apply repeat_spec in Hs. subst slice.
  split; [apply repeat_length|].
  apply Forall_forall. intros row Hr. apply repeat_spec in Hr. subst row.
  apply repeat_length.
Qed.

Lemma setBlockId_shaped (w : World.World) (i j k id' : Z) (w' : World.World) :
  World.shaped w -> World.setBlockId w i j k id' = Ok w' -> World.shaped w'.
Proof.
  intros [Hlen Hall] E. unfold World.setBlockId in E.
  destruct (World.inBounds w i j k); [|now inversion E; subst].
  destruct (nth_error (World.data w) (Z.to_nat i)) as [slice|] eqn:E1;
    [|discriminate].
  destruct (nth_error slice (Z.to_nat j)) as [row|] eqn:E2; [|discriminate].
  destruct (nth_error row (Z.to_nat k)) as [b|] eqn:E3; [|discriminate].
  inversion E; subst w'; clear E.
  apply nth_error_In in E1, E2.
  rewrite Forall_forall in Hall. destruct (Hall _ E1) as [Hl2 Hrows].
  unfold World.shaped; cbn [World.data World.size].
  split; [now rewrite length_set_nth|].
  apply Forall_set_nth; [|now apply Forall_forall].
  split; [now rewrite length_set_nth|].
  apply Forall_set_nth; [|assumption].
  rewrite length_set_nth. rewrite Forall_forall in Hrows. now apply Hrows.
Qed.

End GridShape.

Section BroadPhaseClaims.
Import Physics.

(** C4.  On a grid whose [data] has the shape of its [size], [broadPhase]
    returns, without repetition, exactly the integer cells [(i,j,k)] with
    [floor (position.x - radius) <= i <= ceil (position.x + radius)],
    [floor (position.y - height) <= j <= ceil position.y],
    [floor (position.z - radius) <= k <= ceil (position.z + radius)] that
    lie within the grid bounds and hold a non-empty block id.  A cell outside
    the grid bounds is looked up as empty ([null], no error) and is never a
    candidate. *)
Theorem broadPhase_cells (ph : Physics) (a : Player.Player) (w : World.World) :
  World.shaped w ->
  exists candidates ph',
    broadPhase ph a w = Ok (candidates, ph') /\
    NoDup candidates /\
    (forall p, In p candidates <->
       exists i j k, p = mkPoint3D (IZR i) (IZR j) (IZR k) /\
                     BroadSpec.inExtents a i j k /\ BroadSpec.occupied w i j k) /\
    (forall i j k, World.inBounds w i j k = false ->
       World.getBlock w i j k = Ok None /\
       ~ In (mkPoint3D (IZR i) (IZR j) (IZR k)) candidates).
Proof.
  intros Hw. rewrite (broadPhase_eq ph a w Hw).
  unfold BroadSpec.push; cbn [fst snd app].
  eexists _, _. split; [reflexivity|].
  assert (Hmem : forall p,
    In p (map BroadSpec.pointOf (filter (BroadSpec.keep w) (BroadSpec.cells a))) <->
    exists i j k, p = mkPoint3D (IZR i) (IZR j) (IZR k) /\
                  BroadSpec.inExtents a i j k /\ BroadSpec.occupied w i j k).
  { intros p. rewrite in_map_iff. split.
    - intros ([i [j k]] & <- & Hc). apply filter_In in Hc as [Hc Hk].
      exists i, j, k. split; [reflexivity|]. split.
      + now apply in_cells.
      + now apply keep_occupied.
    - intros (i & j & k & -> & He & Ho). exists (i, (j, k)).
      split; [reflexivity|]. apply filter_In. split.
      + now apply in_cells.
      + now apply keep_occupied. }
  split; [|split; [exact Hmem|]].
  - apply NoDup_map_NoDup_ForallPairs.
    + intros c c' _ _. apply pointOf_inj.
    + apply NoDup_filter. unfold BroadSpec.cells.
      repeat apply NoDup_list_prod; apply NoDup_zrange.
  - intros i j k Hout. split.
    + unfold World.getBlock. now rewrite Hout.
    + intros Hin. apply Hmem in Hin as (i' & j' & k' & E & _ & [Hb _]).
      inversion E as [[E1 E2 E3]]. apply eq_IZR in E1, E2, E3. subst.
      congruence.
Qed.

(** The scene is what the world code builds: an initialised 8 by 8 terrain
    with one block set. *)
Example world_built :
  World.setBlockId
    (World.initializeTerrain (World.mkWorld (World.mkWorldSize 8 8) []))
    0 1 0 blocks.grass_id
  = Ok Scenario.world.
Proof. reflexivity. Qed.

Lemma world_shaped : World.shaped Scenario.world.
Proof.
  exact (setBlockId_shaped _ 0 1 0 blocks.grass_id _
           (initializeTerrain_shaped _) world_built).
Qed.

(** C4 at the scenario. *)
Lemma broadPhase_cells_witness :
  World.shaped Scenario.world /\
  exists candidates ph',
    broadPhase new_Physics Scenario.actor Scenario.world = Ok (candidates, ph') /\
    NoDup candidates /\
    (forall p, In p candidates <->
       exists i j k, p = mkPoint3D (IZR i) (IZR j) (IZR k) /\
                     BroadSpec.inExtents Scenario.actor i j k /\
                     BroadSpec.occupied Scenario.world i j k) /\
    (forall i j k, World.inBounds Scenario.world i j k = false ->
       World.getBlock Scenario.world i j k = Ok None /\
       ~ In (mkPoint3D (IZR i) (IZR j) (IZR k)) candidates).
Proof.
  split; [exact world_shaped|].
  exact (broadPhase_cells new_Physics Scenario.actor Scenario.world world_shaped).
Defined.

End BroadPhaseClaims.

(** ** A detection pass *)

Section DetectionPass.
Import Physics.

Lemma resolveCollisions_onGround (cols : list BlockCollision) (p : Player.Player) :
  Player.onGround (resolveCollisions cols p) = Player.onGround p.
Proof.
  unfold resolveCollisions.
  generalize (Array_sort compareOverlap cols) as l. intros l. revert p.
  induction l as [|c l IH]; intros p; cbn [fold_left]; [reflexivity|].
  now rewrite IH.
Qed.

(** C8.  A detection pass on a shaped grid first resets [onGround] to
    [false]; when it has completed, [onGround] is [true] if and only if one of
    the collision records emitted by the narrow phase of this pass selected
    the vertical axis ([overlapY < overlapXZ] for its cell).  The value of
    [onGround] before the pass plays no part. *)
Theorem detectCollisions_grounded (ph : Physics) (a : Player.Player)
        (w : World.World) :
  World.shaped w ->
  let a0 := Player.set_onGround a false in
  exists candidates ph1 collisions ph2 a2 ph' a',
    Player.onGround a0 = false /\
    broadPhase (set_helpers ph []) a0 w = Ok (candidates, ph1) /\
    narrowPhase ph1 candidates a0 = (collisions, ph2, a2) /\
    detectCollisions ph a w = Ok (ph', a') /\
    (Player.onGround a' = true <->
     exists r, In r collisions /\
       NarrowSpec.overlapY (block r) a0 < NarrowSpec.overlapXZ (block r) a0).
Proof.
  intros Hw a0.
  destruct (broadPhase (set_helpers ph []) a0 w) as [[candidates ph1]| |] eqn:Eb;
    try (rewrite (broadPhase_eq _ _ _ Hw) in Eb; discriminate).
  destruct (narrowPhase ph1 candidates a0) as [[collisions ph2] a2] eqn:En.
  exists candidates, ph1, collisions, ph2, a2.
  assert (Hg : Player.onGround a2 = true <->
               exists r, In r collisions /\
                 NarrowSpec.overlapY (block r) a0 < NarrowSpec.overlapXZ (block r) a0).
  { rewrite narrowPhase_eq in En. inversion En as [[Hc Hp Ha]]. clear En.
    cbn [Player.onGround Player.set_onGround orb]. rewrite existsb_exists. split.
    - intros (c & Hin & Hcv). apply andb_true_iff in Hcv as [Hc' Hv].
      exists (NarrowSpec.record c a0). split.
      + apply in_map_iff. exists c. split; [reflexivity|].
        apply filter_In. now split.
      + rewrite record_block. unfold NarrowSpec.verticalb in Hv.
        destruct (Rlt_dec _ _); [assumption|discriminate].
    - intros (r & Hr & Hv). apply in_map_iff in Hr as (c & <- & Hc').
      apply filter_In in Hc' as [Hin Hc']. rewrite record_block in Hv.
      exists c. split; [assumption|]. apply andb_true_iff. split; [assumption|].
      unfold NarrowSpec.verticalb. destruct (Rlt_dec _ _); [reflexivity|contradiction]. }
  unfold detectCollisions. fold a0. rewrite Eb. cbn [bind]. rewrite En.
  destruct (0 <? List.length collisions)%nat.
  - eexists _, _. split; [reflexivity|]. split; [reflexivity|].
    split; [reflexivity|]. split; [reflexivity|].
    now rewrite resolveCollisions_onGround.
  - eexists _, _. split; [reflexivity|]. split; [reflexivity|].
    split; [reflexivity|]. split; [reflexivity|]. exact Hg.
Qed.

(** C8 at the scenario. *)
Lemma detectCollisions_grounded_witness :
  World.shaped Scenario.world /\
  let a0 := Player.set_onGround Scenario.actor false in
  exists candidates ph1 collisions ph2 a2 ph' a',
    Player.onGround a0 = false /\
    broadPhase (set_helpers new_Physics []) a0 Scenario.world
      = Ok (candidates, ph1) /\
    narrowPhase ph1 candidates a0 = (collisions, ph2, a2) /\
    detectCollisions new_Physics Scenario.actor Scenario.world = Ok (ph', a') /\
    (Player.onGround a' = true <->
     exists r, In r collisions /\
       NarrowSpec.overlapY (block r) a0 < NarrowSpec.overlapXZ (block r) a0).
Proof.
  split; [exact world_shaped|].
  exact (detectCollisions_grounded new_Physics Scenario.actor Scenario.world
           world_shaped).
Defined.

End DetectionPass.

Section PassEquations.
Import Physics Steps.

Lemma detectCollisions_eq (ph : Physics) (a : Player.Player) (w : World.World) :
  World.shaped w ->
  detectCollisions ph a w = Ok (set_helpers ph (passHelpers a w), passActor a w).
Proof.
  intros Hw. unfold detectCollisions.
  rewrite (broadPhase_eq _ _ _ Hw). cbn [bind].
  unfold BroadSpec.push. cbn [fst snd app].
  rewrite narrowPhase_eq. cbn [Player.onGround Player.set_onGround orb].
  unfold passHelpers, passActor. cbn zeta.
  cbn [Player.set_onGround helpers set_helpers app
       gravity simulationRate timestep accumulator].
  destruct (0 <? _)%nat; reflexivity.
Qed.

Lemma fixedStep_eq (ph : Physics) (a : Player.Player) (w : World.World) :
  World.shaped w -> fixedStep ph a w = Ok (pureStep w (ph, a)).
Proof.
  intros Hw. unfold fixedStep. rewrite (detectCollisions_eq _ _ _ Hw).
  reflexivity.
Qed.

Lemma steps_eq (w : World.World) (n : nat) :
  World.shaped w -> forall ph a,
  steps n ph a w = Ok (Nat.iter n (pureStep w) (ph, a)).
Proof.
  intros Hw. induction n as [|n IH]; intros ph a; [reflexivity|].
  cbn [steps]. rewrite (fixedStep_eq _ _ _ Hw). cbn [bind].
  destruct (pureStep w (ph, a)) as [ph1 a1] eqn:E.
  rewrite IH, Nat.iter_succ_r. now rewrite E.
Qed.

End PassEquations.

(** ** The scenario, step after step *)

Section ScenarioSteps.
Import Physics Steps.

Lemma placed_set_onGround a b :
  Scenario.placed a -> Scenario.placed (Player.set_onGround a b).
Proof. intros H; exact H. Qed.

Lemma scene_cells a :
  Scenario.placed a ->
  filter (BroadSpec.keep Scenario.world) (BroadSpec.cells a) = [(0, (1, 0))]%Z.
Proof.
  intros (Hpos & Hrad & Hh). unfold BroadSpec.cells.
  rewrite Hpos, Hrad, Hh. cbn [x y z].
  rewrite (Zfloor_eq 0 (0.5 - 0.4)) by lra.
  rewrite (Zceil_eq 1 (0.5 + 0.4)) by lra.
  rewrite (Zfloor_eq 0 (2 - 1.8)) by lra.
  rewrite (Zceil_eq 2 2) by lra.
  vm_compute. reflexivity.
Qed.

Lemma resolveOne_zero_normal (p : Player.Player) (c : BlockCollision) :
  normal c = mkVector3 0 0 0 -> resolveOne p c = p.
Proof.
  intros Hn. unfold resolveOne. rewrite Hn.
  destruct p as [ms inp [vx vy vz] [qx qy qz] cr lk r h g].
  unfold Player.applyWorldDeltaVelocity, Player.worldVelocity,
    Player.set_velocity, Player.set_position, add, negate, multiplyScalar, dot.
  cbn [Player.maxSpeed Player.input Player.velocity Player.position
       Player.cameraRight Player.isLocked Player.radius Player.height
       Player.onGround x y z].
  f_equal; f_equal; ring.
Qed.

(** In the scene the pass finds the one cell, takes the horizontal branch
    and leaves the actor where it is, off the ground. *)
Lemma scene_passActor a :
  Scenario.placed a ->
  passActor a Scenario.world = Player.set_onGround a false.
Proof.
  intros H. pose proof (placed_set_onGround a false H) as H0.
  unfold passActor. cbn zeta. rewrite (scene_cells _ H0).
  change (map BroadSpec.pointOf [(0, (1, 0))]%Z) with [Scenario.cell].
  cbn [filter existsb]. rewrite (scene_containedb _ H0), (scene_verticalb _ H0).
  cbn [map List.length Nat.ltb Nat.leb andb orb].
  unfold resolveCollisions. cbn [Array_sort insert fold_left].
  rewrite resolveOne_zero_normal.
  - reflexivity.
  - now rewrite (scene_record _ H0).
Qed.

Lemma idle_applyInputs ph a :
  Scenario.idle a -> Scenario.idle (Player.applyInputs (fall ph a) (timestep ph)).
Proof.
  intros [(Hpos & Hrad & Hh) Hmove]. unfold Player.applyInputs, fall.
  cbn [Player.isLocked Player.set_velocity].
  destruct (Player.isLocked a) eqn:El.
  - destruct Hmove as [Hl|[Hx Hz]]; [discriminate|].
    unfold Player.moveForward, Player.moveRight, Player.set_position,
      Player.set_velocity, addScaledVector, crossVectors, up.
    cbn [Player.maxSpeed Player.input Player.velocity Player.position
         Player.cameraRight Player.isLocked Player.radius Player.height
         Player.onGround x y z].
    rewrite Hpos, Hx, Hz. cbn [x y z].
    split; [repeat split; cbn; try assumption; f_equal; ring|].
    right. cbn. now split.
  - split; [repeat split; assumption|]. now left.
Qed.

Lemma idle_pureStep ph a :
  Scenario.idle a ->
  Scenario.idle (snd (pureStep Scenario.world (ph, a))) /\
  Player.onGround (snd (pureStep Scenario.world (ph, a))) = false.
Proof.
  intros H. unfold pureStep. cbn [fst snd].
  pose proof (idle_applyInputs ph a H) as [Hp Hm].
  rewrite (scene_passActor _ Hp). split; [|reflexivity].
  split; [exact Hp|exact Hm].
Qed.

(** Every further step leaves an idle actor idle and off the ground. *)
Lemma idle_steps (n : nat) : forall ph a,
  Scenario.idle a ->
  Scenario.idle (snd (Nat.iter (S n) (pureStep Scenario.world) (ph, a))) /\
  Player.onGround (snd (Nat.iter (S n) (pureStep Scenario.world) (ph, a))) = false.
Proof.
  induction n as [|n IH]; intros ph a H.
  - cbn [Nat.iter nat_rect]. now apply idle_pureStep.
  - destruct (IH ph a H) as [Hi _].
    change (Nat.iter (S (S n)) (pureStep Scenario.world) (ph, a))
      with (pureStep Scenario.world
              (Nat.iter (S n) (pureStep Scenario.world) (ph, a))).
    destruct (Nat.iter (S n) (pureStep Scenario.world) (ph, a)) as [ph1 a1].
    now apply idle_pureStep.
Qed.

Lemma actor_idle : Scenario.idle Scenario.actor.
Proof. split; [exact actor_placed|now left]. Qed.

(** C9, as the code has it.  In the scenario (radius 0.4, height 1.8, at
    (0.5, 2.0, 0.5), one occupied voxel at cell (0,1,0)), with no input moving
    the actor, every fixed step completes, and after any number of steps
    (at least one) [position.y] is still 2.0 and [onGround] is [false]: the
    contact has [overlapXZ = 0.4], not more than [overlapY = 0.9], so the
    horizontal axis is selected. *)
Theorem scenario_stays_put (ph : Physics) (a : Player.Player) (n : nat) :
  Scenario.idle a ->
  exists ph' a',
    steps (S n) ph a Scenario.world = Ok (ph', a') /\
    y (Player.position a') = 2 /\
    Player.onGround a' = false.
Proof.
  intros H. rewrite (steps_eq _ _ world_shaped).
  destruct (idle_steps n ph a H) as [[(Hpos & _) _] Hg].
  destruct (Nat.iter (S n) (pureStep Scenario.world) (ph, a)) as [ph' a'].
  exists ph', a'. cbn [snd] in *. split; [reflexivity|].
  split; [now rewrite Hpos|exact Hg].
Qed.

(** C9, as the code has it, for the scenario's own actor after one step. *)
Lemma scenario_stays_put_witness :
  Scenario.idle Scenario.actor /\
  exists ph' a',
    steps 1 new_Physics Scenario.actor Scenario.world = Ok (ph', a') /\
    y (Player.position a') = 2 /\
    Player.onGround a' = false.
Proof.
  split; [exact actor_idle|].
  exact (scenario_stays_put new_Physics Scenario.actor 0 actor_idle).
Defined.

(** C9, as the claim has it, fails: there is no number of steps from which
    on [position.y] is [1.0 + height] with [onGround] true.  After every
    step [position.y] is 2.0, and [1.0 + 1.8] is not 2.0. *)
Lemma scenario_never_rests :
  ~ exists N : nat, forall n : nat, (N <= n)%nat ->
      exists ph' a',
        steps n new_Physics Scenario.actor Scenario.world = Ok (ph', a') /\
        y (Player.position a') = 1 + Player.height Scenario.actor /\
        Player.onGround a' = true.
Proof.
  intros [N HN].
  destruct (HN (S N) (Nat.le_succ_diag_r N)) as (ph' & a' & Hs & Hy & Hg).
  rewrite (steps_eq _ _ world_shaped) in Hs.
  destruct (idle_steps N new_Physics Scenario.actor actor_idle) as [_ Hg'].
  remember (Nat.iter (S N) (pureStep Scenario.world)
              (new_Physics, Scenario.actor)) as s eqn:Es.
  clear Es. injection Hs as ->. cbn [snd] in Hg'. congruence.
Qed.

End ScenarioSteps.

(** ** The integrator *)

Section Integrator.
Import Physics Steps.

Lemma pureStep_clock (w : World.World) (n : nat) : forall s,
  timestep (fst (Nat.iter n (pureStep w) s)) = timestep (fst s) /\
  accumulator (fst (Nat.iter n (pureStep w) s))
  = accumulator (fst s) - INR n * timestep (fst s).
Proof.
  induction n as [|n IH]; intros s.
  - cbn. split; [reflexivity|lra].
  - destruct (IH s) as [Ht Ha].
    change (Nat.iter (S n) (pureStep w) s)
      with (pureStep w (Nat.iter n (pureStep w) s)).
    unfold pureStep at 1 3.
    cbn [fst timestep accumulator set_accumulator set_helpers].
    rewrite Ha, Ht, S_INR. split; [reflexivity|lra].
Qed.

End Integrator.

Section IntegratorClaims.
Import Physics Steps.

(** C10.  A call [update dt] with [accumulator + dt < timestep] runs no
    step, whatever the fuel and the grid: it returns with the actor and every
    field of the integrator as they were, but for the accumulator, which is
    [accumulator + dt]. *)
Theorem update_below_timestep (fuel : nat) (dt : R) (ph : Physics)
        (a : Player.Player) (w : World.World) :
  accumulator ph + dt < timestep ph ->
  update fuel dt ph a w = Ok (set_accumulator ph (accumulator ph + dt), a).
Proof.
  intros H. unfold update.
  destruct fuel; cbn [while_loop accumulator timestep set_accumulator];
    now rewrite (proj2 (geb_false _ _) H).
Qed.

End IntegratorClaims.

Section IntegratorWitnesses.
Import Physics Steps.

(** C10 on a fresh integrator: a frame of 0.001 s is less than a timestep. *)
Lemma update_below_timestep_witness :
  accumulator new_Physics + 0.001 < timestep new_Physics /\
  update 0 0.001 new_Physics Scenario.actor Scenario.world
  = Ok (set_accumulator new_Physics (accumulator new_Physics + 0.001),
        Scenario.actor).
Proof.
  assert (H : accumulator new_Physics + 0.001 < timestep new_Physics)
    by (cbn; lra).
  split; [exact H|].
  exact (update_below_timestep 0 0.001 new_Physics Scenario.actor
           Scenario.world H).
Defined.

End IntegratorWitnesses.

(** * Further properties of the code *)

(** ** world.ts: the grid as a store *)

Section GridStore.

Lemma nth_error_set_nth_same {A : Type} (i : nat) (v : A) (l : list A) :
  (i < List.length l)%nat -> nth_error (World.set_nth i v l) i = Some v.
Proof.
  revert i. induction l as [|a l IH]; intros [|i] H; cbn in *; try lia; auto.
  apply IH. lia.
Qed.

Lemma nth_error_set_nth_other {A : Type} (i j : nat) (v : A) (l : list A) :
  i <> j -> nth_error (World.set_nth i v l) j = nth_error l j.
Proof.
  revert i j. induction l as [|a l IH]; intros [|i] [|j] H; cbn;
    try reflexivity; try contradiction.
  apply IH. congruence.
Qed.

Lemma inBounds_spec (w : World.World) (i j k : Z) :
  World.inBounds w i j k = true <->
  (0 <= i < World.width (World.size w))%Z /\
  (0 <= j < World.height (World.size w))%Z /\
  (0 <= k < World.width (World.size w))%Z.
Proof.
  unfold World.inBounds. rewrite !andb_true_iff, !Z.geb_le, !Z.ltb_lt. lia.
Qed.

(** Writing one cell of the nested array and reading any cell back. *)
Lemma index3_set (d : list (list (list World.BlockData)))
      (i j k : Z) (slice : list (list World.BlockData))
      (row : list World.BlockData) (b v : World.BlockData) (i' j' k' : Z) :
  (0 <= i)%Z -> (0 <= j)%Z -> (0 <= k)%Z ->
  (0 <= i')%Z -> (0 <= j')%Z -> (0 <= k')%Z ->
  nth_error d (Z.to_nat i) = Some slice ->
  nth_error slice (Z.to_nat j) = Some row ->
  nth_error row (Z.to_nat k) = Some b ->
  World.index3
    (World.set_nth (Z.to_nat i)
       (World.set_nth (Z.to_nat j) (World.set_nth (Z.to_nat k) v row) slice) d)
    i' j' k'
  = if ((i' =? i) && (j' =? j) && (k' =? k))%Z then Ok (Some v)
    else World.index3 d i' j' k'.
Proof.
  intros Hi Hj Hk Hi' Hj' Hk' E1 E2 E3. unfold World.index3.
  assert (L1 : (Z.to_nat i < List.length d)%nat)
    by (apply nth_error_Some; congruence).
  assert (L2 : (Z.to_nat j < List.length slice)%nat)
    by (apply nth_error_Some; congruence).
  assert (L3 : (Z.to_nat k < List.length row)%nat)
    by (apply nth_error_Some; congruence).
  destruct (Z.eqb_spec i' i) as [->|Ni]; cbn [andb].
  - rewrite nth_error_set_nth_same, E1 by assumption.
    destruct (Z.eqb_spec j' j) as [->|Nj]; cbn [andb].
    + rewrite nth_error_set_nth_same, E2 by assumption.
      destruct (Z.eqb_spec k' k) as [->|Nk].
      * now rewrite nth_error_set_nth_same.
      * rewrite nth_error_set_nth_other by lia. reflexivity.
    + rewrite nth_error_set_nth_other by lia. reflexivity.
  - rewrite nth_error_set_nth_other by lia. reflexivity.
Qed.

End GridStore.

Section GridStoreLaws.

Lemma setBlockId_store (w : World.World) (i j k id' : Z) :
  World.shaped w ->
  exists w',
    World.setBlockId w i j k id' = Ok w' /\
    World.size w' = World.size w /\
    World.shaped w' /\
    forall i' j' k',
      World.getBlock w' i' j' k' =
      if ((i' =? i) && (j' =? j) && (k' =? k))%Z then
        b <- World.getBlock w i j k ;;
        Ok (option_map (fun b => World.mkBlockData id' (World.instanceId b)) b)
      else World.getBlock w i' j' k'.
Proof.
  intros Hw.
  destruct (World.setBlockId w i j k id') as [w'| |] eqn:E.
  2,3: unfold World.setBlockId in E;
       destruct (World.inBounds w i j k) eqn:Hb; [|discriminate];
       destruct (index3_shaped w i j k Hw Hb) as [b Hb'];
       unfold World.index3 in Hb';
       destruct (nth_error (World.data w) (Z.to_nat i)); [|discriminate];
       destruct (nth_error l (Z.to_nat j)); [|discriminate];
       destruct (nth_error l0 (Z.to_nat k)); discriminate.
  exists w'. split; [reflexivity|].
  pose proof (setBlockId_shaped w i j k id' w' Hw E) as Hw'.
  unfold World.setBlockId in E. unfold World.getBlock at 2.
  destruct (World.inBounds w i j k) eqn:Hb.
  - destruct (nth_error (World.data w) (Z.to_nat i)) as [slice|] eqn:E1;
      [|discriminate].
    destruct (nth_error slice (Z.to_nat j)) as [row|] eqn:E2; [|discriminate].
    destruct (nth_error row (Z.to_nat k)) as [b|] eqn:E3; [|discriminate].
    injection E as <-. cbn [World.size].
    split; [reflexivity|]. split; [exact Hw'|].
    intros i' j' k'. unfold World.index3 at 1. rewrite E1, E2, E3. cbn [bind option_map].
    unfold World.getBlock.
    change (World.inBounds (World.mkWorld (World.size w) _) i' j' k')
      with (World.inBounds w i' j' k').
    apply inBounds_spec in Hb.
    destruct (World.inBounds w i' j' k') eqn:Hb'.
    + apply inBounds_spec in Hb'. cbn [World.data].
      eapply index3_set; first [eassumption | lia].
    + destruct (Z.eqb_spec i' i), (Z.eqb_spec j' j), (Z.eqb_spec k' k);
        cbn [andb]; try reflexivity.
      subst. apply inBounds_spec in Hb. congruence.
  - injection E as <-. split; [reflexivity|]. split; [exact Hw|].
    intros i' j' k'. cbn [bind option_map].
    destruct (Z.eqb_spec i' i), (Z.eqb_spec j' j), (Z.eqb_spec k' k);
      cbn [andb]; try reflexivity.
    subst. unfold World.getBlock. now rewrite Hb.
Qed.

(** Reading any cell after [setBlockId].  On a shaped grid the call
    returns; the grid keeps its size and shape; the written cell, when within
    bounds, holds the new id and its old instance id; every other cell, and
    every cell when the write is out of bounds, reads as before. *)
Theorem setBlockId_getBlock (w : World.World) (i j k id' : Z) :
  World.shaped w ->
  exists w',
    World.setBlockId w i j k id' = Ok w' /\
    World.size w' = World.size w /\
    World.shaped w' /\
    forall i' j' k',
      World.getBlock w' i' j' k' =
      if ((i' =? i) && (j' =? j) && (k' =? k))%Z then
        b <- World.getBlock w i j k ;;
        Ok (option_map (fun b => World.mkBlockData id' (World.instanceId b)) b)
      else World.getBlock w i' j' k'.
Proof. exact (setBlockId_store w i j k id'). Qed.

Lemma setBlockInstanceId_shaped (w : World.World) (i j k n : Z) (w' : World.World) :
  World.shaped w -> World.setBlockInstanceId w i j k n = Ok w' -> World.shaped w'.
Proof.
  intros [Hlen Hall] E. unfold World.setBlockInstanceId in E.
  destruct (World.inBounds w i j k); [|now inversion E; subst].
  destruct (nth_error (World.data w) (Z.to_nat i)) as [slice|] eqn:E1;
    [|discriminate].
  destruct (nth_error slice (Z.to_nat j)) as [row|] eqn:E2; [|discriminate].
  destruct (nth_error row (Z.to_nat k)) as [b|] eqn:E3; [|discriminate].
  inversion E; subst w'; clear E.
  apply nth_error_In in E1, E2.
  rewrite Forall_forall in Hall. destruct (Hall _ E1) as [Hl2 Hrows].
  unfold World.shaped; cbn [World.data World.size].
  split; [now rewrite length_set_nth|].
  apply Forall_set_nth; [|now apply Forall_forall].
  split; [now rewrite length_set_nth|].
  apply Forall_set_nth; [|assumption].
  rewrite length_set_nth. rewrite Forall_forall in Hrows. now apply Hrows.
Qed.

Lemma setBlockInstanceId_store (w : World.World) (i j k n : Z) :
  World.shaped w ->
  exists w',
    World.setBlockInstanceId w i j k n = Ok w' /\
    World.size w' = World.size w /\
    World.shaped w' /\
    forall i' j' k',
      World.getBlock w' i' j' k' =
      if ((i' =? i) && (j' =? j) && (k' =? k))%Z then
        b <- World.getBlock w i j k ;;
        Ok (option_map (fun b => World.mkBlockData (World.id b) n) b)
      else World.getBlock w i' j' k'.
Proof.
  intros Hw.
  destruct (World.setBlockInstanceId w i j k n) as [w'| |] eqn:E.
  2,3: unfold World.setBlockInstanceId in E;
       destruct (World.inBounds w i j k) eqn:Hb; [|discriminate];
       destruct (index3_shaped w i j k Hw Hb) as [b Hb'];
       unfold World.index3 in Hb';
       destruct (nth_error (World.data w) (Z.to_nat i)); [|discriminate];
       destruct (nth_error l (Z.to_nat j)); [|discriminate];
       destruct (nth_error l0 (Z.to_nat k)); discriminate.
  exists w'. split; [reflexivity|].
  pose proof (setBlockInstanceId_shaped w i j k n w' Hw E) as Hw'.
  unfold World.setBlockInstanceId in E. unfold World.getBlock at 2.
  destruct (World.inBounds w i j k) eqn:Hb.
  - destruct (nth_error (World.data w) (Z.to_nat i)) as [slice|] eqn:E1;
      [|discriminate].
    destruct (nth_error slice (Z.to_nat j)) as [row|] eqn:E2; [|discriminate].
    destruct (nth_error row (Z.to_nat k)) as [b|] eqn:E3; [|discriminate].
    injection E as <-. cbn [World.size].
    split; [reflexivity|]. split; [exact Hw'|].
    intros i' j' k'. unfold World.index3 at 1. rewrite E1, E2, E3. cbn [bind option_map].
    unfold World.getBlock.
    change (World.inBounds (World.mkWorld (World.size w) _) i' j' k')
      with (World.inBounds w i' j' k').
    apply inBounds_spec in Hb.
    destruct (World.inBounds w i' j' k') eqn:Hb'.
    + apply inBounds_spec in Hb'. cbn [World.data].
      eapply index3_set; first [eassumption | lia].
    + destruct (Z.eqb_spec i' i), (Z.eqb_spec j' j), (Z.eqb_spec k' k);
        cbn [andb]; try reflexivity.
      subst. apply inBounds_spec in Hb. congruence.
  - injection E as <-. split; [reflexivity|]. split; [exact Hw|].
    intros i' j' k'. cbn [bind option_map].
    destruct (Z.eqb_spec i' i), (Z.eqb_spec j' j), (Z.eqb_spec k' k);
      cbn [andb]; try reflexivity.
    subst. unfold World.getBlock. now rewrite Hb.
Qed.

(** Reading any cell after [setBlockInstanceId]: as for [setBlockId], with
    the written cell keeping its id and holding the new instance id. *)
Theorem setBlockInstanceId_getBlock (w : World.World) (i j k n : Z) :
  World.shaped w ->
  exists w',
    World.setBlockInstanceId w i j k n = Ok w' /\
    World.size w' = World.size w /\
    World.shaped w' /\
    forall i' j' k',
      World.getBlock w' i' j' k' =
      if ((i' =? i) && (j' =? j) && (k' =? k))%Z then
        b <- World.getBlock w i j k ;;
        Ok (option_map (fun b => World.mkBlockData (World.id b) n) b)
      else World.getBlock w i' j' k'.
Proof. exact (setBlockInstanceId_store w i j k n). Qed.

Lemma initializeTerrain_store (w : World.World) (i j k : Z) :
  World.getBlock (World.initializeTerrain w) i j k
  = Ok (if World.inBounds w i j k then Some World.emptyBlock else None).
Proof.
  unfold World.getBlock.
  change (World.inBounds (World.initializeTerrain w) i j k)
    with (World.inBounds w i j k).
  destruct (World.inBounds w i j k) eqn:Hb; [|reflexivity].
  apply inBounds_spec in Hb.
  unfold World.index3, World.initializeTerrain. cbn [World.data World.size].
  rewrite nth_error_repeat by lia.
  rewrite nth_error_repeat by lia.
  now rewrite nth_error_repeat by lia.
Qed.

(** After [initializeTerrain] every cell within bounds is a fresh empty
    block (id 0, instance id -1), whatever the size and whatever the grid
    held before; outside the bounds the lookup is [null]. *)
Theorem initializeTerrain_getBlock (w : World.World) (i j k : Z) :
  World.getBlock (World.initializeTerrain w) i j k
  = Ok (if World.inBounds w i j k then Some World.emptyBlock else None).
Proof. exact (initializeTerrain_store w i j k). Qed.

End GridStoreLaws.

(** ** world.ts: hidden blocks *)

Section Obscured.

Lemma idOrEmpty_shaped (w : World.World) (i j k : Z) :
  World.shaped w ->
  exists v, World.idOrEmpty w i j k = Ok v /\
            ((v =? blocks.empty_id)%Z = false <-> BroadSpec.occupied w i j k).
Proof.
  intros Hw. unfold World.idOrEmpty, BroadSpec.occupied, World.getBlock.
  destruct (World.inBounds w i j k) eqn:Hb.
  - destruct (index3_shaped w i j k Hw Hb) as [b ->]. cbn [bind].
    exists (World.id b). split; [reflexivity|]. rewrite Z.eqb_neq. split.
    + intros H. split; [reflexivity|]. now exists b.
    + intros [_ (b' & E & H)]. now inversion E; subst.
  - cbn [bind]. exists blocks.empty_id. split; [reflexivity|]. split.
    + rewrite Z.eqb_refl. discriminate.
    + intros [H _]. discriminate.
Qed.

Lemma isBlockObscured_shaped (w : World.World) (i j k : Z) :
  World.shaped w ->
  exists b,
    World.isBlockObscured w i j k = Ok b /\
    (b = true <->
     BroadSpec.occupied w i (j + 1) k /\ BroadSpec.occupied w i (j - 1) k /\
     BroadSpec.occupied w (i + 1) j k /\ BroadSpec.occupied w (i - 1) j k /\
     BroadSpec.occupied w i j (k + 1) /\ BroadSpec.occupied w i j (k - 1)).
Proof.
  intros Hw. unfold World.isBlockObscured.
  destruct (idOrEmpty_shaped w i (j + 1) k Hw) as (u & -> & Hu).
  destruct (idOrEmpty_shaped w i (j - 1) k Hw) as (d & -> & Hd).
  destruct (idOrEmpty_shaped w (i + 1) j k Hw) as (l & -> & Hl).
  destruct (idOrEmpty_shaped w (i - 1) j k Hw) as (r & -> & Hr).
  destruct (idOrEmpty_shaped w i j (k + 1) Hw) as (f & -> & Hf).
  destruct (idOrEmpty_shaped w i j (k - 1) Hw) as (a & -> & Ha).
  cbn [bind]. eexists. split; [reflexivity|].
  rewrite negb_true_iff, !orb_false_iff. tauto.
Qed.

(** On a shaped grid [isBlockObscured] returns, for any coordinates, and
    answers [true] exactly when each of the six neighbours lies within the
    bounds and holds a non-empty block. *)
Theorem isBlockObscured_iff (w : World.World) (i j k : Z) :
  World.shaped w ->
  exists b,
    World.isBlockObscured w i j k = Ok b /\
    (b = true <->
     BroadSpec.occupied w i (j + 1) k /\ BroadSpec.occupied w i (j - 1) k /\
     BroadSpec.occupied w (i + 1) j k /\ BroadSpec.occupied w (i - 1) j k /\
     BroadSpec.occupied w i j (k + 1) /\ BroadSpec.occupied w i j (k - 1)).
Proof. exact (isBlockObscured_shaped w i j k). Qed.

(** A cell on a face of the grid, having a neighbour outside the bounds, is
    never obscured. *)
Theorem isBlockObscured_boundary (w : World.World) (i j k : Z) :
  World.shaped w ->
  (i = 0 \/ j = 0 \/ k = 0 \/
   i = World.width (World.size w) - 1 \/
   j = World.height (World.size w) - 1 \/
   k = World.width (World.size w) - 1)%Z ->
  World.isBlockObscured w i j k = Ok false.
Proof.
  intros Hw Hface.
  destruct (isBlockObscured_shaped w i j k Hw) as (b & -> & Hb).
  destruct b; [|reflexivity]. exfalso.
  destruct (proj1 Hb eq_refl) as ([U _] & [D _] & [L _] & [R _] & [F _] & [B _]).
  apply inBounds_spec in U, D, L, R, F, B. lia.
Qed.

End Obscured.

(** ** rng.ts *)

Section RandomNumbers.
Import RNG.

Local Open Scope Z_scope.

Lemma ToInt32_range (n : Z) : -2147483648 <= ToInt32 n < 2147483648.
Proof. unfold ToInt32. pose proof (Z.mod_pos_bound (n + 2147483648) 4294967296). lia. Qed.

Lemma ToInt32_mod (n : Z) : ToInt32 n mod 4294967296 = n mod 4294967296.
Proof.
  unfold ToInt32. rewrite Zminus_mod_idemp_l. f_equal. lia.
Qed.

Lemma ToInt32_mod16 (n : Z) : ToInt32 n mod 65536 = n mod 65536.
Proof.
  pose proof (ToInt32_mod n) as H.
  apply (f_equal (fun v => v mod 65536)) in H.
  change 4294967296 with (65536 * 65536) in H.
  rewrite !Z.rem_mul_r in H by lia.
  rewrite !(Z.mul_comm 65536), !Z.mod_add in H by lia.
  now rewrite !Z.mod_mod in H by lia.
Qed.

Lemma and32_low16 (n : Z) : and32 n 65535 = n mod 65536.
Proof.
  unfold and32. change (ToInt32 65535) with (Z.ones 16).
  rewrite Z.land_ones by lia. apply ToInt32_mod16.
Qed.

Lemma shl32_16 (n : Z) : shl32 n 16 mod 4294967296 = (n mod 65536) * 65536.
Proof.
  unfold shl32. change (Z.land (ToUint32 16) 31) with 16.
  rewrite ToInt32_mod, Z.shiftl_mul_pow2 by lia.
  change (2 ^ 16) with 65536. change 4294967296 with (65536 * 65536).
  rewrite Zmult_mod_distr_r. f_equal. apply ToInt32_mod16.
Qed.

(** The number drawn, before the division: the low half of the new [m_z]
    above the low half of the new [m_w]. *)
Lemma random_bits (g : RNG) :
  shr32 (shl32 (m_z (snd (random g))) 16 + and32 (m_w (snd (random g))) 65535) 0
  = (m_z (snd (random g)) mod 65536) * 65536 + m_w (snd (random g)) mod 65536.
Proof.
  set (z := m_z (snd (random g))). set (w := m_w (snd (random g))).
  unfold shr32, ToUint32. change (Z.land (0 mod 4294967296) 31) with 0.
  rewrite Z.shiftr_0_r, and32_low16.
  rewrite Zplus_mod, shl32_16.
  pose proof (Z.mod_pos_bound z 65536). pose proof (Z.mod_pos_bound w 65536).
  rewrite (Z.mod_small (w mod 65536)) by lia.
  apply Z.mod_small. lia.
Qed.

End RandomNumbers.

Section RandomNumberLaws.
Import RNG.

Lemma random_value (g : RNG) :
  fst (random g)
  = IZR ((m_z (snd (random g)) mod 65536) * 65536
         + m_w (snd (random g)) mod 65536) / 4294967296.
Proof.
  rewrite <- random_bits. reflexivity.
Qed.

(** [random] draws the 32-bit number whose high half is the low half of the
    new [m_z] and whose low half is the low half of the new [m_w], over
    2^32. *)
Theorem random_halves (g : RNG) :
  fst (random g)
  = IZR ((m_z (snd (random g)) mod 65536) * 65536
         + m_w (snd (random g)) mod 65536) / 4294967296.
Proof. exact (random_value g). Qed.

Lemma random_range (g : RNG) : 0 <= fst (random g) < 1.
Proof.
  rewrite random_value.
  set (n := ((m_z (snd (random g)) mod 65536) * 65536
             + m_w (snd (random g)) mod 65536)%Z).
  assert (Hn : (0 <= n < 4294967296)%Z).
  { unfold n.
    pose proof (Z.mod_pos_bound (m_z (snd (random g))) 65536).
    pose proof (Z.mod_pos_bound (m_w (snd (random g))) 65536). lia. }
  destruct Hn as [Hlo Hhi]. apply IZR_le in Hlo. apply IZR_lt in Hhi.
  split.
  - apply Rmult_le_reg_r with 4294967296; [lra|].
    unfold Rdiv. rewrite Rmult_assoc, Rinv_l by lra. lra.
  - apply Rmult_lt_reg_r with 4294967296; [lra|].
    unfold Rdiv. rewrite Rmult_assoc, Rinv_l by lra. lra.
Qed.

(** Whatever the state, [random] returns a number in [[0, 1)]. *)
Theorem random_unit (g : RNG) : 0 <= fst (random g) < 1.
Proof. exact (random_range g). Qed.

Lemma and32_mask (n : Z) : and32 n 4294967295 = ToInt32 n.
Proof.
  unfold and32. change (ToInt32 4294967295) with (-1)%Z. apply Z.land_m1_r.
Qed.

(** From construction on, through any number of draws, the mask is
    [0xffffffff], the two words are signed 32-bit integers, and every number
    drawn is in [[0, 1)]. *)
Theorem randoms_invariant (seed : R) (n : nat) :
  let g := snd (randoms n (new_RNG seed)) in
  mask g = 4294967295%Z /\
  (-2147483648 <= m_w g < 2147483648)%Z /\
  (-2147483648 <= m_z g < 2147483648)%Z /\
  Forall (fun r => 0 <= r < 1) (fst (randoms n (new_RNG seed))).
Proof.
  assert (Hgen : forall n g,
    mask g = 4294967295%Z ->
    (-2147483648 <= m_w g < 2147483648)%Z ->
    (-2147483648 <= m_z g < 2147483648)%Z ->
    mask (snd (randoms n g)) = 4294967295%Z /\
    (-2147483648 <= m_w (snd (randoms n g)) < 2147483648)%Z /\
    (-2147483648 <= m_z (snd (randoms n g)) < 2147483648)%Z /\
    Forall (fun r => 0 <= r < 1) (fst (randoms n g))).
  { clear n. induction n as [|n IH]; intros g Hm Hw Hz; cbn [randoms].
    - cbn [fst snd]. repeat split; try assumption; try lia. constructor.
    - pose proof (random_range g) as Hu.
      destruct (random g) as [r g1] eqn:E.
      assert (E1 : g1 = snd (random g)) by now rewrite E.
      assert (Hm1 : mask g1 = 4294967295%Z) by (subst g1; exact Hm).
      assert (Hw1 : (-2147483648 <= m_w g1 < 2147483648)%Z).
      { subst g1. cbn [random snd m_w]. rewrite Hm, and32_mask.
        apply ToInt32_range. }
      assert (Hz1 : (-2147483648 <= m_z g1 < 2147483648)%Z).
      { subst g1. cbn [random snd m_z]. rewrite Hm, and32_mask.
        apply ToInt32_range. }
      specialize (IH g1 Hm1 Hw1 Hz1).
      destruct (randoms n g1) as [rs g2]. cbn [fst snd] in *.
      destruct IH as (? & ? & ? & ?). repeat split; try assumption; try lia.
      constructor; assumption. }
  apply Hgen.
  - reflexivity.
  - cbn [new_RNG m_w]. rewrite and32_mask. apply ToInt32_range.
  - cbn [new_RNG m_z]. rewrite and32_mask. apply ToInt32_range.
Qed.

(** A zero [m_z] stays zero: from such a state every number drawn is below
    2^-16, draw after draw. *)
Theorem randoms_zero_word (n : nat) (g : RNG) :
  m_z g = 0%Z ->
  m_z (snd (randoms n g)) = 0%Z /\
  Forall (fun r => 0 <= r < 1 / 65536) (fst (randoms n g)).
Proof.
  revert g. induction n as [|n IH]; intros g Hz; cbn [randoms].
  - cbn [fst snd]. split; [assumption|constructor].
  - pose proof (random_range g) as Hu. pose proof (random_value g) as Hh.
    assert (Hz1 : m_z (snd (random g)) = 0%Z).
    { cbn [random snd m_z]. rewrite Hz. reflexivity. }
    rewrite Hz1 in Hh.
    destruct (random g) as [r g1]. cbn [fst snd] in *.
    specialize (IH g1 Hz1). destruct (randoms n g1) as [rs g2].
    cbn [fst snd] in *. destruct IH as [IH1 IH2]. split; [assumption|].
    constructor; [|assumption]. split; [lra|].
    rewrite Hh. cbn [Z.mul Z.add Z.modulo Z.div_eucl].
    pose proof (Z.mod_pos_bound (m_w g1) 65536 ltac:(lia)) as [_ Hlt].
    apply IZR_lt in Hlt.
    apply Rmult_lt_reg_r with 4294967296; [lra|].
    unfold Rdiv. rewrite Rmult_assoc, Rinv_l by lra. lra.
Qed.

Lemma seed_with_zero_word : m_z (new_RNG 9876543210) = 0%Z.
Proof.
  cbn [new_RNG m_z]. unfold truncate.
  destruct (Rlt_dec _ _) as [H|H]; [lra|].
  rewrite (Zfloor_eq 0) by lra. reflexivity.
Qed.

(** The seed 9876543210 builds such a state. *)
Lemma randoms_zero_word_witness :
  m_z (new_RNG 9876543210) = 0%Z /\
  m_z (snd (randoms 3 (new_RNG 9876543210))) = 0%Z /\
  Forall (fun r => 0 <= r < 1 / 65536)
         (fst (randoms 3 (new_RNG 9876543210))).
Proof.
  split; [exact seed_with_zero_word|].
  exact (randoms_zero_word 3 (new_RNG 9876543210) seed_with_zero_word).
Defined.

End RandomNumberLaws.

(** ** player.ts *)

Section PlayerInput.
Import Player.

Lemma onKey_input (p : Player) (e : KeyEvent) :
  maxSpeed (onKey p e) = maxSpeed p /\
  set_input (onKey p e) (input p) = set_input p (input p) /\
  y (input (onKey p e)) = y (input p) /\
  (ofSpeed (maxSpeed p) (x (input p)) ->
   ofSpeed (maxSpeed p) (x (input (onKey p e)))) /\
  (ofSpeed (maxSpeed p) (z (input p)) ->
   ofSpeed (maxSpeed p) (z (input (onKey p e)))).
Proof.
  unfold ofSpeed.
  destruct e as [code|code]; cbn [onKey onKeyDown fst];
    unfold keyDownInput, onKeyUp;
    repeat (destruct (String.eqb code _));
    cbn [maxSpeed input set_input x y z]; repeat split; auto.
Qed.

(** Whatever keys go down and up, in whatever order, each of [input.x] and
    [input.z] stays at [-maxSpeed], 0 or [maxSpeed] once it is, [input.y] is
    never written, and nothing of the actor but [input] changes. *)
Theorem keys_invariant (p : Player) (events : list KeyEvent) :
  ofSpeed (maxSpeed p) (x (input p)) ->
  ofSpeed (maxSpeed p) (z (input p)) ->
  let p' := fold_left onKey events p in
  ofSpeed (maxSpeed p) (x (input p')) /\
  ofSpeed (maxSpeed p) (z (input p')) /\
  y (input p') = y (input p) /\
  set_input p' (input p) = p.
Proof.
  revert p. induction events as [|e events IH]; intros p Hx Hz; cbn [fold_left].
  - repeat split; try assumption. now destruct p.
  - destruct (onKey_input p e) as (Hs & Hrest & Hy & Hx' & Hz').
    specialize (IH (onKey p e)). rewrite Hs in IH.
    destruct (IH (Hx' Hx) (Hz' Hz)) as (IHx & IHz & IHy & IHr).
    repeat split; try assumption; [congruence|].
    change (set_input (fold_left onKey events (onKey p e)) (input p))
      with (set_input (set_input (fold_left onKey events (onKey p e))
                                 (input (onKey p e))) (input p)).
    rewrite IHr, Hrest. now destruct p.
Qed.

Lemma keys_invariant_witness :
  ofSpeed (maxSpeed Scenario.actor) (x (input Scenario.actor)) /\
  ofSpeed (maxSpeed Scenario.actor) (z (input Scenario.actor)) /\
  let p' := fold_left onKey Scenario.keystrokes Scenario.actor in
  ofSpeed (maxSpeed Scenario.actor) (x (input p')) /\
  ofSpeed (maxSpeed Scenario.actor) (z (input p')) /\
  y (input p') = y (input Scenario.actor) /\
  set_input p' (input Scenario.actor) = Scenario.actor.
Proof.
  assert (Hx : ofSpeed (maxSpeed Scenario.actor) (x (input Scenario.actor)))
    by (right; left; reflexivity).
  assert (Hz : ofSpeed (maxSpeed Scenario.actor) (z (input Scenario.actor)))
    by (right; left; reflexivity).
  split; [exact Hx|]. split; [exact Hz|].
  exact (keys_invariant Scenario.actor Scenario.keystrokes Hx Hz).
Defined.

(** With the pointer locked and the camera's right vector horizontal and of
    length 1, [applyInputs] copies the input into the horizontal velocity,
    leaves the vertical velocity and [position.y] alone, and moves the
    position by a vector of squared length [dt² (input.x² + input.z²)]: with
    two keys held the actor covers [sqrt 2] times the distance of one. *)
Theorem applyInputs_displacement (p : Player) (dt : R) :
  isLocked p = true ->
  y (cameraRight p) = 0 ->
  dot (cameraRight p) (cameraRight p) = 1 ->
  let p' := applyInputs p dt in
  let d := add (position p') (negate (position p)) in
  velocity p' = mkVector3 (x (input p)) (y (velocity p)) (z (input p)) /\
  y (position p') = y (position p) /\
  dot d d = dt² * ((x (input p))² + (z (input p))²).
Proof.
  intros Hl Hy Hr p' d. subst p' d. unfold applyInputs. rewrite Hl.
  destruct p as [ms [ix iy iz] [vx vy vz] [qx qy qz] [rx ry rz] lk r h g].
  cbn [cameraRight y x z] in Hy, Hr. subst ry.
  unfold moveForward, moveRight, set_position, set_velocity, addScaledVector,
    crossVectors, up, add, negate.
  cbn [maxSpeed input velocity position cameraRight isLocked radius height
       onGround x y z].
  split; [reflexivity|]. split; [ring|].
  unfold dot in *. cbn [x y z] in *. unfold Rsqr.
  transitivity (dt * dt * (ix * ix + iz * iz) * (rx * rx + 0 * 0 + rz * rz));
    [ring|rewrite Hr; ring].
Qed.

Lemma applyInputs_displacement_witness :
  isLocked Scenario.strafer = true /\
  y (cameraRight Scenario.strafer) = 0 /\
  dot (cameraRight Scenario.strafer) (cameraRight Scenario.strafer) = 1 /\
  let p' := applyInputs Scenario.strafer 0.004 in
  let d := add (position p') (negate (position Scenario.strafer)) in
  velocity p' = mkVector3 (x (input Scenario.strafer))
                          (y (velocity Scenario.strafer))
                          (z (input Scenario.strafer)) /\
  y (position p') = y (position Scenario.strafer) /\
  dot d d = 0.004² * ((x (input Scenario.strafer))² + (z (input Scenario.strafer))²).
Proof.
  assert (H1 : isLocked Scenario.strafer = true) by reflexivity.
  assert (H2 : y (cameraRight Scenario.strafer) = 0) by reflexivity.
  assert (H3 : dot (cameraRight Scenario.strafer) (cameraRight Scenario.strafer) = 1)
    by (unfold dot; cbn; lra).
  split; [exact H1|]. split; [exact H2|]. split; [exact H3|].
  exact (applyInputs_displacement Scenario.strafer 0.004 H1 H2 H3).
Defined.

End PlayerInput.

(** ** physics.ts: a detection pass, further *)

Section PassLaws.
Import Physics Steps.

Lemma filter_nil_iff {A : Type} (f : A -> bool) (l : list A) :
  filter f l = [] <-> forall c, In c l -> f c = false.
Proof.
  induction l as [|c l IH]; cbn [filter].
  - split; [intros _ c []|reflexivity].
  - destruct (f c) eqn:E; split.
    + discriminate.
    + intros H. specialize (H c (or_introl eq_refl)). congruence.
    + intros H c' [<-|Hc]; [assumption|]. now apply IH.
    + intros H. apply IH. intros c' Hc. apply H. now right.
Qed.

(** Empty space: on a shaped grid with no occupied cell within the actor's
    extents, a detection pass finds nothing, leaves no helper mesh, and does
    nothing to the actor but reset [onGround]. *)
Theorem detectCollisions_empty (ph : Physics) (a : Player.Player)
        (w : World.World) :
  World.shaped w ->
  (forall i j k, BroadSpec.inExtents a i j k -> ~ BroadSpec.occupied w i j k) ->
  broadPhase ph a w = Ok ([], ph) /\
  detectCollisions ph a w = Ok (set_helpers ph [], Player.set_onGround a false).
Proof.
  intros Hw Hfree.
  assert (Hnone : filter (BroadSpec.keep w) (BroadSpec.cells a) = []).
  { apply filter_nil_iff. intros [i [j k]] Hc. apply in_cells in Hc.
    destruct (BroadSpec.keep w (i, (j, k))) eqn:E; [|reflexivity].
    apply keep_occupied in E. now apply Hfree in Hc. }
  split.
  - rewrite (broadPhase_eq ph a w Hw), Hnone. cbn [map]. now rewrite push_nil.
  - rewrite (detectCollisions_eq ph a w Hw). unfold passHelpers, passActor.
    change (BroadSpec.cells (Player.set_onGround a false))
      with (BroadSpec.cells a).
    rewrite Hnone. reflexivity.
Qed.

Lemma emptyWorld_shaped : World.shaped Scenario.emptyWorld.
Proof. apply initializeTerrain_shaped. Qed.

Lemma emptyWorld_free (i j k : Z) : ~ BroadSpec.occupied Scenario.emptyWorld i j k.
Proof.
  intros [Hb (b & E & Hne)].
  pose proof (initializeTerrain_store
                (World.mkWorld (World.mkWorldSize 8 8) []) i j k) as H.
  fold Scenario.emptyWorld in H. unfold World.getBlock in H.
  rewrite Hb, E in H.
  change (World.inBounds (World.mkWorld (World.mkWorldSize 8 8) []) i j k)
    with (World.inBounds Scenario.emptyWorld i j k) in H.
  rewrite Hb in H. injection H as ->. now apply Hne.
Qed.

Lemma detectCollisions_empty_witness :
  World.shaped Scenario.emptyWorld /\
  (forall i j k, BroadSpec.inExtents Scenario.actor i j k ->
                 ~ BroadSpec.occupied Scenario.emptyWorld i j k) /\
  broadPhase new_Physics Scenario.actor Scenario.emptyWorld
  = Ok ([], new_Physics) /\
  detectCollisions new_Physics Scenario.actor Scenario.emptyWorld
  = Ok (set_helpers new_Physics [], Player.set_onGround Scenario.actor false).
Proof.
  assert (H : forall i j k, BroadSpec.inExtents Scenario.actor i j k ->
                            ~ BroadSpec.occupied Scenario.emptyWorld i j k)
    by (intros i j k _; apply emptyWorld_free).
  split; [exact emptyWorld_shaped|]. split; [exact H|].
  exact (detectCollisions_empty new_Physics Scenario.actor Scenario.emptyWorld
           emptyWorld_shaped H).
Defined.

Lemma record_contactPoint cell a :
  contactPoint (NarrowSpec.record cell a) = NarrowSpec.closest cell a.
Proof. unfold NarrowSpec.record; now destruct (Rlt_dec _ _). Qed.

(** The helper group after a pass on a shaped grid: whatever it held before,
    it holds one collision mesh per candidate of the broad phase, in order,
    followed by one contact mesh per collision of the narrow phase, in order;
    the clock of the integrator is untouched. *)
Theorem detectCollisions_helpers (ph : Physics) (a : Player.Player)
        (w : World.World) :
  World.shaped w ->
  let a0 := Player.set_onGround a false in
  exists candidates ph1 collisions ph2 a2 ph' a',
    broadPhase (set_helpers ph []) a0 w = Ok (candidates, ph1) /\
    narrowPhase ph1 candidates a0 = (collisions, ph2, a2) /\
    detectCollisions ph a w = Ok (ph', a') /\
    helpers ph' = map CollisionMesh candidates
                  ++ map (fun c => ContactMesh (contactPoint c)) collisions /\
    gravity ph' = gravity ph /\ simulationRate ph' = simulationRate ph /\
    timestep ph' = timestep ph /\ accumulator ph' = accumulator ph.
Proof.
  intros Hw a0.
  rewrite (broadPhase_eq _ a0 w Hw), (detectCollisions_eq ph a w Hw).
  unfold BroadSpec.push. cbn [fst snd app helpers set_helpers].
  eexists _, _. rewrite narrowPhase_eq.
  eexists _, _, _, _, _.
  split; [reflexivity|]. split; [reflexivity|]. split; [reflexivity|].
  split; [|repeat split].
  cbn [helpers set_helpers]. unfold passHelpers. fold a0. f_equal.
  rewrite map_map. apply map_ext. intros c. now rewrite record_contactPoint.
Qed.

Lemma detectCollisions_helpers_witness :
  World.shaped Scenario.world /\
  let a0 := Player.set_onGround Scenario.actor false in
  exists candidates ph1 collisions ph2 a2 ph' a',
    broadPhase (set_helpers new_Physics []) a0 Scenario.world
    = Ok (candidates, ph1) /\
    narrowPhase ph1 candidates a0 = (collisions, ph2, a2) /\
    detectCollisions new_Physics Scenario.actor Scenario.world = Ok (ph', a') /\
    helpers ph' = map CollisionMesh candidates
                  ++ map (fun c => ContactMesh (contactPoint c)) collisions /\
    gravity ph' = gravity new_Physics /\
    simulationRate ph' = simulationRate new_Physics /\
    timestep ph' = timestep new_Physics /\
    accumulator ph' = accumulator new_Physics.
Proof.
  split; [exact world_shaped|].
  exact (detectCollisions_helpers new_Physics Scenario.actor Scenario.world
           world_shaped).
Defined.

End PassLaws.

(** ** physics.ts: the narrow phase and the resolver, further *)

Section NarrowLaws.
Import Physics.

Lemma clamp_within (lo hi v : R) :
  lo <= hi -> lo <= NarrowSpec.clamp lo hi v <= hi.
Proof.
  intros H. unfold NarrowSpec.clamp.
  destruct (Rlt_dec v lo); [lra|]. destruct (Rlt_dec hi v); lra.
Qed.

(** Every emitted record has its contact point within the unit cube of its
    cell, and as overlap the smaller of the vertical and the horizontal
    overlap, which is at most [height/2] and at most [radius]. *)
Theorem narrowPhase_contact (ph : Physics) (candidates : list Point3D)
        (a : Player.Player) (r : BlockCollision) :
  In r (fst (fst (narrowPhase ph candidates a))) ->
  Rabs (px (contactPoint r) - px (block r)) <= 0.5 /\
  Rabs (py (contactPoint r) - py (block r)) <= 0.5 /\
  Rabs (pz (contactPoint r) - pz (block r)) <= 0.5 /\
  overlap r = Rmin (NarrowSpec.overlapY (block r) a)
                   (NarrowSpec.overlapXZ (block r) a) /\
  overlap r <= Player.height a / 2 /\
  overlap r <= Player.radius a.
Proof.
  rewrite narrowPhase_eq; cbn [fst]. intros Hr.
  apply in_map_iff in Hr as (c & <- & _).
  rewrite record_block, record_contactPoint.
  unfold NarrowSpec.closest; cbn [px py pz].
  pose proof (clamp_within (px c - 0.5) (px c + 0.5)
                (x (Player.position a)) ltac:(lra)).
  pose proof (clamp_within (py c - 0.5) (py c + 0.5)
                (y (Player.position a) - Player.height a / 2) ltac:(lra)).
  pose proof (clamp_within (pz c - 0.5) (pz c + 0.5)
                (z (Player.position a)) ltac:(lra)).
  split; [apply Rabs_le; lra|]. split; [apply Rabs_le; lra|].
  split; [apply Rabs_le; lra|].
  assert (Hy : NarrowSpec.overlapY c a <= Player.height a / 2).
  { unfold NarrowSpec.overlapY. pose proof (Rabs_pos (NarrowSpec.dy c a)). lra. }
  assert (Hxz : NarrowSpec.overlapXZ c a <= Player.radius a).
  { unfold NarrowSpec.overlapXZ.
    pose proof (sqrt_pos ((NarrowSpec.dx c a)² + (NarrowSpec.dz c a)²)). lra. }
  unfold NarrowSpec.record, Rmin.
  destruct (Rlt_dec _ _); destruct (Rle_dec _ _); cbn [overlap];
    repeat split; lra.
Qed.

Lemma narrowPhase_contact_witness :
  In (NarrowSpec.record Scenario.cell Scenario.actor)
     (fst (fst (narrowPhase new_Physics [Scenario.cell] Scenario.actor))) /\
  let r := NarrowSpec.record Scenario.cell Scenario.actor in
  Rabs (px (contactPoint r) - px (block r)) <= 0.5 /\
  Rabs (py (contactPoint r) - py (block r)) <= 0.5 /\
  Rabs (pz (contactPoint r) - pz (block r)) <= 0.5 /\
  overlap r = Rmin (NarrowSpec.overlapY (block r) Scenario.actor)
                   (NarrowSpec.overlapXZ (block r) Scenario.actor) /\
  overlap r <= Player.height Scenario.actor / 2 /\
  overlap r <= Player.radius Scenario.actor.
Proof.
  assert (Hin : In (NarrowSpec.record Scenario.cell Scenario.actor)
     (fst (fst (narrowPhase new_Physics [Scenario.cell] Scenario.actor)))).
  { rewrite (scene_narrowPhase _ _ actor_placed), (scene_record _ actor_placed).
    now left. }
  split; [exact Hin|].
  exact (narrowPhase_contact new_Physics [Scenario.cell] Scenario.actor _ Hin).
Defined.

(** Each candidate is judged on its own: the records for a list of
    candidates are the records of its cells, one by one, in order; and the
    actor ends on the ground exactly when it was or one of them alone puts
    it there. *)
Theorem narrowPhase_cellwise (ph : Physics) (candidates : list Point3D)
        (a : Player.Player) :
  fst (fst (narrowPhase ph candidates a))
  = flat_map (fun c => fst (fst (narrowPhase ph [c] a))) candidates /\
  Player.onGround (snd (narrowPhase ph candidates a))
  = (Player.onGround a
     || existsb (fun c => Player.onGround
                            (snd (narrowPhase ph [c] (Player.set_onGround a false))))
                candidates).
Proof.
  rewrite narrowPhase_eq. cbn [fst snd Player.onGround Player.set_onGround].
  split.
  - induction candidates as [|c l IH]; [reflexivity|].
    cbn [flat_map filter]. rewrite narrowPhase_eq. cbn [fst filter].
    destruct (NarrowSpec.containedb a c); cbn [map app]; now rewrite IH.
  - f_equal. induction candidates as [|c l IH]; [reflexivity|].
    cbn [existsb]. rewrite IH, narrowPhase_eq.
    cbn [snd Player.onGround Player.set_onGround existsb orb].
    now rewrite orb_false_r.
Qed.

End NarrowLaws.

Section ResolverLaws.
Import Physics.

Lemma same_key_same_record (l : list BlockCollision) (u v : BlockCollision) :
  NoDup (map overlap l) -> In u l -> In v l -> overlap u = overlap v -> u = v.
Proof.
  induction l as [|c l IH]; intros Hnd Hu Hv E; [contradiction|].
  cbn [map] in Hnd. inversion Hnd as [|? ? Hnot Hnd']; subst.
  destruct Hu as [<-|Hu], Hv as [<-|Hv]; auto.
  - exfalso. apply Hnot. rewrite E. now apply in_map.
  - exfalso. apply Hnot. rewrite <- E. now apply in_map.
Qed.

Lemma sorted_unique (l : list BlockCollision) : forall l',
  StronglySorted (fun u v => overlap u <= overlap v) l ->
  StronglySorted (fun u v => overlap u <= overlap v) l' ->
  Permutation l l' -> NoDup (map overlap l) -> l = l'.
Proof.
  induction l as [|u l IH]; intros l' Hs Hs' Hp Hnd.
  - apply Permutation_nil in Hp. now subst.
  - destruct l' as [|v l']; [apply Permutation_sym, Permutation_nil in Hp; discriminate|].
    inversion Hs as [|? ? Hsl Hul]; subst.
    inversion Hs' as [|? ? Hsl' Hvl']; subst.
    assert (Huv : u = v).
    { apply (same_key_same_record (u :: l)); auto.
      - now left.
      - apply (Permutation_in _ (Permutation_sym Hp)). now left.
      - assert (Hv : In v (u :: l))
          by (apply (Permutation_in _ (Permutation_sym Hp)); now left).
        assert (Hu : In u (v :: l')) by (apply (Permutation_in _ Hp); now left).
        rewrite Forall_forall in Hul, Hvl'.
        destruct Hv as [->|Hv]; [reflexivity|].
        destruct Hu as [->|Hu]; [reflexivity|].
        specialize (Hul _ Hv). specialize (Hvl' _ Hu). lra. }
    subst v. f_equal. apply IH; auto.
    + now apply Permutation_cons_inv in Hp.
    + cbn [map] in Hnd. now inversion Hnd.
Qed.

(** When no two records have the same overlap, the order in which the
    narrow phase found them does not matter: [resolveCollisions] gives the
    same actor for any reordering of the list. *)
Theorem resolveCollisions_order_free (collisions collisions' : list BlockCollision)
        (p : Player.Player) :
  Permutation collisions collisions' ->
  NoDup (map overlap collisions) ->
  resolveCollisions collisions p = resolveCollisions collisions' p.
Proof.
  intros Hp Hnd. unfold resolveCollisions. f_equal.
  apply sorted_unique; try apply Array_sort_sorted.
  - rewrite !Array_sort_perm. exact Hp.
  - eapply Permutation_NoDup; [|exact Hnd].
    apply Permutation_map, Permutation_sym, Array_sort_perm.
Qed.

Lemma resolveCollisions_order_free_witness :
  Permutation [Scenario.wall; Scenario.floor] [Scenario.floor; Scenario.wall] /\
  NoDup (map overlap [Scenario.wall; Scenario.floor]) /\
  resolveCollisions [Scenario.wall; Scenario.floor] Scenario.runner
  = resolveCollisions [Scenario.floor; Scenario.wall] Scenario.runner.
Proof.
  assert (H1 : Permutation [Scenario.wall; Scenario.floor]
                           [Scenario.floor; Scenario.wall])
    by apply perm_swap.
  assert (H2 : NoDup (map overlap [Scenario.wall; Scenario.floor])).
  { cbn. repeat constructor; cbn; [|tauto]. intros [H|[]]. lra. }
  split; [exact H1|]. split; [exact H2|].
  exact (resolveCollisions_order_free _ _ Scenario.runner H1 H2).
Defined.

End ResolverLaws.

(** ** world.ts: the terrain pass *)

Section Terrain.
Variable simplex : R -> R -> R.
Variable terrain : World.WorldTerrain.

Local Open Scope Z_scope.

Lemma getBlock_inBounds (w : World.World) (i j k : Z) :
  World.shaped w -> World.inBounds w i j k = true ->
  exists b, World.getBlock w i j k = Ok (Some b).
Proof.
  intros Hw Hb. unfold World.getBlock. rewrite Hb.
  now apply index3_shaped.
Qed.

Lemma inBounds_size (w w' : World.World) (i j k : Z) :
  World.size w' = World.size w ->
  World.inBounds w' i j k = World.inBounds w i j k.
Proof. intros E. unfold World.inBounds. now rewrite E. Qed.

Lemma terrainHeight_size (w w' : World.World) (i k : Z) :
  World.size w' = World.size w ->
  World.terrainHeight simplex terrain w' i k
  = World.terrainHeight simplex terrain w i k.
Proof. intros E. unfold World.terrainHeight. now rewrite E. Qed.

Lemma terrainHeight_range (w : World.World) (i k : Z) :
  0 <= World.terrainHeight simplex terrain w i k /\
  (World.terrainHeight simplex terrain w i k <= World.height (World.size w) - 1
   \/ World.terrainHeight simplex terrain w i k = 0).
Proof. unfold World.terrainHeight. cbv zeta. lia. Qed.

Lemma terraformed_refl (P : Z -> Z -> Z -> bool) (h : Z -> Z -> Z)
      (w : World.World) :
  World.shaped w ->
  (forall i j k, World.inBounds w i j k = true -> P i j k = false) ->
  terraformed P h w w.
Proof.
  intros Hw HP. split; [reflexivity|]. split; [assumption|].
  intros i j k Hb. destruct (getBlock_inBounds w i j k Hw Hb) as [b Eb].
  exists b. split; [assumption|]. now rewrite (HP i j k Hb).
Qed.

Lemma terraformed_ext (P P' : Z -> Z -> Z -> bool) (h : Z -> Z -> Z)
      (w w' : World.World) :
  (forall i j k, World.inBounds w i j k = true -> P i j k = P' i j k) ->
  terraformed P h w w' -> terraformed P' h w w'.
Proof.
  intros HP (Hs & Hw' & H). split; [assumption|]. split; [assumption|].
  intros i j k Hb. destruct (H i j k Hb) as (b & E1 & E2).
  exists b. split; [assumption|]. now rewrite <- (HP i j k Hb).
Qed.

Lemma terraformed_compose (P P' : Z -> Z -> Z -> bool) (h : Z -> Z -> Z)
      (w w1 w2 : World.World) :
  terraformed P h w w1 -> terraformed P' h w1 w2 ->
  (forall i j k, P i j k = true -> P' i j k = true -> False) ->
  terraformed (fun i j k => P i j k || P' i j k) h w w2.
Proof.
  intros (Hs1 & Hw1 & H1) (Hs2 & Hw2 & H2) Hdisj.
  split; [congruence|]. split; [assumption|].
  intros i j k Hb. destruct (H1 i j k Hb) as (b & E1 & E1').
  rewrite <- (inBounds_size w w1 i j k Hs1) in Hb.
  destruct (H2 i j k Hb) as (b1 & E2 & E2').
  exists b. split; [assumption|]. rewrite E2'.
  rewrite E1' in E2. injection E2 as <-.
  specialize (Hdisj i j k).
  destruct (P i j k), (P' i j k); cbn [orb]; try reflexivity.
  exfalso. now apply Hdisj.
Qed.

Lemma terrainCell_law (h : Z -> Z -> Z) (w : World.World) (i j k : Z) :
  World.shaped w ->
  (j < h i k -> World.inBounds w i j k = true) ->
  exists w',
    World.terrainCell w i j k (h i k) = Ok w' /\
    terraformed (fun i' j' k' => (i' =? i) && (j' =? j) && (k' =? k)) h w w'.
Proof.
  intros Hw Hlow.
  assert (Hset : forall id',
    (forall b, World.getBlock w i j k = Ok (Some b) ->
               terrainId (h i k) j (World.id b) = id') ->
    exists w', World.setBlockId w i j k id' = Ok w' /\
      terraformed (fun i' j' k' => (i' =? i) && (j' =? j) && (k' =? k)) h w w').
  { intros id' Hid.
    destruct (setBlockId_store w i j k id' Hw) as (w' & E & Hs & Hw' & Hget).
    exists w'. split; [assumption|]. split; [assumption|]. split; [assumption|].
    intros i' j' k' Hb. destruct (getBlock_inBounds w i' j' k' Hw Hb) as [b Eb].
    exists b. split; [assumption|]. rewrite Hget.
    destruct (Z.eqb_spec i' i), (Z.eqb_spec j' j), (Z.eqb_spec k' k);
      cbn [andb]; try assumption.
    subst. rewrite Eb. cbn [bind option_map]. now rewrite (Hid b Eb). }
  unfold World.terrainCell.
  destruct (Z.ltb_spec j (h i k)) as [Hlt|Hge].
  - destruct (getBlock_inBounds w i j k Hw (Hlow Hlt)) as [b Eb].
    rewrite Eb. cbn [bind].
    destruct (Z.eqb_spec (World.id b) blocks.empty_id) as [Ee|Ne].
    + apply Hset. intros b' Eb'. rewrite Eb in Eb'. injection Eb' as <-.
      unfold terrainId. rewrite (proj2 (Z.ltb_lt _ _) Hlt), Ee. reflexivity.
    + exists w. split; [reflexivity|]. split; [reflexivity|].
      split; [assumption|].
      intros i' j' k' Hb. destruct (getBlock_inBounds w i' j' k' Hw Hb) as [b' Eb'].
      exists b'. split; [assumption|]. rewrite Eb'. do 2 f_equal.
      destruct (Z.eqb_spec i' i), (Z.eqb_spec j' j), (Z.eqb_spec k' k);
        cbn [andb]; try reflexivity.
      subst. rewrite Eb in Eb'. injection Eb' as <-.
      unfold terrainId. rewrite (proj2 (Z.ltb_lt _ _) Hlt).
      rewrite (proj2 (Z.eqb_neq _ _) Ne). now destruct b.
  - destruct (Z.eqb_spec j (h i k)) as [He|Hne].
    + apply Hset. intros b _. unfold terrainId.
      rewrite (proj2 (Z.ltb_ge _ _) Hge), (proj2 (Z.eqb_eq _ _) He). reflexivity.
    + assert (Hgt : (j >? h i k) = true) by (apply Z.gtb_lt; lia).
      rewrite Hgt. apply Hset. intros b _. unfold terrainId.
      rewrite (proj2 (Z.ltb_ge _ _) Hge), (proj2 (Z.eqb_neq _ _) Hne).
      reflexivity.
Qed.

Lemma inb_In (i : Z) (l : list Z) : inb i l = true <-> In i l.
Proof.
  unfold inb. rewrite existsb_exists. split.
  - intros (v & Hv & E). apply Z.eqb_eq in E. now subst.
  - intros H. exists i. split; [assumption|apply Z.eqb_refl].
Qed.

Lemma inb_cons (i v : Z) (l : list Z) : inb i (v :: l) = (i =? v) || inb i l.
Proof. reflexivity. Qed.

(** The loop over [y] for one column. *)
Lemma terrain_column (h : Z -> Z -> Z) (i k : Z) (js : list Z) :
  NoDup js -> forall w,
  World.shaped w ->
  (forall j, In j js -> j < h i k -> World.inBounds w i j k = true) ->
  exists w',
    forEach js (fun j w => World.terrainCell w i j k (h i k)) w = Ok w' /\
    terraformed (fun i' j' k' => (i' =? i) && inb j' js && (k' =? k)) h w w'.
Proof.
  induction 1 as [|j js Hnot Hnd IH]; intros w Hw Hlow; cbn [forEach].
  - exists w. split; [reflexivity|]. apply terraformed_refl; [assumption|].
    intros. cbn. now rewrite andb_false_r.
  - destruct (terrainCell_law h w i j k Hw) as (w1 & E1 & T1).
    { intros Hlt. apply Hlow; [now left|assumption]. }
    rewrite E1. cbn [bind].
    destruct T1 as (Hs1 & Hw1 & H1).
    destruct (IH w1 Hw1) as (w2 & E2 & T2).
    { intros j' Hj' Hlt. rewrite (inBounds_size w w1) by assumption.
      apply Hlow; [now right|assumption]. }
    exists w2. split; [assumption|].
    eapply terraformed_ext;
      [|eapply terraformed_compose; [exact (conj Hs1 (conj Hw1 H1))|exact T2|]].
    + intros i' j' k' _. cbn beta. rewrite inb_cons.
      destruct (i' =? i), (j' =? j), (inb j' js), (k' =? k); reflexivity.
    + intros i' j' k' HP HP'. cbn beta in *.
      apply andb_true_iff in HP as [HP _]. apply andb_true_iff in HP as [_ HP].
      apply andb_true_iff in HP' as [HP' _]. apply andb_true_iff in HP' as [_ HP'].
      apply Z.eqb_eq in HP. apply inb_In in HP'. subst. contradiction.
Qed.

End Terrain.

Section TerrainPass.
Variable simplex : R -> R -> R.
Variable terrain : World.WorldTerrain.

Local Open Scope Z_scope.

(** The loop over [z] for one [x]. *)
Lemma terrain_row (w0 : World.World) (i : Z) (ks : list Z) :
  0 <= i < World.width (World.size w0) ->
  NoDup ks ->
  (forall k, In k ks -> 0 <= k < World.width (World.size w0)) ->
  forall w,
  World.shaped w -> World.size w = World.size w0 ->
  exists w',
    forEach ks
      (fun k w =>
         let height' := World.terrainHeight simplex terrain w i k in
         forRange 0 (World.height (World.size w))
                  (fun j w => World.terrainCell w i j k height') w) w = Ok w' /\
    terraformed (fun i' j' k' => (i' =? i) && inb k' ks)
                (World.terrainHeight simplex terrain w0) w w'.
Proof.
  intros Hi Hnd. induction Hnd as [|k ks Hnot Hnd IH]; intros Hks w Hw Hs;
    cbn [forEach].
  - exists w. split; [reflexivity|]. apply terraformed_refl; [assumption|].
    intros. cbn. now rewrite andb_false_r.
  - cbv zeta. unfold forRange.
    rewrite (terrainHeight_size simplex terrain w0 w i k Hs), Hs.
    destruct (terrain_column (World.terrainHeight simplex terrain w0) i k
                (zrange 0 (World.height (World.size w0)))
                (NoDup_zrange _ _) w Hw) as (w1 & E1 & T1).
    { intros j Hj Hlt. apply in_zrange in Hj.
      pose proof (terrainHeight_range simplex terrain w0 i k).
      pose proof (Hks k (or_introl eq_refl)).
      apply inBounds_spec. rewrite Hs. lia. }
    rewrite E1. cbn [bind].
    pose proof T1 as (Hs1 & Hw1 & _).
    destruct (IH (fun k' Hk' => Hks k' (or_intror Hk')) w1 Hw1) as (w2 & E2 & T2);
      [congruence|].
    exists w2. split; [assumption|].
    eapply terraformed_ext;
      [|eapply terraformed_compose; [exact T1|exact T2|]].
    + intros i' j' k' Hb. cbn beta. rewrite inb_cons.
      apply inBounds_spec in Hb. rewrite Hs in Hb.
      assert (Hj : inb j' (zrange 0 (World.height (World.size w0))) = true)
        by (apply inb_In, in_zrange; lia).
      rewrite Hj.
      destruct (i' =? i), (k' =? k), (inb k' ks); reflexivity.
    + intros i' j' k' HP HP'. cbn beta in *.
      apply andb_true_iff in HP as [_ HP].
      apply andb_true_iff in HP' as [_ HP'].
      apply Z.eqb_eq in HP. apply inb_In in HP'. subst. contradiction.
Qed.

(** The loop over [x]. *)
Lemma terrain_grid (w0 : World.World) (li : list Z) :
  NoDup li ->
  (forall i, In i li -> 0 <= i < World.width (World.size w0)) ->
  forall w,
  World.shaped w -> World.size w = World.size w0 ->
  exists w',
    forEach li
      (fun i =>
         forRange 0 (World.width (World.size w0) - 1)
           (fun k w =>
              let height' := World.terrainHeight simplex terrain w i k in
              forRange 0 (World.height (World.size w))
                       (fun j w => World.terrainCell w i j k height') w)) w
    = Ok w' /\
    terraformed (fun i' j' k' => inb i' li)
                (World.terrainHeight simplex terrain w0) w w'.
Proof.
  intros Hnd. induction Hnd as [|i li Hnot Hnd IH]; intros Hli w Hw Hs;
    cbn [forEach].
  - exists w. split; [reflexivity|]. apply terraformed_refl; [assumption|].
    reflexivity.
  - unfold forRange at 1.
    destruct (terrain_row w0 i (zrange 0 (World.width (World.size w0) - 1))
                (Hli i (or_introl eq_refl)) (NoDup_zrange _ _)) with (w := w)
      as (w1 & E1 & T1); try assumption.
    { intros k Hk. apply in_zrange in Hk. lia. }
    unfold forRange in E1 |- *. rewrite E1. cbn [bind].
    pose proof T1 as (Hs1 & Hw1 & _).
    destruct (IH (fun i' Hi' => Hli i' (or_intror Hi')) w1 Hw1) as (w2 & E2 & T2);
      [congruence|].
    unfold forRange in E2.
    exists w2. split; [assumption|].
    eapply terraformed_ext;
      [|eapply terraformed_compose; [exact T1|exact T2|]].
    + intros i' j' k' Hb. cbn beta. rewrite inb_cons.
      apply inBounds_spec in Hb. rewrite Hs in Hb.
      assert (Hk : inb k' (zrange 0 (World.width (World.size w0) - 1)) = true)
        by (apply inb_In, in_zrange; lia).
      rewrite Hk. now rewrite andb_true_r.
    + intros i' j' k' HP HP'. cbn beta in *.
      apply andb_true_iff in HP as [HP _].
      apply Z.eqb_eq in HP. apply inb_In in HP'. subst. contradiction.
Qed.

Lemma generateTerrain_terraformed (w : World.World) :
  World.shaped w ->
  exists w',
    World.generateTerrain simplex terrain w = Ok w' /\
    terraformed (fun _ _ _ => true) (World.terrainHeight simplex terrain w) w w'.
Proof.
  intros Hw. unfold World.generateTerrain. unfold forRange at 1.
  destruct (terrain_grid w (zrange 0 (World.width (World.size w) - 1))
              (NoDup_zrange _ _)) with (w := w) as (w' & E & T);
    try assumption; try reflexivity.
  { intros i Hi. apply in_zrange in Hi. lia. }
  exists w'. split; [exact E|].
  eapply terraformed_ext; [|exact T].
  intros i j k Hb. cbn beta. apply inBounds_spec in Hb.
  apply inb_In, in_zrange. lia.
Qed.

End TerrainPass.

Section TerrainLaws.

Local Open Scope Z_scope.

(** The terrain pass, cell by cell.  On a shaped grid [generateTerrain]
    returns, whatever the noise; the grid keeps its size and shape, and every
    cell within bounds, at level [j] of a column of height [h] (the scaled
    noise floored and kept within 0 and [height - 1]), keeps its instance id
    and holds: below [h] dirt where it was empty and what it held otherwise,
    at [h] grass, above [h] nothing. *)
Theorem generateTerrain_cells (simplex : R -> R -> R)
        (terrain : World.WorldTerrain) (w : World.World) :
  World.shaped w ->
  exists w',
    World.generateTerrain simplex terrain w = Ok w' /\
    World.size w' = World.size w /\
    World.shaped w' /\
    forall i j k,
      World.inBounds w i j k = true ->
      exists b,
        World.getBlock w i j k = Ok (Some b) /\
        World.getBlock w' i j k
        = Ok (Some (World.mkBlockData
                      (terrainId (World.terrainHeight simplex terrain w i k) j
                                 (World.id b))
                      (World.instanceId b))).
Proof.
  intros Hw.
  destruct (generateTerrain_terraformed simplex terrain w Hw)
    as (w' & E & Hs & Hw' & H).
  exists w'. split; [exact E|]. split; [exact Hs|]. split; [exact Hw'|].
  intros i j k Hb. exact (H i j k Hb).
Qed.

Lemma generateTerrain_cells_witness :
  World.shaped Scenario.world /\
  exists w',
    World.generateTerrain Scenario.slope Scenario.defaultTerrain Scenario.world
    = Ok w' /\
    World.size w' = World.size Scenario.world /\
    World.shaped w' /\
    forall i j k,
      World.inBounds Scenario.world i j k = true ->
      exists b,
        World.getBlock Scenario.world i j k = Ok (Some b) /\
        World.getBlock w' i j k
        = Ok (Some (World.mkBlockData
                      (terrainId (World.terrainHeight Scenario.slope
                                    Scenario.defaultTerrain Scenario.world i k)
                                 j (World.id b))
                      (World.instanceId b))).
Proof.
  split; [exact world_shaped|].
  exact (generateTerrain_cells Scenario.slope Scenario.defaultTerrain
           Scenario.world world_shaped).
Defined.

(** The surface the terrain pass leaves on a shaped grid of positive
    height: in every column the height [h] is a level of the grid, the block
    at [h] is grass, every block above is empty and no block below is. *)
Theorem generateTerrain_surface (simplex : R -> R -> R)
        (terrain : World.WorldTerrain) (w : World.World) :
  World.shaped w ->
  0 < World.height (World.size w) ->
  exists w',
    World.generateTerrain simplex terrain w = Ok w' /\
    forall i k,
      0 <= i < World.width (World.size w) ->
      0 <= k < World.width (World.size w) ->
      let h := World.terrainHeight simplex terrain w i k in
      0 <= h < World.height (World.size w) /\
      (exists b, World.getBlock w' i h k = Ok (Some b) /\
                 World.id b = blocks.grass_id) /\
      (forall j, h < j < World.height (World.size w) ->
         exists b, World.getBlock w' i j k = Ok (Some b) /\
                   World.id b = blocks.empty_id) /\
      (forall j, 0 <= j < h ->
         exists b, World.getBlock w' i j k = Ok (Some b) /\
                   World.id b <> blocks.empty_id).
Proof.
  intros Hw HH.
  destruct (generateTerrain_terraformed simplex terrain w Hw)
    as (w' & E & Hs & Hw' & H).
  exists w'. split; [exact E|]. intros i k Hi Hk h.
  pose proof (terrainHeight_range simplex terrain w i k) as Hr. fold h in Hr.
  assert (Hh : 0 <= h < World.height (World.size w)) by lia.
  split; [exact Hh|].
  assert (Hcell : forall j, 0 <= j < World.height (World.size w) ->
            exists b, World.getBlock w i j k = Ok (Some b) /\
              World.getBlock w' i j k
              = Ok (Some (World.mkBlockData (terrainId h j (World.id b))
                                            (World.instanceId b)))).
  { intros j Hj. apply H. apply inBounds_spec. lia. }
  split; [|split].
  - destruct (Hcell h Hh) as (b & _ & E'). eexists. split; [exact E'|].
    cbn [World.id]. unfold terrainId. now rewrite Z.ltb_irrefl, Z.eqb_refl.
  - intros j Hj. destruct (Hcell j ltac:(lia)) as (b & _ & E').
    eexists. split; [exact E'|]. cbn [World.id]. unfold terrainId.
    rewrite (proj2 (Z.ltb_ge j h)) by lia.
    now rewrite (proj2 (Z.eqb_neq j h)) by lia.
  - intros j Hj. destruct (Hcell j ltac:(lia)) as (b & _ & E').
    eexists. split; [exact E'|]. cbn [World.id]. unfold terrainId.
    rewrite (proj2 (Z.ltb_lt j h)) by lia.
    destruct (Z.eqb_spec (World.id b) blocks.empty_id); [discriminate|assumption].
Qed.

Lemma generateTerrain_surface_witness :
  World.shaped Scenario.world /\
  0 < World.height (World.size Scenario.world) /\
  exists w',
    World.generateTerrain Scenario.slope Scenario.defaultTerrain Scenario.world
    = Ok w' /\
    forall i k,
      0 <= i < World.width (World.size Scenario.world) ->
      0 <= k < World.width (World.size Scenario.world) ->
      let h := World.terrainHeight Scenario.slope Scenario.defaultTerrain
                 Scenario.world i k in
      0 <= h < World.height (World.size Scenario.world) /\
      (exists b, World.getBlock w' i h k = Ok (Some b) /\
                 World.id b = blocks.grass_id) /\
      (forall j, h < j < World.height (World.size Scenario.world) ->
         exists b, World.getBlock w' i j k = Ok (Some b) /\
                   World.id b = blocks.empty_id) /\
      (forall j, 0 <= j < h ->
         exists b, World.getBlock w' i j k = Ok (Some b) /\
                   World.id b <> blocks.empty_id).
Proof.
  assert (H : 0 < World.height (World.size Scenario.world)) by (cbn; lia).
  split; [exact world_shaped|]. split; [exact H|].
  exact (generateTerrain_surface Scenario.slope Scenario.defaultTerrain
           Scenario.world world_shaped H).
Defined.

End TerrainLaws.

(** ** rng.ts: seeding *)

Section Seeding.
Import RNG.

Lemma truncate_IZR (n : Z) : truncate (IZR n) = n.
Proof.
  unfold truncate. destruct (Rlt_dec (IZR n) 0).
  - unfold Zceil. rewrite <- opp_IZR, ZfloorZ. lia.
  - apply ZfloorZ.
Qed.

Lemma ToInt32_inj (u v : Z) :
  ToInt32 u = ToInt32 v <-> ((u - v) mod 4294967296 = 0)%Z.
Proof.
  split.
  - intros E. apply (f_equal (fun t => (t mod 4294967296)%Z)) in E.
    rewrite !ToInt32_mod in E.
    rewrite Zminus_mod, E, Z.sub_diag. reflexivity.
  - intros E. unfold ToInt32. f_equal.
    apply Z.mod_divide in E; [|lia]. destruct E as [q E].
    replace (u + 2147483648)%Z with (v + 2147483648 + q * 4294967296)%Z by lia.
    apply Z.mod_add. lia.
Qed.

(** Two integral seeds of magnitude up to 2^52, for which the two sums of
    the constructor are exact in binary64, build the same generator exactly
    when they differ by a multiple of 2^32. *)
Theorem new_RNG_seeds (s s' : Z) :
  (Z.abs s <= 4503599627370496)%Z ->
  (Z.abs s' <= 4503599627370496)%Z ->
  new_RNG (IZR s) = new_RNG (IZR s') <-> ((s - s') mod 4294967296 = 0)%Z.
Proof.
  intros _ _. unfold new_RNG. cbv zeta. rewrite !and32_mask.
  rewrite <- !plus_IZR, <- !minus_IZR, !truncate_IZR.
  split.
  - intros E. assert (Ew := f_equal m_w E). cbn [m_w] in Ew.
    apply ToInt32_inj in Ew.
    replace (s - s')%Z with (1234567890 + s - (1234567890 + s'))%Z by lia.
    exact Ew.
  - intros E. f_equal; apply ToInt32_inj.
    + now replace (1234567890 + s - (1234567890 + s'))%Z with (s - s')%Z by lia.
    + replace (9876543210 - s - (9876543210 - s'))%Z with (- (s - s'))%Z by lia.
      apply Z.mod_divide in E; [|lia]. apply Z.mod_divide; [lia|].
      now apply Z.divide_opp_r.
Qed.

Lemma new_RNG_seeds_witness :
  (Z.abs 0 <= 4503599627370496)%Z /\
  (Z.abs 4294967296 <= 4503599627370496)%Z /\
  (new_RNG (IZR 0) = new_RNG (IZR 4294967296)
   <-> ((0 - 4294967296) mod 4294967296 = 0)%Z).
Proof.
  assert (H1 : (Z.abs 0 <= 4503599627370496)%Z) by (cbn; lia).
  assert (H2 : (Z.abs 4294967296 <= 4503599627370496)%Z) by (cbn; lia).
  split; [exact H1|]. split; [exact H2|].
  exact (new_RNG_seeds 0 4294967296 H1 H2).
Defined.

End Seeding.

(** ** physics.ts: falling through empty space *)

Section FreeFall.
Import Physics Steps.

Lemma free_pureStep (w : World.World) (ph : Physics) (a : Player.Player) :
  Player.isLocked a = false ->
  (forall i j k, BroadSpec.inExtents a i j k -> ~ BroadSpec.occupied w i j k) ->
  snd (pureStep w (ph, a))
  = Player.set_onGround
      (Player.set_velocity a
         (mkVector3 (x (Player.velocity a))
                    (y (Player.velocity a) - gravity ph * timestep ph)
                    (z (Player.velocity a)))) false.
Proof.
  intros Hl Hfree. unfold pureStep, fall. cbn [fst snd].
  unfold Player.applyInputs. cbn [Player.isLocked Player.set_velocity].
  rewrite Hl. unfold passActor. cbv zeta.
  match goal with
  | |- context [filter (BroadSpec.keep w) (BroadSpec.cells ?p)] =>
      change (BroadSpec.cells p) with (BroadSpec.cells a);
      assert (Hnone : filter (BroadSpec.keep w) (BroadSpec.cells a) = [])
  end.
  { apply filter_nil_iff. intros [i [j k]] Hc. apply in_cells in Hc.
    destruct (BroadSpec.keep w (i, (j, k))) eqn:E; [|reflexivity].
    apply keep_occupied in E. now apply Hfree in Hc. }
  rewrite Hnone. reflexivity.
Qed.

(** Falling through empty space, pointer not locked: on a shaped grid with
    no occupied cell within the actor's extents, [n] fixed steps complete;
    they take [n * gravity * timestep] off the vertical velocity and [n]
    timesteps off the accumulator and leave the horizontal velocity and the
    position as they were. *)
Theorem steps_free_fall (n : nat) (ph : Physics) (a : Player.Player)
        (w : World.World) :
  World.shaped w ->
  Player.isLocked a = false ->
  (forall i j k, BroadSpec.inExtents a i j k -> ~ BroadSpec.occupied w i j k) ->
  exists ph' a',
    steps n ph a w = Ok (ph', a') /\
    Player.velocity a'
    = mkVector3 (x (Player.velocity a))
                (y (Player.velocity a) - INR n * (gravity ph * timestep ph))
                (z (Player.velocity a)) /\
    Player.position a' = Player.position a /\
    accumulator ph' = accumulator ph - INR n * timestep ph.
Proof.
  intros Hw Hl Hfree. rewrite (steps_eq w n Hw).
  assert (Hgen : forall n ph a,
    Player.isLocked a = false ->
    (forall i j k, BroadSpec.inExtents a i j k -> ~ BroadSpec.occupied w i j k) ->
    let s := Nat.iter n (pureStep w) (ph, a) in
    Player.velocity (snd s)
    = mkVector3 (x (Player.velocity a))
                (y (Player.velocity a) - INR n * (gravity ph * timestep ph))
                (z (Player.velocity a)) /\
    Player.position (snd s) = Player.position a /\
    Player.isLocked (snd s) = false /\
    Player.radius (snd s) = Player.radius a /\
    Player.height (snd s) = Player.height a /\
    gravity (fst s) = gravity ph /\ timestep (fst s) = timestep ph).
  { clear. intros n. induction n as [|n IH]; intros ph a Hl Hfree s.
    - subst s. cbn [Nat.iter nat_rect fst snd INR].
      repeat split; try assumption. destruct (Player.velocity a); cbn. f_equal. lra.
    - subst s. change (Nat.iter (S n) (pureStep w) (ph, a))
        with (pureStep w (Nat.iter n (pureStep w) (ph, a))).
      destruct (IH ph a Hl Hfree) as (Hv & Hp & Hl' & Hr & Hh & Hg & Ht).
      destruct (Nat.iter n (pureStep w) (ph, a)) as [ph1 a1].
      cbn [fst snd] in *.
      rewrite free_pureStep; [|assumption|].
      + cbn [Player.velocity Player.position Player.isLocked Player.radius
             Player.height Player.set_onGround Player.set_velocity].
        unfold pureStep. cbn [fst snd gravity timestep set_accumulator set_helpers].
        rewrite Hv, Hg, Ht. cbn [x y z]. rewrite S_INR.
        repeat split; try assumption. f_equal. lra.
      + intros i j k He. apply Hfree.
        unfold BroadSpec.inExtents in *. now rewrite Hp, Hr, Hh in He. }
  destruct (Hgen n ph a Hl Hfree) as (Hv & Hp & _).
  pose proof (pureStep_clock w n (ph, a)) as [_ Ha].
  destruct (Nat.iter n (pureStep w) (ph, a)) as [ph' a']. cbn [fst snd] in *.
  exists ph', a'. repeat split; assumption.
Qed.

Lemma steps_free_fall_witness :
  World.shaped Scenario.emptyWorld /\
  Player.isLocked Scenario.actor = false /\
  (forall i j k, BroadSpec.inExtents Scenario.actor i j k ->
                 ~ BroadSpec.occupied Scenario.emptyWorld i j k) /\
  exists ph' a',
    steps 3 new_Physics Scenario.actor Scenario.emptyWorld = Ok (ph', a') /\
    Player.velocity a'
    = mkVector3 (x (Player.velocity Scenario.actor))
                (y (Player.velocity Scenario.actor)
                 - INR 3 * (gravity new_Physics * timestep new_Physics))
                (z (Player.velocity Scenario.actor)) /\
    Player.position a' = Player.position Scenario.actor /\
    accumulator ph' = accumulator new_Physics - INR 3 * timestep new_Physics.
Proof.
  assert (H : forall i j k, BroadSpec.inExtents Scenario.actor i j k ->
                            ~ BroadSpec.occupied Scenario.emptyWorld i j k)
    by (intros i j k _; apply emptyWorld_free).
  split; [exact emptyWorld_shaped|]. split; [reflexivity|]. split; [exact H|].
  exact (steps_free_fall 3 new_Physics Scenario.actor Scenario.emptyWorld
           emptyWorld_shaped eq_refl H).
Defined.

End FreeFall.

(** ** The grid laws at the scene *)

Section GridWitnesses.

Local Open Scope Z_scope.

Lemma setBlockId_getBlock_witness :
  World.shaped Scenario.world /\
  exists w',
    World.setBlockId Scenario.world 2 3 4 blocks.dirt_id = Ok w' /\
    World.size w' = World.size Scenario.world /\
    World.shaped w' /\
    forall i' j' k',
      World.getBlock w' i' j' k' =
      if ((i' =? 2) && (j' =? 3) && (k' =? 4))%Z then
        b <- World.getBlock Scenario.world 2 3 4 ;;
        Ok (option_map (fun b => World.mkBlockData blocks.dirt_id
                                                   (World.instanceId b)) b)
      else World.getBlock Scenario.world i' j' k'.
Proof.
  split; [exact world_shaped|].
  exact (setBlockId_getBlock Scenario.world 2 3 4 blocks.dirt_id world_shaped).
Defined.

Lemma setBlockInstanceId_getBlock_witness :
  World.shaped Scenario.world /\
  exists w',
    World.setBlockInstanceId Scenario.world 0 1 0 7 = Ok w' /\
    World.size w' = World.size Scenario.world /\
    World.shaped w' /\
    forall i' j' k',
      World.getBlock w' i' j' k' =
      if ((i' =? 0) && (j' =? 1) && (k' =? 0))%Z then
        b <- World.getBlock Scenario.world 0 1 0 ;;
        Ok (option_map (fun b => World.mkBlockData (World.id b) 7) b)
      else World.getBlock Scenario.world i' j' k'.
Proof.
  split; [exact world_shaped|].
  exact (setBlockInstanceId_getBlock Scenario.world 0 1 0 7 world_shaped).
Defined.

Lemma isBlockObscured_iff_witness :
  World.shaped Scenario.world /\
  exists b,
    World.isBlockObscured Scenario.world 3 3 3 = Ok b /\
    (b = true <->
     BroadSpec.occupied Scenario.world 3 (3 + 1) 3 /\
     BroadSpec.occupied Scenario.world 3 (3 - 1) 3 /\
     BroadSpec.occupied Scenario.world (3 + 1) 3 3 /\
     BroadSpec.occupied Scenario.world (3 - 1) 3 3 /\
     BroadSpec.occupied Scenario.world 3 3 (3 + 1) /\
     BroadSpec.occupied Scenario.world 3 3 (3 - 1)).
Proof.
  split; [exact world_shaped|].
  exact (isBlockObscured_iff Scenario.world 3 3 3 world_shaped).
Defined.

Lemma isBlockObscured_boundary_witness :
  World.shaped Scenario.world /\
  (0 = 0 \/ 1 = 0 \/ 0 = 0 \/
   0 = World.width (World.size Scenario.world) - 1 \/
   1 = World.height (World.size Scenario.world) - 1 \/
   0 = World.width (World.size Scenario.world) - 1) /\
  World.isBlockObscured Scenario.world 0 1 0 = Ok false.
Proof.
  assert (H : 0 = 0 \/ 1 = 0 \/ 0 = 0 \/
              0 = World.width (World.size Scenario.world) - 1 \/
              1 = World.height (World.size Scenario.world) - 1 \/
              0 = World.width (World.size Scenario.world) - 1)
    by (left; reflexivity).
  split; [exact world_shaped|]. split; [exact H|].
  exact (isBlockObscured_boundary Scenario.world 0 1 0 world_shaped H).
Defined.

End GridWitnesses.

Section FreshTerrain.

Local Open Scope Z_scope.

(** A fresh terrain: whatever the grid held, initialising it and running the
    terrain pass returns a grid where every cell within bounds has instance
    id -1 and holds dirt below the height of its column, grass at the height
    and nothing above. *)
Theorem generateTerrain_fresh (simplex : R -> R -> R)
        (terrain : World.WorldTerrain) (w : World.World) :
  exists w',
    World.generateTerrain simplex terrain (World.initializeTerrain w) = Ok w' /\
    World.size w' = World.size w /\
    forall i j k,
      World.inBounds w i j k = true ->
      World.getBlock w' i j k
      = Ok (Some (World.mkBlockData
                    (let h := World.terrainHeight simplex terrain w i k in
                     if j <? h then blocks.dirt_id
                     else if j =? h then blocks.grass_id
                     else blocks.empty_id)
                    (-1))).
Proof.
  destruct (generateTerrain_terraformed simplex terrain
              (World.initializeTerrain w) (initializeTerrain_shaped w))
    as (w' & E & Hs & Hw' & H).
  exists w'. split; [exact E|]. split; [exact Hs|].
  intros i j k Hb.
  destruct (H i j k Hb) as (b & E1 & E2). cbn beta iota in E2.
  rewrite initializeTerrain_store, Hb in E1. injection E1 as <-.
  rewrite E2. reflexivity.
Qed.

End FreshTerrain.

(** ** world.ts: the resources pass *)

Section Resources.
Variable simplex3d : R -> R -> R -> R.

Local Open Scope Z_scope.

Lemma relabelled_refl (P : Z -> Z -> Z -> bool) (g : Z -> Z -> Z -> Z -> Z)
      (w : World.World) :
  World.shaped w ->
  (forall i j k, World.inBounds w i j k = true -> P i j k = false) ->
  relabelled P g w w.
Proof.
  intros Hw HP. split; [reflexivity|]. split; [assumption|].
  intros i j k Hb. destruct (getBlock_inBounds w i j k Hw Hb) as [b Eb].
  exists b. split; [assumption|]. now rewrite (HP i j k Hb).
Qed.

Lemma relabelled_ext (P P' : Z -> Z -> Z -> bool) (g : Z -> Z -> Z -> Z -> Z)
      (w w' : World.World) :
  (forall i j k, World.inBounds w i j k = true -> P i j k = P' i j k) ->
  relabelled P g w w' -> relabelled P' g w w'.
Proof.
  intros HP (Hs & Hw' & H). split; [assumption|]. split; [assumption|].
  intros i j k Hb. destruct (H i j k Hb) as (b & E1 & E2).
  exists b. split; [assumption|]. now rewrite <- (HP i j k Hb).
Qed.

Lemma relabelled_compose (P P' : Z -> Z -> Z -> bool)
      (g : Z -> Z -> Z -> Z -> Z) (w w1 w2 : World.World) :
  relabelled P g w w1 -> relabelled P' g w1 w2 ->
  (forall i j k, P i j k = true -> P' i j k = true -> False) ->
  relabelled (fun i j k => P i j k || P' i j k) g w w2.
Proof.
  intros (Hs1 & Hw1 & H1) (Hs2 & Hw2 & H2) Hdisj.
  split; [congruence|]. split; [assumption|].
  intros i j k Hb. destruct (H1 i j k Hb) as (b & E1 & E1').
  rewrite <- (inBounds_size w w1 i j k Hs1) in Hb.
  destruct (H2 i j k Hb) as (b1 & E2 & E2').
  exists b. split; [assumption|]. rewrite E2'.
  rewrite E1' in E2. injection E2 as <-.
  specialize (Hdisj i j k).
  destruct (P i j k), (P' i j k); cbn [orb]; try reflexivity.
  exfalso. now apply Hdisj.
Qed.

(** One pass after the other, each over every cell. *)
Lemma relabelled_then (g g' : Z -> Z -> Z -> Z -> Z) (w w1 w2 : World.World) :
  relabelled (fun _ _ _ => true) g w w1 ->
  relabelled (fun _ _ _ => true) g' w1 w2 ->
  relabelled (fun _ _ _ => true) (fun i j k o => g' i j k (g i j k o)) w w2.
Proof.
  intros (Hs1 & Hw1 & H1) (Hs2 & Hw2 & H2).
  split; [congruence|]. split; [assumption|].
  intros i j k Hb. destruct (H1 i j k Hb) as (b & E1 & E1').
  rewrite <- (inBounds_size w w1 i j k Hs1) in Hb.
  destruct (H2 i j k Hb) as (b1 & E2 & E2').
  exists b. split; [assumption|]. rewrite E2'.
  rewrite E1' in E2. injection E2 as <-. reflexivity.
Qed.

Lemma resourceCell_law (resource : World.Resource) (w : World.World)
      (i j k : Z) :
  World.shaped w ->
  exists w',
    World.resourceCell simplex3d resource w i j k = Ok w' /\
    relabelled (fun i' j' k' => (i' =? i) && (j' =? j) && (k' =? k))
               (resourceLabel simplex3d resource) w w'.
Proof.
  intros Hw. unfold World.resourceCell. cbv zeta.
  fold (claimed simplex3d resource i j k).
  destruct (claimed simplex3d resource i j k) eqn:Ec.
  - destruct (setBlockId_store w i j k (World.resourceId resource) Hw)
      as (w' & E & Hs & Hw' & Hget).
    exists w'. split; [assumption|]. split; [assumption|]. split; [assumption|].
    intros i' j' k' Hb. destruct (getBlock_inBounds w i' j' k' Hw Hb) as [b Eb].
    exists b. split; [assumption|]. rewrite Hget.
    destruct (Z.eqb_spec i' i), (Z.eqb_spec j' j), (Z.eqb_spec k' k);
      cbn [andb]; try assumption.
    subst. rewrite Eb. cbn [bind option_map]. unfold resourceLabel.
    now rewrite Ec.
  - exists w. split; [reflexivity|]. split; [reflexivity|]. split; [assumption|].
    intros i' j' k' Hb. destruct (getBlock_inBounds w i' j' k' Hw Hb) as [b Eb].
    exists b. split; [assumption|]. rewrite Eb. do 2 f_equal.
    destruct (Z.eqb_spec i' i), (Z.eqb_spec j' j), (Z.eqb_spec k' k);
      cbn [andb]; try reflexivity.
    subst. unfold resourceLabel. rewrite Ec. now destruct b.
Qed.

Lemma resource_z (resource : World.Resource) (i j : Z) (lk : list Z) :
  NoDup lk -> forall w, World.shaped w ->
  exists w',
    forEach lk (fun k w => World.resourceCell simplex3d resource w i j k) w
    = Ok w' /\
    relabelled (fun i' j' k' => (i' =? i) && (j' =? j) && inb k' lk)
               (resourceLabel simplex3d resource) w w'.
Proof.
  induction 1 as [|k lk Hnot Hnd IH]; intros w Hw; cbn [forEach].
  - exists w. split; [reflexivity|]. apply relabelled_refl; [assumption|].
    intros. cbn. now rewrite andb_false_r.
  - destruct (resourceCell_law resource w i j k Hw) as (w1 & E1 & T1).
    rewrite E1. cbn [bind]. pose proof T1 as (_ & Hw1 & _).
    destruct (IH w1 Hw1) as (w2 & E2 & T2).
    exists w2. split; [assumption|].
    eapply relabelled_ext;
      [|eapply relabelled_compose; [exact T1|exact T2|]].
    + intros i' j' k' _. cbn beta. rewrite inb_cons.
      destruct (i' =? i), (j' =? j), (k' =? k), (inb k' lk); reflexivity.
    + intros i' j' k' HP HP'. cbn beta in *.
      apply andb_true_iff in HP as [_ HP]. apply andb_true_iff in HP' as [_ HP'].
      apply Z.eqb_eq in HP. apply inb_In in HP'. subst. contradiction.
Qed.

Lemma resource_y (resource : World.Resource) (w0 : World.World) (i : Z)
      (lj : list Z) :
  NoDup lj -> forall w, World.shaped w -> World.size w = World.size w0 ->
  exists w',
    forEach lj
      (fun j => forRange 0 (World.width (World.size w0) - 1)
                  (fun k w => World.resourceCell simplex3d resource w i j k)) w
    = Ok w' /\
    relabelled (fun i' j' k' => (i' =? i) && inb j' lj)
               (resourceLabel simplex3d resource) w w'.
Proof.
  induction 1 as [|j lj Hnot Hnd IH]; intros w Hw Hs; cbn [forEach].
  - exists w. split; [reflexivity|]. apply relabelled_refl; [assumption|].
    intros. cbn. now rewrite andb_false_r.
  - unfold forRange at 1.
    destruct (resource_z resource i j
                (zrange 0 (World.width (World.size w0) - 1))
                (NoDup_zrange _ _) w Hw) as (w1 & E1 & T1).
    rewrite E1. cbn [bind]. pose proof T1 as (Hs1 & Hw1 & _).
    destruct (IH w1 Hw1) as (w2 & E2 & T2); [congruence|].
    exists w2. split; [assumption|].
    eapply relabelled_ext;
      [|eapply relabelled_compose; [exact T1|exact T2|]].
    + intros i' j' k' Hb. cbn beta. rewrite inb_cons.
      apply inBounds_spec in Hb. rewrite Hs in Hb.
      assert (Hk : inb k' (zrange 0 (World.width (World.size w0) - 1)) = true)
        by (apply inb_In, in_zrange; lia).
      rewrite Hk.
      destruct (i' =? i), (j' =? j), (inb j' lj); reflexivity.
    + intros i' j' k' HP HP'. cbn beta in *.
      apply andb_true_iff in HP as [HP _]. apply andb_true_iff in HP as [_ HP].
      apply andb_true_iff in HP' as [_ HP'].
      apply Z.eqb_eq in HP. apply inb_In in HP'. subst. contradiction.
Qed.

Lemma resource_x (resource : World.Resource) (w0 : World.World) (li : list Z) :
  NoDup li -> forall w, World.shaped w -> World.size w = World.size w0 ->
  exists w',
    forEach li
      (fun i =>
         forRange 0 (World.height (World.size w0) - 1)
           (fun j => forRange 0 (World.width (World.size w0) - 1)
                       (fun k w => World.resourceCell simplex3d resource w i j k)))
      w = Ok w' /\
    relabelled (fun i' j' k' => inb i' li) (resourceLabel simplex3d resource) w w'.
Proof.
  induction 1 as [|i li Hnot Hnd IH]; intros w Hw Hs; cbn [forEach].
  - exists w. split; [reflexivity|]. apply relabelled_refl; [assumption|].
    reflexivity.
  - unfold forRange at 1.
    destruct (resource_y resource w0 i
                (zrange 0 (World.height (World.size w0) - 1))
                (NoDup_zrange _ _) w Hw Hs) as (w1 & E1 & T1).
    rewrite E1. cbn [bind]. pose proof T1 as (Hs1 & Hw1 & _).
    destruct (IH w1 Hw1) as (w2 & E2 & T2); [congruence|].
    exists w2. split; [assumption|].
    eapply relabelled_ext;
      [|eapply relabelled_compose; [exact T1|exact T2|]].
    + intros i' j' k' Hb. cbn beta. rewrite inb_cons.
      apply inBounds_spec in Hb. rewrite Hs in Hb.
      assert (Hj : inb j' (zrange 0 (World.height (World.size w0) - 1)) = true)
        by (apply inb_In, in_zrange; lia).
      rewrite Hj. now rewrite andb_true_r.
    + intros i' j' k' HP HP'. cbn beta in *.
      apply andb_true_iff in HP as [HP _].
      apply Z.eqb_eq in HP. apply inb_In in HP'. subst. contradiction.
Qed.

Lemma generateResource_relabelled (resource : World.Resource) (w : World.World) :
  World.shaped w ->
  exists w',
    World.generateResource simplex3d resource w = Ok w' /\
    relabelled (fun _ _ _ => true) (resourceLabel simplex3d resource) w w'.
Proof.
  intros Hw. unfold World.generateResource. unfold forRange at 1.
  destruct (resource_x resource w (zrange 0 (World.width (World.size w) - 1))
              (NoDup_zrange _ _) w Hw eq_refl) as (w' & E & T).
  exists w'. split; [exact E|].
  eapply relabelled_ext; [|exact T].
  intros i j k Hb. cbn beta. apply inBounds_spec in Hb.
  apply inb_In, in_zrange. lia.
Qed.

Lemma generateResources_relabelled (resources : list World.Resource) :
  forall w, World.shaped w ->
  exists w',
    World.generateResources simplex3d resources w = Ok w' /\
    relabelled (fun _ _ _ => true) (resourceIdAt simplex3d resources) w w'.
Proof.
  induction resources as [|resource rest IH]; intros w Hw;
    cbn [World.generateResources].
  - exists w. split; [reflexivity|]. split; [reflexivity|]. split; [assumption|].
    intros i j k Hb. destruct (getBlock_inBounds w i j k Hw Hb) as [b Eb].
    exists b. split; [assumption|]. rewrite Eb. cbn. now destruct b.
  - destruct (generateResource_relabelled resource w Hw) as (w1 & E1 & T1).
    rewrite E1. cbn [bind]. pose proof T1 as (_ & Hw1 & _).
    destruct (IH w1 Hw1) as (w2 & E2 & T2).
    exists w2. split; [assumption|].
    exact (relabelled_then _ _ _ _ _ T1 T2).
Qed.

End Resources.

Section ResourceLaws.
Variable simplex3d : R -> R -> R -> R.

Local Open Scope Z_scope.

Lemma resourceIdAt_unclaimed (resources : list World.Resource)
      (i j k old : Z) :
  (forall r, In r resources -> claimed simplex3d r i j k = false) ->
  resourceIdAt simplex3d resources i j k old = old.
Proof.
  unfold resourceIdAt. revert old.
  induction resources as [|r rest IH]; intros old H; cbn [fold_left].
  - reflexivity.
  - rewrite (H r (or_introl eq_refl)). apply IH.
    intros r' Hr'. apply H. now right.
Qed.

Lemma resourceIdAt_last (pre post : list World.Resource) (r : World.Resource)
      (i j k old : Z) :
  claimed simplex3d r i j k = true ->
  (forall r', In r' post -> claimed simplex3d r' i j k = false) ->
  resourceIdAt simplex3d (pre ++ r :: post) i j k old = World.resourceId r.
Proof.
  intros Hr Hpost. unfold resourceIdAt.
  rewrite fold_left_app. cbn [fold_left]. rewrite Hr.
  exact (resourceIdAt_unclaimed post i j k (World.resourceId r) Hpost).
Qed.

(** On a shaped grid the resources pass completes, keeps the size and
    the shape, and leaves in every cell the id of the last resource of the
    table whose noise at the cell exceeds its scarcity (the id the cell had
    when there is none), with the instance id it had. *)
Theorem generateResources_cells (resources : list World.Resource)
        (w : World.World) :
  World.shaped w ->
  exists w',
    World.generateResources simplex3d resources w = Ok w' /\
    World.size w' = World.size w /\
    World.shaped w' /\
    forall i j k,
      World.inBounds w i j k = true ->
      exists b,
        World.getBlock w i j k = Ok (Some b) /\
        World.getBlock w' i j k
        = Ok (Some (World.mkBlockData
                      (resourceIdAt simplex3d resources i j k (World.id b))
                      (World.instanceId b))).
Proof.
  intros Hw.
  destruct (generateResources_relabelled simplex3d resources w Hw)
    as (w' & E & Hs & Hw' & H).
  exists w'. split; [exact E|]. split; [exact Hs|]. split; [exact Hw'|].
  intros i j k Hb. exact (H i j k Hb).
Qed.

(** A cell that a resource of the table claims, and no later resource
    does, ends the resources pass with the id of that resource, whatever the
    earlier resources wrote there. *)
Theorem generateResources_last_claim (pre post : list World.Resource)
        (r : World.Resource) (w : World.World) (i j k : Z) :
  World.shaped w ->
  World.inBounds w i j k = true ->
  claimed simplex3d r i j k = true ->
  (forall r', In r' post -> claimed simplex3d r' i j k = false) ->
  exists w' b,
    World.generateResources simplex3d (pre ++ r :: post) w = Ok w' /\
    World.getBlock w' i j k = Ok (Some b) /\
    World.id b = World.resourceId r.
Proof.
  intros Hw Hb Hr Hpost.
  destruct (generateResources_relabelled simplex3d (pre ++ r :: post) w Hw)
    as (w' & E & Hs & Hw' & H).
  destruct (H i j k Hb) as (b & E1 & E2).
  exists w'. eexists. split; [exact E|]. split; [exact E2|].
  cbn [World.id]. now apply resourceIdAt_last.
Qed.

(** A cell that no resource of the table claims holds after the
    resources pass the block it held before. *)
Theorem generateResources_unclaimed (resources : list World.Resource)
        (w : World.World) (i j k : Z) :
  World.shaped w ->
  World.inBounds w i j k = true ->
  (forall r, In r resources -> claimed simplex3d r i j k = false) ->
  exists w',
    World.generateResources simplex3d resources w = Ok w' /\
    World.getBlock w' i j k = World.getBlock w i j k.
Proof.
  intros Hw Hb Hno.
  destruct (generateResources_relabelled simplex3d resources w Hw)
    as (w' & E & Hs & Hw' & H).
  destruct (H i j k Hb) as (b & E1 & E2).
  exists w'. split; [exact E|]. rewrite E1, E2.
  rewrite (resourceIdAt_unclaimed resources i j k (World.id b) Hno).
  now destruct b.
Qed.

End ResourceLaws.

Lemma generateResources_cells_witness :
  World.shaped Scenario.world /\
  exists w',
    World.generateResources Scenario.wave Scenario.ores Scenario.world = Ok w' /\
    World.size w' = World.size Scenario.world /\
    World.shaped w' /\
    forall i j k,
      World.inBounds Scenario.world i j k = true ->
      exists b,
        World.getBlock Scenario.world i j k = Ok (Some b) /\
        World.getBlock w' i j k
        = Ok (Some (World.mkBlockData
                      (resourceIdAt Scenario.wave Scenario.ores i j k
                                    (World.id b))
                      (World.instanceId b))).
Proof.
  split; [exact world_shaped|].
  exact (generateResources_cells Scenario.wave Scenario.ores Scenario.world
           world_shaped).
Defined.

Lemma stone_claims : claimed Scenario.wave Scenario.stone 7 7 0 = true.
Proof.
  unfold claimed, Math.ltb, Scenario.wave, Scenario.stone.
  cbn [World.scarcity World.scaleX World.scaleY World.scaleZ].
  destruct (Rlt_dec _ _) as [_|n]; [reflexivity|]. exfalso. apply n. lra.
Qed.

Lemma coal_leaves (i j k : Z) :
  (0 <= i < 8)%Z -> (0 <= j < 8)%Z -> (0 <= k < 8)%Z ->
  claimed Scenario.wave Scenario.coal i j k = false.
Proof.
  intros Hi Hj Hk.
  unfold claimed, Math.ltb, Scenario.wave, Scenario.coal.
  cbn [World.scarcity World.scaleX World.scaleY World.scaleZ].
  destruct (Rlt_dec _ _) as [l|_]; [|reflexivity]. exfalso.
  assert (IZR i <= 7) by (apply (IZR_le i 7); lia).
  assert (IZR j <= 7) by (apply (IZR_le j 7); lia).
  assert (0 <= IZR k) by (apply (IZR_le 0 k); lia).
  lra.
Qed.

Lemma stone_leaves : claimed Scenario.wave Scenario.stone 0 0 0 = false.
Proof.
  unfold claimed, Math.ltb, Scenario.wave, Scenario.stone.
  cbn [World.scarcity World.scaleX World.scaleY World.scaleZ].
  destruct (Rlt_dec _ _) as [l|_]; [|reflexivity]. exfalso. lra.
Qed.

Lemma after_stone (r' : World.Resource) :
  In r' [Scenario.coal] -> claimed Scenario.wave r' 7 7 0 = false.
Proof.
  intros [<-|[]]. apply coal_leaves; lia.
Qed.

Lemma ores_leave (r : World.Resource) :
  In r Scenario.ores -> claimed Scenario.wave r 0 0 0 = false.
Proof.
  intros [<-|[<-|[]]]; [exact stone_leaves|apply coal_leaves; lia].
Qed.

Lemma generateResources_last_claim_witness :
  World.shaped Scenario.world /\
  World.inBounds Scenario.world 7 7 0 = true /\
  claimed Scenario.wave Scenario.stone 7 7 0 = true /\
  (forall r', In r' [Scenario.coal] ->
              claimed Scenario.wave r' 7 7 0 = false) /\
  exists w' b,
    World.generateResources Scenario.wave ([] ++ Scenario.stone :: [Scenario.coal])
                            Scenario.world = Ok w' /\
    World.getBlock w' 7 7 0 = Ok (Some b) /\
    World.id b = World.resourceId Scenario.stone.
Proof.
  split; [exact world_shaped|]. split; [reflexivity|].
  split; [exact stone_claims|]. split; [exact after_stone|].
  exact (generateResources_last_claim Scenario.wave [] [Scenario.coal]
           Scenario.stone Scenario.world 7 7 0 world_shaped eq_refl
           stone_claims after_stone).
Defined.

Lemma generateResources_unclaimed_witness :
  World.shaped Scenario.world /\
  World.inBounds Scenario.world 0 0 0 = true /\
  (forall r, In r Scenario.ores -> claimed Scenario.wave r 0 0 0 = false) /\
  exists w',
    World.generateResources Scenario.wave Scenario.ores Scenario.world = Ok w' /\
    World.getBlock w' 0 0 0 = World.getBlock Scenario.world 0 0 0.
Proof.
  split; [exact world_shaped|]. split; [reflexivity|].
  split; [exact ores_leave|].
  exact (generateResources_unclaimed Scenario.wave Scenario.ores Scenario.world
           0 0 0 world_shaped eq_refl ores_leave).
Defined.

(** ** world.ts: the meshes *)

Section MeshTable.

Local Open Scope Z_scope.

Lemma meshOf_setMesh (meshes : World.Meshes) (key key' : Z)
      (mesh : World.InstancedMesh) :
  World.meshOf (World.setMesh meshes key mesh) key'
  = if key' =? key then Some mesh else World.meshOf meshes key'.
Proof.
  induction meshes as [|[k m] rest IH]; cbn [World.setMesh World.meshOf].
  - rewrite (Z.eqb_sym key key'). reflexivity.
  - destruct (Z.eqb_spec k key) as [->|Hk]; cbn [World.meshOf].
    + rewrite (Z.eqb_sym key key'). now destruct (key' =? key).
    + rewrite IH. destruct (Z.eqb_spec k key') as [->|Hk'];
        [|reflexivity].
      destruct (Z.eqb_spec key' key); [congruence|reflexivity].
Qed.

Lemma meshOf_fold (l : list Z) (mesh : World.InstancedMesh) :
  forall (meshes : World.Meshes) (key : Z),
    World.meshOf
      (fold_left (fun meshes blockType => World.setMesh meshes blockType mesh)
                 l meshes) key
    = if inb key l then Some mesh else World.meshOf meshes key.
Proof.
  induction l as [|a l IH]; intros meshes key; cbn [fold_left].
  - reflexivity.
  - rewrite IH, meshOf_setMesh, inb_cons.
    destruct (key =? a), (inb key l); reflexivity.
Qed.

Lemma inb_filter (f : Z -> bool) (key : Z) (l : list Z) :
  inb key (filter f l) = f key && inb key l.
Proof.
  induction l as [|a l IH]; cbn [filter].
  - cbn. now rewrite andb_false_r.
  - destruct (f a) eqn:Ea; rewrite ?inb_cons, IH.
    + destruct (Z.eqb_spec key a) as [->|_]; cbn [orb].
      * now rewrite Ea.
      * reflexivity.
    + destruct (Z.eqb_spec key a) as [->|_]; cbn [orb].
      * now rewrite Ea.
      * reflexivity.
Qed.

Lemma meshOf_newMeshes (blockTypes : list Z) (key : Z) :
  World.meshOf (World.newMeshes blockTypes) key
  = if knownb blockTypes key
    then Some (World.mkInstancedMesh 0 (fun _ => None))
    else None.
Proof.
  unfold World.newMeshes. rewrite meshOf_fold, inb_filter. reflexivity.
Qed.

Lemma forCells_app {S : Type} (l1 l2 : list (Z * (Z * Z)))
      (body : Z -> Z -> Z -> S -> result S) (s : S) :
  forCells (l1 ++ l2) body s = (s' <- forCells l1 body s ;; forCells l2 body s').
Proof.
  revert s. induction l1 as [|[i [j k]] l1 IH]; intros s; cbn [forCells app bind].
  - reflexivity.
  - destruct (body i j k s); cbn [bind]; [apply IH|reflexivity|reflexivity].
Qed.

Lemma forEach_cells_z {S : Type} (body : Z -> Z -> Z -> S -> result S)
      (i j : Z) (lk : list Z) (s : S) :
  forEach lk (fun k s => body i j k s) s
  = forCells (map (pair i) (map (pair j) lk)) body s.
Proof.
  revert s. induction lk as [|k lk IH]; intros s; cbn [forEach forCells map].
  - reflexivity.
  - destruct (body i j k s); cbn [bind]; [apply IH|reflexivity|reflexivity].
Qed.

Lemma forEach_cells_y {S : Type} (body : Z -> Z -> Z -> S -> result S)
      (i : Z) (lj lk : list Z) (s : S) :
  forEach lj (fun j => forEach lk (fun k s => body i j k s)) s
  = forCells (map (pair i) (list_prod lj lk)) body s.
Proof.
  revert s. induction lj as [|j lj IH]; intros s; cbn [forEach list_prod].
  - reflexivity.
  - rewrite map_app, forCells_app, forEach_cells_z.
    destruct (forCells _ body s); cbn [bind]; [apply IH|reflexivity|reflexivity].
Qed.

Lemma forEach_cells {S : Type} (body : Z -> Z -> Z -> S -> result S)
      (li lj lk : list Z) (s : S) :
  forEach li (fun i => forEach lj (fun j => forEach lk (fun k s => body i j k s))) s
  = forCells (list_prod li (list_prod lj lk)) body s.
Proof.
  revert s. induction li as [|i li IH]; intros s; cbn [forEach list_prod].
  - reflexivity.
  - rewrite forCells_app, forEach_cells_y.
    destruct (forCells _ body s); cbn [bind]; [apply IH|reflexivity|reflexivity].
Qed.

Lemma generateMeshes_forCells (blockTypes : list Z) (w : World.World) :
  World.generateMeshes blockTypes w
  = forCells (grid w) World.meshCell (w, World.newMeshes blockTypes).
Proof.
  unfold World.generateMeshes, forRange, grid.
  exact (forEach_cells World.meshCell _ _ _ _).
Qed.

Lemma in_grid (w : World.World) (i j k : Z) :
  In (i, (j, k)) (grid w) <-> World.inBounds w i j k = true.
Proof.
  unfold grid. rewrite !in_prod_iff, !in_zrange, inBounds_spec. lia.
Qed.

Lemma NoDup_grid (w : World.World) : NoDup (grid w).
Proof.
  unfold grid. repeat apply NoDup_list_prod; apply NoDup_zrange.
Qed.

End MeshTable.

Section Meshes.
Variable blockTypes : list Z.
Variable w : World.World.
Hypothesis Hw : World.shaped w.

Local Open Scope Z_scope.

Lemma idOrEmpty_getBlock (w1 : World.World) (i j k : Z) (b : World.BlockData) :
  World.getBlock w1 i j k = Ok (Some b) ->
  World.idOrEmpty w1 i j k = Ok (World.id b).
Proof. intros E. unfold World.idOrEmpty. now rewrite E. Qed.

Lemma obscured_ids (w1 : World.World) (i j k : Z) :
  (forall i j k, World.idOrEmpty w1 i j k = World.idOrEmpty w i j k) ->
  World.isBlockObscured w1 i j k = World.isBlockObscured w i j k.
Proof. intros H. unfold World.isBlockObscured. now rewrite !H. Qed.

Lemma shown_app (blockId : Z) (l1 l2 : list (Z * (Z * Z))) :
  shown w blockId (l1 ++ l2) = shown w blockId l1 ++ shown w blockId l2.
Proof. apply filter_app. Qed.

Lemma shown_hidden (blockId i j k : Z) (done : list (Z * (Z * Z))) :
  shows w blockId (i, (j, k)) = false ->
  shown w blockId (done ++ [(i, (j, k))]) = shown w blockId done.
Proof.
  intros H. rewrite shown_app. unfold shown at 2. cbn [filter].
  rewrite H. apply app_nil_r.
Qed.

Lemma meshed_nil : meshed blockTypes w [] (w, World.newMeshes blockTypes).
Proof.
  unfold meshed; cbn [fst snd].
  split; [reflexivity|]. split; [exact Hw|]. split; [reflexivity|]. split.
  - intros i j k Hb. destruct (getBlock_inBounds w i j k Hw Hb) as [b Eb].
    exists b, b. split; [exact Eb|]. split; [exact Eb|].
    right. split; [|reflexivity]. intros [[] _].
  - intros blockId. rewrite meshOf_newMeshes.
    destruct (knownb blockTypes blockId); [|reflexivity].
    eexists. split; [reflexivity|]. cbn [World.count World.instanceMatrix].
    split; [reflexivity|]. intros n Hn. cbn in Hn. lia.
Qed.

Lemma meshed_skip (done : list (Z * (Z * Z)))
      (st : World.World * World.Meshes) (i j k : Z) :
  meshed blockTypes w done st ->
  visible w i j k = false ->
  meshed blockTypes w (done ++ [(i, (j, k))]) st.
Proof.
  intros (Hs & Hw1 & Hids & Hcells & Hmesh) Hv.
  assert (Hsh : forall blockId,
             shown w blockId (done ++ [(i, (j, k))]) = shown w blockId done).
  { intros blockId. apply shown_hidden. unfold shows. now rewrite Hv. }
  split; [exact Hs|]. split; [exact Hw1|]. split; [exact Hids|]. split.
  - intros i' j' k' Hb'.
    destruct (Hcells i' j' k' Hb') as (c & c' & Ec & Ec' & Hcase).
    exists c, c'. split; [exact Ec|]. split; [exact Ec'|].
    destruct Hcase as [(Hin & Hv' & n & En & Hnth)|(Hnot & ->)].
    + left. split; [apply in_or_app; now left|]. split; [exact Hv'|].
      exists n. split; [exact En|]. now rewrite Hsh.
    + right. split; [|reflexivity]. intros (Hin & Hv'). apply Hnot.
      split; [|exact Hv'].
      apply in_app_or in Hin as [Hin|[Heq|[]]]; [exact Hin|].
      injection Heq as -> -> ->. congruence.
  - intros blockId. specialize (Hmesh blockId). now rewrite Hsh.
Qed.

Lemma meshCell_meshed (done : list (Z * (Z * Z)))
      (st : World.World * World.Meshes) (i j k : Z) :
  meshed blockTypes w done st ->
  World.inBounds w i j k = true ->
  ~ In (i, (j, k)) done ->
  meshable blockTypes w (i, (j, k)) = true ->
  exists st',
    World.meshCell i j k st = Ok st' /\
    meshed blockTypes w (done ++ [(i, (j, k))]) st'.
Proof.
  intros Hst Hb Hnew Hable. pose proof Hst as (Hs & Hw1 & Hids & Hcells & Hmesh).
  destruct st as [w1 t]. cbn [fst snd] in *.
  destruct (Hcells i j k Hb) as (b & b' & Eb & Eb' & [(Hin & _)|(_ & ->)]);
    [contradiction|].
  pose proof (idOrEmpty_getBlock w i j k b Eb) as Hid.
  unfold meshable in Hable. rewrite Hid in Hable.
  unfold World.meshCell. rewrite Eb'. cbn [bind]. cbv zeta.
  destruct (World.id b =? blocks.empty_id) eqn:Ee; cbn [negb].
  { exists (w1, t). split; [reflexivity|]. apply meshed_skip; [exact Hst|].
    unfold visible. rewrite Hid, Ee.
    now destruct (World.isBlockObscured w i j k) as [[|]| |]. }
  cbn [orb] in Hable.
  pose proof (Hmesh (World.id b)) as Hm. rewrite Hable in Hm.
  destruct Hm as (mesh & Em & Ec & Hn). rewrite Em.
  rewrite (obscured_ids w1 i j k Hids).
  destruct (isBlockObscured_shaped w i j k Hw) as (ob & Eo & _).
  rewrite Eo. cbn [bind].
  destruct ob; cbn [negb].
  { exists (w1, t). split; [reflexivity|]. apply meshed_skip; [exact Hst|].
    unfold visible. now rewrite Hid, Eo. }
  destruct (setBlockInstanceId_store w1 i j k (World.count mesh) Hw1)
    as (w2 & E2 & Hs2 & Hw2 & Hget).
  cbn [World.setMatrixAt World.count World.instanceMatrix].
  rewrite E2. cbn [bind]. eexists. split; [reflexivity|].
  assert (Hv : visible w i j k = true).
  { unfold visible. now rewrite Hid, Eo, Ee. }
  assert (Hshows : shows w (World.id b) (i, (j, k)) = true).
  { unfold shows. now rewrite Hv, Hid, Z.eqb_refl. }
  assert (Hother : forall blockId, blockId <> World.id b ->
                     shows w blockId (i, (j, k)) = false).
  { intros blockId Hne. unfold shows. rewrite Hv, Hid. cbn [andb].
    apply Z.eqb_neq. congruence. }
  assert (Hgrow : shown w (World.id b) (done ++ [(i, (j, k))])
                  = shown w (World.id b) done ++ [(i, (j, k))]).
  { rewrite shown_app. unfold shown at 2. cbn [filter]. now rewrite Hshows. }
  unfold meshed; cbn [fst snd].
  split; [congruence|]. split; [exact Hw2|]. split; [|split].
  - intros i' j' k'. rewrite <- Hids. unfold World.idOrEmpty. rewrite Hget.
    destruct ((i' =? i) && (j' =? j) && (k' =? k)) eqn:Eq; [|reflexivity].
    apply andb_true_iff in Eq as [Eq Eq3]. apply andb_true_iff in Eq as [Eq1 Eq2].
    apply Z.eqb_eq in Eq1, Eq2, Eq3. subst i' j' k'.
    rewrite Eb'. reflexivity.
  - intros i' j' k' Hb'.
    destruct (Hcells i' j' k' Hb') as (c & c' & Ec0 & Ec' & Hcase).
    rewrite Hget.
    destruct ((i' =? i) && (j' =? j) && (k' =? k)) eqn:Eq.
    + apply andb_true_iff in Eq as [Eq Eq3].
      apply andb_true_iff in Eq as [Eq1 Eq2].
      apply Z.eqb_eq in Eq1, Eq2, Eq3. subst i' j' k'.
      rewrite Eb'. cbn [bind option_map].
      rewrite Eb in Ec0. injection Ec0 as <-.
      exists b. eexists. split; [exact Eb|]. split; [reflexivity|].
      left. split; [apply in_or_app; right; now left|]. split; [exact Hv|].
      exists (List.length (shown w (World.id b) done)).
      cbn [World.instanceId]. split; [exact Ec|].
      rewrite Hgrow, nth_error_app2 by lia. now rewrite Nat.sub_diag.
    + exists c, c'. split; [exact Ec0|]. split; [exact Ec'|].
      destruct Hcase as [(Hin & Hv' & n & En & Hnth)|(Hnot & ->)].
      * left. split; [apply in_or_app; now left|]. split; [exact Hv'|].
        exists n. split; [exact En|].
        rewrite shown_app, nth_error_app1; [exact Hnth|].
        apply nth_error_Some. congruence.
      * right. split; [|reflexivity]. intros (Hin & Hv'). apply Hnot.
        split; [|exact Hv'].
        apply in_app_or in Hin as [Hin|[Heq|[]]]; [exact Hin|].
        injection Heq as -> -> ->. rewrite !Z.eqb_refl in Eq. discriminate.
  - intros blockId. rewrite meshOf_setMesh. specialize (Hmesh blockId).
    destruct (Z.eqb_spec blockId (World.id b)) as [->|Hne].
    + rewrite Hable. eexists. split; [reflexivity|].
      cbn [World.count World.instanceMatrix]. rewrite Hgrow, length_app.
      cbn [List.length]. split; [lia|].
      intros n Hlt.
      destruct (Z.eqb_spec (Z.of_nat n) (World.count mesh)) as [En|En].
      * assert (n = List.length (shown w (World.id b) done)) by lia. subst n.
        rewrite nth_error_app2 by lia. now rewrite Nat.sub_diag.
      * assert (Hlt' : (n < List.length (shown w (World.id b) done))%nat) by lia.
        rewrite nth_error_app1 by exact Hlt'. now apply Hn.
    + rewrite (shown_hidden blockId i j k done (Hother blockId Hne)).
      exact Hmesh.
Qed.

Lemma forCells_meshed (l : list (Z * (Z * Z))) :
  forall (done : list (Z * (Z * Z))) (st : World.World * World.Meshes),
    meshed blockTypes w done st ->
    NoDup (done ++ l) ->
    (forall q, In q l -> In q (grid w) /\ meshable blockTypes w q = true) ->
    exists st',
      forCells l World.meshCell st = Ok st' /\
      meshed blockTypes w (done ++ l) st'.
Proof.
  induction l as [|[i [j k]] l IH]; intros done st Hst Hnd Hl; cbn [forCells].
  - exists st. split; [reflexivity|]. now rewrite app_nil_r.
  - destruct (Hl (i, (j, k)) (or_introl eq_refl)) as [Hg Hable].
    apply in_grid in Hg.
    assert (Hnew : ~ In (i, (j, k)) done).
    { intros Hin. apply (NoDup_remove_2 _ _ _ Hnd). apply in_or_app. now left. }
    destruct (meshCell_meshed done st i j k Hst Hg Hnew Hable) as (st1 & E1 & Hst1).
    rewrite E1. cbn [bind].
    destruct (IH (done ++ [(i, (j, k))]) st1 Hst1) as (st2 & E2 & Hst2).
    + now rewrite <- app_assoc.
    + intros q Hq. apply Hl. now right.
    + exists st2. split; [exact E2|]. now rewrite <- app_assoc in Hst2.
Qed.

Lemma known_meshable :
  (forall i j k b, World.getBlock w i j k = Ok (Some b) ->
                   World.id b <> blocks.empty_id -> In (World.id b) blockTypes) ->
  forall q, In q (grid w) -> In q (grid w) /\ meshable blockTypes w q = true.
Proof.
  intros Hknown [i [j k]] Hq. split; [exact Hq|].
  apply in_grid in Hq. destruct (getBlock_inBounds w i j k Hw Hq) as [b Eb].
  unfold meshable. rewrite (idOrEmpty_getBlock w i j k b Eb).
  unfold knownb.
  destruct (Z.eqb_spec (World.id b) blocks.empty_id) as [|Hne]; [reflexivity|].
  cbn [orb negb andb]. apply inb_In. exact (Hknown i j k b Eb Hne).
Qed.

Lemma generateMeshes_meshed :
  (forall i j k b, World.getBlock w i j k = Ok (Some b) ->
                   World.id b <> blocks.empty_id -> In (World.id b) blockTypes) ->
  exists st,
    World.generateMeshes blockTypes w = Ok st /\
    meshed blockTypes w (grid w) st.
Proof.
  intros Hknown. rewrite generateMeshes_forCells.
  exact (forCells_meshed (grid w) [] _ meshed_nil (NoDup_grid w)
           (known_meshable Hknown)).
Qed.

End Meshes.

Section MeshLaws.

Local Open Scope Z_scope.

Lemma visible_occupied (w : World.World) (i j k : Z) (b : World.BlockData) :
  World.getBlock w i j k = Ok (Some b) ->
  visible w i j k = true ->
  World.id b <> blocks.empty_id.
Proof.
  intros Eb Hv. unfold visible in Hv.
  rewrite (idOrEmpty_getBlock w i j k b Eb) in Hv.
  destruct (World.isBlockObscured w i j k) as [[|]| |]; try discriminate.
  apply negb_true_iff, Z.eqb_neq in Hv. exact Hv.
Qed.

Lemma known_knownb (blockTypes : list Z) (blockId : Z) :
  blockId <> blocks.empty_id -> In blockId blockTypes ->
  knownb blockTypes blockId = true.
Proof.
  intros Hne Hin. unfold knownb. apply andb_true_iff. split.
  - now apply negb_true_iff, Z.eqb_neq.
  - now apply inb_In.
Qed.

(** The mesh pass, cell by cell.  On a shaped grid whose blocks all have a
    mesh, [generateMeshes] completes and keeps the size, the shape and every
    block id.  A block that shows (it is not empty and not obscured) ends
    with an instance id that is a valid index of the mesh of its id, and the
    matrix of that instance is placed at the block's own cell; every other
    block is left as it was. *)
Theorem generateMeshes_cells (blockTypes : list Z) (w : World.World) :
  World.shaped w ->
  (forall i j k b, World.getBlock w i j k = Ok (Some b) ->
                   World.id b <> blocks.empty_id -> In (World.id b) blockTypes) ->
  exists w' meshes,
    World.generateMeshes blockTypes w = Ok (w', meshes) /\
    World.size w' = World.size w /\
    World.shaped w' /\
    forall i j k,
      World.inBounds w i j k = true ->
      exists b b',
        World.getBlock w i j k = Ok (Some b) /\
        World.getBlock w' i j k = Ok (Some b') /\
        World.id b' = World.id b /\
        if visible w i j k
        then exists mesh,
            World.meshOf meshes (World.id b) = Some mesh /\
            0 <= World.instanceId b' < World.count mesh /\
            World.instanceMatrix mesh (World.instanceId b') = Some (i, (j, k))
        else b' = b.
Proof.
  intros Hw Hknown.
  destruct (generateMeshes_meshed blockTypes w Hw Hknown)
    as ([w' meshes] & E & Hs & Hw' & Hids & Hcells & Hmesh).
  cbn [fst snd] in *.
  exists w', meshes. split; [exact E|]. split; [exact Hs|]. split; [exact Hw'|].
  intros i j k Hb.
  destruct (Hcells i j k Hb) as (b & b' & Eb & Eb' & Hcase).
  exists b, b'. split; [exact Eb|]. split; [exact Eb'|].
  assert (Hid : World.id b' = World.id b).
  { pose proof (Hids i j k) as H.
    rewrite (idOrEmpty_getBlock w' i j k b' Eb'),
            (idOrEmpty_getBlock w i j k b Eb) in H.
    now injection H. }
  split; [exact Hid|].
  destruct Hcase as [(Hin & Hv & n & En & Hnth)|(Hnot & ->)].
  - rewrite Hv.
    pose proof (Hmesh (World.id b)) as Hm.
    rewrite (known_knownb blockTypes (World.id b)
               (visible_occupied w i j k b Eb Hv)
               (Hknown i j k b Eb (visible_occupied w i j k b Eb Hv))) in Hm.
    destruct Hm as (mesh & Em & Ec & Hn).
    assert (Hlt : (n < List.length (shown w (World.id b) (grid w)))%nat).
    { apply nth_error_Some. congruence. }
    exists mesh. split; [exact Em|]. split; [lia|].
    rewrite En, (Hn n Hlt). exact Hnth.
  - destruct (visible w i j k) eqn:Hv; [|reflexivity].
    exfalso. apply Hnot. split; [|reflexivity]. now apply in_grid.
Qed.

(** The meshes after the pass: on a shaped grid whose blocks all have a
    mesh, the mesh of each block type counts the blocks of that type that
    show, and its instances are at their cells, in the order of the scan. *)
Theorem generateMeshes_count (blockTypes : list Z) (w : World.World)
        (blockId : Z) :
  World.shaped w ->
  (forall i j k b, World.getBlock w i j k = Ok (Some b) ->
                   World.id b <> blocks.empty_id -> In (World.id b) blockTypes) ->
  In blockId blockTypes ->
  blockId <> blocks.empty_id ->
  exists w' meshes mesh,
    World.generateMeshes blockTypes w = Ok (w', meshes) /\
    World.meshOf meshes blockId = Some mesh /\
    World.count mesh = Z.of_nat (List.length (shown w blockId (grid w))) /\
    forall n, (n < List.length (shown w blockId (grid w)))%nat ->
              World.instanceMatrix mesh (Z.of_nat n)
              = nth_error (shown w blockId (grid w)) n.
Proof.
  intros Hw Hknown Hin Hne.
  destruct (generateMeshes_meshed blockTypes w Hw Hknown)
    as ([w' meshes] & E & Hs & Hw' & Hids & Hcells & Hmesh).
  cbn [fst snd] in *.
  pose proof (Hmesh blockId) as Hm.
  rewrite (known_knownb blockTypes blockId Hne Hin) in Hm.
  destruct Hm as (mesh & Em & Ec & Hn).
  exists w', meshes, mesh. split; [exact E|]. split; [exact Em|].
  split; [exact Ec|]. exact Hn.
Qed.

Lemma first_failure {A : Type} (f : A -> bool) (l : list A) (a : A) :
  In a l -> f a = false ->
  exists pre q post,
    l = pre ++ q :: post /\ f q = false /\ forall p, In p pre -> f p = true.
Proof.
  induction l as [|x l IH]; intros Hin Hf; [contradiction|].
  destruct (f x) eqn:Ex.
  - destruct Hin as [->|Hin]; [congruence|].
    destruct (IH Hin Hf) as (pre & q & post & -> & Hq & Hpre).
    exists (x :: pre), q, post. split; [reflexivity|]. split; [exact Hq|].
    intros p [<-|Hp]; [exact Ex|now apply Hpre].
  - exists [], x, l. split; [reflexivity|]. split; [exact Ex|].
    intros p [].
Qed.

(** A block without a mesh stops the pass: on a shaped grid holding, within
    bounds, a non-empty block whose id is not among the block types,
    [generateMeshes] throws. *)
Theorem generateMeshes_unknown_id (blockTypes : list Z) (w : World.World)
        (i j k : Z) (b : World.BlockData) :
  World.shaped w ->
  World.inBounds w i j k = true ->
  World.getBlock w i j k = Ok (Some b) ->
  World.id b <> blocks.empty_id ->
  ~ In (World.id b) blockTypes ->
  World.generateMeshes blockTypes w = TypeError.
Proof.
  intros Hw Hb Eb Hne Hnot.
  assert (Hbad : meshable blockTypes w (i, (j, k)) = false).
  { unfold meshable. rewrite (idOrEmpty_getBlock w i j k b Eb).
    unfold knownb. apply orb_false_iff. split; [now apply Z.eqb_neq|].
    apply andb_false_iff. right.
    destruct (inb (World.id b) blockTypes) eqn:Ei; [|reflexivity].
    apply inb_In in Ei. contradiction. }
  destruct (first_failure (meshable blockTypes w) (grid w) (i, (j, k))
              (proj2 (in_grid w i j k) Hb) Hbad)
    as (pre & [i' [j' k']] & post & Hsplit & Hq & Hpre).
  pose proof (NoDup_grid w) as Hnd. rewrite Hsplit in Hnd.
  assert (Hg : World.inBounds w i' j' k' = true).
  { apply in_grid. rewrite Hsplit. apply in_or_app. right. now left. }
  destruct (forCells_meshed blockTypes w Hw pre [] (w, World.newMeshes blockTypes)
              (meshed_nil blockTypes w Hw))
    as ([w1 t] & E1 & Hst).
  { cbn [app]. exact (NoDup_app_remove_r _ _ Hnd). }
  { intros q Hin. split; [|now apply Hpre].
    rewrite Hsplit. apply in_or_app. now left. }
  rewrite generateMeshes_forCells, Hsplit, forCells_app, E1.
  cbn [bind forCells app].
  destruct Hst as (Hs & Hw1 & Hids & Hcells & Hmesh). cbn [fst snd app] in *.
  destruct (Hcells i' j' k' Hg) as (c & c' & Ec & Ec' & [(Hin & _)|(_ & ->)]).
  { exfalso. apply (NoDup_remove_2 _ _ _ Hnd). apply in_or_app. now left. }
  unfold meshable in Hq. rewrite (idOrEmpty_getBlock w i' j' k' c Ec) in Hq.
  apply orb_false_iff in Hq as [Hq1 Hq2].
  unfold World.meshCell. rewrite Ec'. cbn [bind]. cbv zeta.
  rewrite Hq1. cbn [negb].
  pose proof (Hmesh (World.id c)) as Hm. rewrite Hq2 in Hm. rewrite Hm.
  reflexivity.
Qed.

Lemma shows_ids (w w' : World.World) (blockId : Z) (q : Z * (Z * Z)) :
  (forall i j k, World.idOrEmpty w' i j k = World.idOrEmpty w i j k) ->
  shows w' blockId q = shows w blockId q.
Proof.
  intros H. destruct q as [i [j k]]. unfold shows, visible.
  now rewrite H, (obscured_ids w w' i j k H).
Qed.

Lemma shown_ids (w w' : World.World) (blockId : Z) (l : list (Z * (Z * Z))) :
  (forall i j k, World.idOrEmpty w' i j k = World.idOrEmpty w i j k) ->
  shown w' blockId l = shown w blockId l.
Proof.
  intros H. unfold shown. apply filter_ext. intros q. now apply shows_ids.
Qed.

(** Running the mesh pass again changes no block: on a shaped grid whose
    blocks all have a mesh, a second [generateMeshes] on the grid the first
    one left completes and every cell reads as after the first. *)
Theorem generateMeshes_twice (blockTypes : list Z) (w : World.World) :
  World.shaped w ->
  (forall i j k b, World.getBlock w i j k = Ok (Some b) ->
                   World.id b <> blocks.empty_id -> In (World.id b) blockTypes) ->
  exists w1 meshes1 w2 meshes2,
    World.generateMeshes blockTypes w = Ok (w1, meshes1) /\
    World.generateMeshes blockTypes w1 = Ok (w2, meshes2) /\
    forall i j k, World.getBlock w2 i j k = World.getBlock w1 i j k.
Proof.
  intros Hw Hknown.
  destruct (generateMeshes_meshed blockTypes w Hw Hknown)
    as ([w1 meshes1] & E1 & Hs1 & Hw1 & Hids1 & Hcells1 & Hmesh1).
  cbn [fst snd] in *.
  assert (Hknown1 : forall i j k b, World.getBlock w1 i j k = Ok (Some b) ->
            World.id b <> blocks.empty_id -> In (World.id b) blockTypes).
  { intros i j k b Eb Hne.
    assert (Hb : World.inBounds w i j k = true).
    { rewrite <- (inBounds_size w w1 i j k Hs1).
      unfold World.getBlock in Eb.
      destruct (World.inBounds w1 i j k); [reflexivity|discriminate]. }
    destruct (Hcells1 i j k Hb) as (c & c' & Ec & Ec' & _).
    rewrite Eb in Ec'. injection Ec' as <-.
    pose proof (Hids1 i j k) as H.
    rewrite (idOrEmpty_getBlock w1 i j k b Eb),
            (idOrEmpty_getBlock w i j k c Ec) in H.
    injection H as H. rewrite H in *. exact (Hknown i j k c Ec Hne). }
  destruct (generateMeshes_meshed blockTypes w1 Hw1 Hknown1)
    as ([w2 meshes2] & E2 & Hs2 & Hw2 & Hids2 & Hcells2 & Hmesh2).
  cbn [fst snd] in *.
  exists w1, meshes1, w2, meshes2. split; [exact E1|]. split; [exact E2|].
  intros i j k.
  destruct (World.inBounds w i j k) eqn:Hb.
  - assert (Hb1 : World.inBounds w1 i j k = true)
      by now rewrite (inBounds_size w w1 i j k Hs1).
    destruct (Hcells1 i j k Hb) as (b & b1 & Eb & Eb1 & Hcase1).
    destruct (Hcells2 i j k Hb1) as (c1 & b2 & Ec1 & Eb2 & Hcase2).
    rewrite Eb1 in Ec1. injection Ec1 as <-.
    rewrite Eb2, Eb1. do 2 f_equal.
    destruct Hcase2 as [(Hin2 & Hv2 & n2 & En2 & Hnth2)|(_ & ->)];
      [|reflexivity].
    assert (Hid1 : World.id b1 = World.id b).
    { pose proof (Hids1 i j k) as H.
      rewrite (idOrEmpty_getBlock w1 i j k b1 Eb1),
              (idOrEmpty_getBlock w i j k b Eb) in H.
      now injection H. }
    assert (Hid2 : World.id b2 = World.id b1).
    { pose proof (Hids2 i j k) as H.
      rewrite (idOrEmpty_getBlock w2 i j k b2 Eb2),
              (idOrEmpty_getBlock w1 i j k b1 Eb1) in H.
      now injection H. }
    assert (Hv : visible w i j k = true).
    { unfold visible in *. now rewrite <- Hids1, <- (obscured_ids w w1 i j k Hids1). }
    destruct Hcase1 as [(Hin1 & _ & n1 & En1 & Hnth1)|(Hnot & _)].
    + assert (Hgrid : grid w1 = grid w) by (unfold grid; now rewrite Hs1).
      rewrite Hgrid, (shown_ids w w1 _ _ Hids1), Hid1 in Hnth2.
      assert (Hnd : NoDup (shown w (World.id b) (grid w))).
      { unfold shown. apply NoDup_filter, NoDup_grid. }
      assert (Hn : n2 = n1).
      { apply (proj1 (NoDup_nth_error _) Hnd).
        - apply nth_error_Some. congruence.
        - congruence. }
      destruct b1 as [id1 inst1], b2 as [id2 inst2].
      cbn [World.id World.instanceId] in *. f_equal; [congruence|lia].
    + exfalso. apply Hnot. split; [now apply in_grid|exact Hv].
  - assert (Hb1 : World.inBounds w1 i j k = false)
      by now rewrite (inBounds_size w w1 i j k Hs1).
    assert (Hb2 : World.inBounds w2 i j k = false)
      by now rewrite (inBounds_size w1 w2 i j k Hs2).
    unfold World.getBlock. now rewrite Hb1, Hb2.
Qed.

End MeshLaws.

(** ** world.ts: the whole of [generate] *)

Section Generate.
Variable simplex3d : R -> R -> R -> R.
Variable simplex : R -> R -> R.

Local Open Scope Z_scope.

Lemma resourceIdAt_cases (resources : list World.Resource) (i j k : Z) :
  forall old,
    resourceIdAt simplex3d resources i j k old = old \/
    exists r, In r resources /\
              resourceIdAt simplex3d resources i j k old = World.resourceId r.
Proof.
  unfold resourceIdAt.
  induction resources as [|r rest IH]; intros old; cbn [fold_left].
  - now left.
  - destruct (IH (if claimed simplex3d r i j k then World.resourceId r else old))
      as [E|(r' & Hin & E)].
    + rewrite E. destruct (claimed simplex3d r i j k).
      * right. exists r. split; [now left|reflexivity].
      * now left.
    + right. exists r'. split; [now right|exact E].
Qed.

Lemma terrainId_cases (h j old : Z) :
  terrainId h j old = old \/ terrainId h j old = blocks.dirt_id \/
  terrainId h j old = blocks.grass_id \/ terrainId h j old = blocks.empty_id.
Proof.
  unfold terrainId.
  destruct (j <? h); [destruct (old =? blocks.empty_id)|destruct (j =? h)]; tauto.
Qed.

(** The block ids [generate] leaves, by cell. *)
Lemma generate_data (resources : list World.Resource)
      (terrain : World.WorldTerrain) (hideTerrain : bool) (w : World.World) :
  exists w1 w2,
    World.generateResources simplex3d resources (World.initializeTerrain w)
    = Ok w1 /\
    (if negb hideTerrain then World.generateTerrain simplex terrain w1
     else Ok w1) = Ok w2 /\
    World.size w2 = World.size w /\
    World.shaped w2 /\
    forall i j k,
      World.inBounds w i j k = true ->
      World.getBlock w2 i j k
      = Ok (Some (World.mkBlockData
                    (let ore := resourceIdAt simplex3d resources i j k
                                             blocks.empty_id in
                     if hideTerrain then ore
                     else terrainId (World.terrainHeight simplex terrain w i k)
                                    j ore)
                    (-1))).
Proof.
  destruct (generateResources_relabelled simplex3d resources
              (World.initializeTerrain w) (initializeTerrain_shaped w))
    as (w1 & E1 & Hs1 & Hw1 & H1).
  assert (Hcell1 : forall i j k, World.inBounds w i j k = true ->
            World.getBlock w1 i j k
            = Ok (Some (World.mkBlockData
                          (resourceIdAt simplex3d resources i j k blocks.empty_id)
                          (-1)))).
  { intros i j k Hb.
    assert (Hb0 : World.inBounds (World.initializeTerrain w) i j k = true)
      by exact Hb.
    destruct (H1 i j k Hb0) as (b & Eb & Eb1).
    rewrite initializeTerrain_store, Hb in Eb. injection Eb as <-.
    exact Eb1. }
  destruct hideTerrain; cbn [negb].
  - exists w1, w1. split; [exact E1|]. split; [reflexivity|].
    split; [exact Hs1|]. split; [exact Hw1|]. exact Hcell1.
  - destruct (generateTerrain_terraformed simplex terrain w1 Hw1)
      as (w2 & E2 & Hs2 & Hw2 & H2).
    exists w1, w2. split; [exact E1|]. split; [exact E2|].
    split; [rewrite Hs2, Hs1; reflexivity|]. split; [exact Hw2|].
    intros i j k Hb.
    assert (Hb1 : World.inBounds w1 i j k = true).
    { rewrite (inBounds_size (World.initializeTerrain w) w1 i j k Hs1).
      exact Hb. }
    destruct (H2 i j k Hb1) as (b1 & Eb1 & Eb2).
    rewrite (Hcell1 i j k Hb) in Eb1. injection Eb1 as <-.
    rewrite Eb2. cbn beta iota zeta. cbn [World.id World.instanceId].
    rewrite (terrainHeight_size simplex terrain w1 w)
      by (rewrite Hs1; reflexivity).
    reflexivity.
Qed.

(** [generate] as a whole, from any grid.  When each resource id, and with
    the terrain shown grass and dirt too, is among the block types, the
    method completes: the grid keeps its size, and each cell holds, below
    the terrain height, the last resource that claims the cell, or dirt when
    none does; at the height grass; above it nothing.  With the terrain
    hidden each cell holds the last resource that claims it, or nothing. *)
Theorem generate_ids (resources : list World.Resource) (blockTypes : list Z)
        (terrain : World.WorldTerrain) (hideTerrain : bool) (w : World.World) :
  (hideTerrain = false ->
   In blocks.grass_id blockTypes /\ In blocks.dirt_id blockTypes) ->
  (forall r, In r resources ->
             World.resourceId r <> blocks.empty_id ->
             In (World.resourceId r) blockTypes) ->
  exists w' meshes,
    World.generate simplex3d simplex resources blockTypes terrain hideTerrain w
    = Ok (w', meshes) /\
    World.size w' = World.size w /\
    World.shaped w' /\
    forall i j k,
      World.inBounds w i j k = true ->
      exists b,
        World.getBlock w' i j k = Ok (Some b) /\
        World.id b
        = let ore := resourceIdAt simplex3d resources i j k blocks.empty_id in
          if hideTerrain then ore
          else terrainId (World.terrainHeight simplex terrain w i k) j ore.
Proof.
  intros Hterrain Hres.
  destruct (generate_data resources terrain hideTerrain w)
    as (w1 & w2 & E1 & E2 & Hs2 & Hw2 & Hcell).
  assert (Hore : forall i j k,
            resourceIdAt simplex3d resources i j k blocks.empty_id
            <> blocks.empty_id ->
            In (resourceIdAt simplex3d resources i j k blocks.empty_id)
               blockTypes).
  { intros i j k Hne.
    destruct (resourceIdAt_cases resources i j k blocks.empty_id)
      as [E|(r & Hin & E)]; [contradiction|].
    rewrite E in *. now apply Hres. }
  assert (Hknown : forall i j k b, World.getBlock w2 i j k = Ok (Some b) ->
            World.id b <> blocks.empty_id -> In (World.id b) blockTypes).
  { intros i j k b Eb Hne.
    assert (Hb : World.inBounds w i j k = true).
    { rewrite <- (inBounds_size w w2 i j k Hs2).
      unfold World.getBlock in Eb.
      destruct (World.inBounds w2 i j k); [reflexivity|discriminate]. }
    rewrite (Hcell i j k Hb) in Eb. injection Eb as <-.
    cbn [World.id] in *. cbv zeta in *.
    destruct hideTerrain; [now apply Hore|].
    destruct (Hterrain eq_refl) as [Hgrass Hdirt].
    destruct (terrainId_cases (World.terrainHeight simplex terrain w i k) j
                (resourceIdAt simplex3d resources i j k blocks.empty_id))
      as [E|[E|[E|E]]]; rewrite E in *.
    - now apply Hore.
    - exact Hdirt.
    - exact Hgrass.
    - contradiction. }
  destruct (generateMeshes_meshed blockTypes w2 Hw2 Hknown)
    as ([w' meshes] & E3 & Hs3 & Hw3 & Hids & Hcells & _).
  cbn [fst snd] in *.
  exists w', meshes. split.
  { unfold World.generate. cbv zeta. rewrite E1. cbn [bind].
    rewrite E2. cbn [bind]. exact E3. }
  split; [congruence|]. split; [exact Hw3|].
  intros i j k Hb.
  assert (Hb2 : World.inBounds w2 i j k = true)
    by now rewrite (inBounds_size w w2 i j k Hs2).
  destruct (Hcells i j k Hb2) as (b & b' & Eb & Eb' & _).
  exists b'. split; [exact Eb'|].
  pose proof (Hids i j k) as H.
  rewrite (idOrEmpty_getBlock w' i j k b' Eb'),
          (idOrEmpty_getBlock w2 i j k b Eb) in H.
  injection H as ->.
  rewrite (Hcell i j k Hb) in Eb. injection Eb as <-. reflexivity.
Qed.

End Generate.

(** *** The laws at the scenario *)

Section MeshWitnesses.

Local Open Scope Z_scope.

Lemma world_blocks (i j k : Z) (b : World.BlockData) :
  World.getBlock Scenario.world i j k = Ok (Some b) ->
  World.id b <> blocks.empty_id ->
  In (World.id b) Scenario.blockTypes.
Proof.
  intros Eb Hne.
  destruct (setBlockId_store
              (World.initializeTerrain (World.mkWorld (World.mkWorldSize 8 8) []))
              0 1 0 blocks.grass_id (initializeTerrain_shaped _))
    as (w' & E & _ & _ & Hget).
  rewrite world_built in E. injection E as <-.
  rewrite Hget, !initializeTerrain_store in Eb.
  destruct ((i =? 0) && (j =? 1) && (k =? 0)).
  - cbn in Eb. injection Eb as <-. cbn. tauto.
  - destruct (World.inBounds _ i j k); [|discriminate].
    injection Eb as <-. now contradiction Hne.
Qed.

Lemma generateMeshes_cells_witness :
  World.shaped Scenario.world /\
  (forall i j k b, World.getBlock Scenario.world i j k = Ok (Some b) ->
                   World.id b <> blocks.empty_id ->
                   In (World.id b) Scenario.blockTypes) /\
  exists w' meshes,
    World.generateMeshes Scenario.blockTypes Scenario.world = Ok (w', meshes) /\
    World.size w' = World.size Scenario.world /\
    World.shaped w' /\
    forall i j k,
      World.inBounds Scenario.world i j k = true ->
      exists b b',
        World.getBlock Scenario.world i j k = Ok (Some b) /\
        World.getBlock w' i j k = Ok (Some b') /\
        World.id b' = World.id b /\
        if visible Scenario.world i j k
        then exists mesh,
            World.meshOf meshes (World.id b) = Some mesh /\
            0 <= World.instanceId b' < World.count mesh /\
            World.instanceMatrix mesh (World.instanceId b') = Some (i, (j, k))
        else b' = b.
Proof.
  split; [exact world_shaped|]. split; [exact world_blocks|].
  exact (generateMeshes_cells Scenario.blockTypes Scenario.world
           world_shaped world_blocks).
Defined.

Lemma generateMeshes_count_witness :
  World.shaped Scenario.world /\
  (forall i j k b, World.getBlock Scenario.world i j k = Ok (Some b) ->
                   World.id b <> blocks.empty_id ->
                   In (World.id b) Scenario.blockTypes) /\
  In blocks.grass_id Scenario.blockTypes /\
  blocks.grass_id <> blocks.empty_id /\
  exists w' meshes mesh,
    World.generateMeshes Scenario.blockTypes Scenario.world = Ok (w', meshes) /\
    World.meshOf meshes blocks.grass_id = Some mesh /\
    World.count mesh
    = Z.of_nat (List.length (shown Scenario.world blocks.grass_id
                                   (grid Scenario.world))) /\
    forall n,
      (n < List.length (shown Scenario.world blocks.grass_id
                              (grid Scenario.world)))%nat ->
      World.instanceMatrix mesh (Z.of_nat n)
      = nth_error (shown Scenario.world blocks.grass_id (grid Scenario.world)) n.
Proof.
  assert (H1 : In blocks.grass_id Scenario.blockTypes) by (cbn; tauto).
  assert (H2 : blocks.grass_id <> blocks.empty_id) by discriminate.
  split; [exact world_shaped|]. split; [exact world_blocks|].
  split; [exact H1|]. split; [exact H2|].
  exact (generateMeshes_count Scenario.blockTypes Scenario.world blocks.grass_id
           world_shaped world_blocks H1 H2).
Defined.

Lemma grass_unknown :
  ~ In (World.id (World.mkBlockData blocks.grass_id (-1)))
       [blocks.empty_id; blocks.dirt_id].
Proof. cbn. intros [H|[H|[]]]; discriminate. Qed.

Lemma generateMeshes_unknown_id_witness :
  World.shaped Scenario.world /\
  World.inBounds Scenario.world 0 1 0 = true /\
  World.getBlock Scenario.world 0 1 0
  = Ok (Some (World.mkBlockData blocks.grass_id (-1))) /\
  World.id (World.mkBlockData blocks.grass_id (-1)) <> blocks.empty_id /\
  ~ In (World.id (World.mkBlockData blocks.grass_id (-1)))
       [blocks.empty_id; blocks.dirt_id] /\
  World.generateMeshes [blocks.empty_id; blocks.dirt_id] Scenario.world
  = TypeError.
Proof.
  assert (H : World.id (World.mkBlockData blocks.grass_id (-1))
              <> blocks.empty_id) by discriminate.
  split; [exact world_shaped|]. split; [reflexivity|]. split; [reflexivity|].
  split; [exact H|]. split; [exact grass_unknown|].
  exact (generateMeshes_unknown_id [blocks.empty_id; blocks.dirt_id]
           Scenario.world 0 1 0 _ world_shaped eq_refl eq_refl H grass_unknown).
Defined.

Lemma generateMeshes_twice_witness :
  World.shaped Scenario.world /\
  (forall i j k b, World.getBlock Scenario.world i j k = Ok (Some b) ->
                   World.id b <> blocks.empty_id ->
                   In (World.id b) Scenario.blockTypes) /\
  exists w1 meshes1 w2 meshes2,
    World.generateMeshes Scenario.blockTypes Scenario.world = Ok (w1, meshes1) /\
    World.generateMeshes Scenario.blockTypes w1 = Ok (w2, meshes2) /\
    forall i j k, World.getBlock w2 i j k = World.getBlock w1 i j k.
Proof.
  split; [exact world_shaped|]. split; [exact world_blocks|].
  exact (generateMeshes_twice Scenario.blockTypes Scenario.world
           world_shaped world_blocks).
Defined.

Lemma terrain_types :
  false = false ->
  In blocks.grass_id Scenario.allTypes /\ In blocks.dirt_id Scenario.allTypes.
Proof. intros _. cbn. tauto. Qed.

Lemma ores_types (r : World.Resource) :
  In r Scenario.ores ->
  World.resourceId r <> blocks.empty_id ->
  In (World.resourceId r) Scenario.allTypes.
Proof. intros [<-|[<-|[]]] _; cbn; tauto. Qed.

Lemma generate_ids_witness :
  (false = false ->
   In blocks.grass_id Scenario.allTypes /\ In blocks.dirt_id Scenario.allTypes) /\
  (forall r, In r Scenario.ores ->
             World.resourceId r <> blocks.empty_id ->
             In (World.resourceId r) Scenario.allTypes) /\
  exists w' meshes,
    World.generate Scenario.wave Scenario.slope Scenario.ores Scenario.allTypes
                   Scenario.defaultTerrain false Scenario.world
    = Ok (w', meshes) /\
    World.size w' = World.size Scenario.world /\
    World.shaped w' /\
    forall i j k,
      World.inBounds Scenario.world i j k = true ->
      exists b,
        World.getBlock w' i j k = Ok (Some b) /\
        World.id b
        = let ore := resourceIdAt Scenario.wave Scenario.ores i j k
                                  blocks.empty_id in
          if false then ore
          else terrainId (World.terrainHeight Scenario.slope
                            Scenario.defaultTerrain Scenario.world i k) j ore.
Proof.
  split; [exact terrain_types|]. split; [exact ores_types|].
  exact (generate_ids Scenario.wave Scenario.slope Scenario.ores
           Scenario.allTypes Scenario.defaultTerrain false Scenario.world
           terrain_types ores_types).
Defined.

End MeshWitnesses.

(** * Where rounding decides: the clock and the narrow phase in binary64 *)

(** ** Signs in the specification of binary64 *)

Section SpecSigns.
Import SpecFloat.
Local Open Scope Z_scope.

(** Shifting and rounding a mantissa that is not negative gives one that is
    not negative, so a rounded result carries the sign it was given. *)
Lemma shr_1_nonneg (mrs : shr_record) : 0 <= shr_m mrs -> 0 <= shr_m (shr_1 mrs).
Proof.
  destruct mrs as [m r s]. cbn [shr_m]. intros H.
  destruct m as [|[p|p|]|p]; cbn; lia.
Qed.

Lemma iter_pos_invariant {A : Type} (P : A -> Prop) (f : A -> A) :
  (forall x, P x -> P (f x)) ->
  forall n x, P x -> P (iter_pos f n x).
Proof.
  intros Hf. induction n as [n IH|n IH|]; intros x Hx; cbn [iter_pos].
  - apply IH, IH, Hf, Hx.
  - apply IH, IH, Hx.
  - apply Hf, Hx.
Qed.

Lemma shr_nonneg (mrs : shr_record) (e n : Z) :
  0 <= shr_m mrs -> 0 <= shr_m (fst (shr mrs e n)).
Proof.
  intros H. unfold shr. destruct n as [|p|p]; cbn [fst]; try assumption.
  apply (iter_pos_invariant (fun r => 0 <= shr_m r)); [apply shr_1_nonneg|assumption].
Qed.

Lemma shr_fexp_nonneg (m e : Z) (l : location) :
  0 <= m -> 0 <= shr_m (fst (shr_fexp FloatOps.prec FloatOps.emax m e l)).
Proof.
  intros H. unfold shr_fexp. apply shr_nonneg.
  destruct l as [|[| |]]; exact H.
Qed.

Lemma round_nearest_even_nonneg (m : Z) (l : location) :
  0 <= m -> 0 <= round_nearest_even m l.
Proof.
  intros H. destruct l as [|[| |]]; cbn [round_nearest_even]; try lia.
  destruct (Z.even m); lia.
Qed.

Lemma binary_round_aux_signed (sx : bool) (mx ex : Z) (lx : location) :
  0 <= mx -> Binary64.signed sx (binary_round_aux FloatOps.prec FloatOps.emax sx mx ex lx).
Proof.
  intros H. unfold binary_round_aux.
  pose proof (shr_fexp_nonneg mx ex lx H) as H1.
  destruct (shr_fexp FloatOps.prec FloatOps.emax mx ex lx) as [mrs' e']. cbn [fst] in H1.
  pose proof (shr_fexp_nonneg
                (round_nearest_even (shr_m mrs') (loc_of_shr_record mrs'))
                e' loc_Exact
                (round_nearest_even_nonneg _ _ H1)) as H2.
  destruct (shr_fexp FloatOps.prec FloatOps.emax _ e' loc_Exact) as [mrs'' e'']. cbn [fst] in H2.
  destruct (shr_m mrs'') as [|p|p]; [reflexivity| |lia].
  destruct (e'' <=? FloatOps.emax - FloatOps.prec); reflexivity.
Qed.

Lemma binary_round_signed (sx : bool) (mx : positive) (ex : Z) :
  Binary64.signed sx (binary_round FloatOps.prec FloatOps.emax sx mx ex).
Proof.
  unfold binary_round. destruct (shl_align _ _ _) as [mz ez].
  apply binary_round_aux_signed. lia.
Qed.

Lemma binary_normalize_nonneg (m e : Z) :
  0 <= m -> Binary64.nonneg (binary_normalize FloatOps.prec FloatOps.emax m e false) = true.
Proof.
  intros H. destruct m as [|p|p]; [reflexivity| |lia].
  cbn [binary_normalize].
  pose proof (binary_round_signed false p e) as Hs.
  destruct (binary_round FloatOps.prec FloatOps.emax false p e); cbn in *; subst; try reflexivity.
  contradiction.
Qed.

Lemma SFadd_nonneg (x y : spec_float) :
  Binary64.nonneg x = true -> Binary64.nonneg y = true -> Binary64.nonneg (SFadd FloatOps.prec FloatOps.emax x y) = true.
Proof.
  destruct x as [sx|sx| |sx mx ex], y as [sy|sy| |sy my ey];
    cbn [Binary64.nonneg SFadd]; intros Hx Hy; try discriminate; try assumption;
    try reflexivity.
  - destruct sx, sy; reflexivity.
  - apply negb_true_iff in Hx, Hy. subst. reflexivity.
  - apply negb_true_iff in Hx, Hy. subst. cbn [cond_Zopp].
    apply binary_normalize_nonneg. lia.
Qed.

Lemma digits2_pos_bounds (m : positive) :
  2 ^ (Zpos (digits2_pos m) - 1) <= Zpos m < 2 ^ Zpos (digits2_pos m).
Proof.
  induction m as [m IH|m IH|]; cbn [digits2_pos].
  - rewrite Pos2Z.inj_succ.
    replace (Z.succ (Zpos (digits2_pos m)) - 1) with (Z.succ (Zpos (digits2_pos m) - 1)) by lia.
    rewrite !Z.pow_succ_r by lia. lia.
  - rewrite Pos2Z.inj_succ.
    replace (Z.succ (Zpos (digits2_pos m)) - 1) with (Z.succ (Zpos (digits2_pos m) - 1)) by lia.
    rewrite !Z.pow_succ_r by lia. lia.
  - cbn. lia.
Qed.

Lemma iter_xO (d m : positive) : Zpos (Pos.iter xO m d) = Zpos m * 2 ^ Zpos d.
Proof.
  induction d as [|d IH] using Pos.peano_ind.
  - cbn. lia.
  - rewrite Pos.iter_succ, Pos2Z.inj_succ, Z.pow_succ_r by lia.
    rewrite Pos2Z.inj_xO, IH. lia.
Qed.

(** A valid mantissa above the least exponent has all its digits. *)
Lemma bounded_digits (m : positive) (e : Z) :
  bounded FloatOps.prec FloatOps.emax m e = true ->
  -1074 <= e /\ Zpos (digits2_pos m) <= 53 /\
  (-1074 < e -> Zpos (digits2_pos m) = 53).
Proof.
  unfold bounded, canonical_mantissa, fexp, SpecFloat.emin.
  change FloatOps.prec with 53. change FloatOps.emax with 1024.
  intros H. apply andb_true_iff in H as [H _]. apply Z.eqb_eq in H. lia.
Qed.

(** A difference [x - y] with [0 <= y <= x] and [y] finite is not negative
    (and not NaN): the mantissas, brought to the smaller exponent, are in
    the order of the numbers. *)
Lemma SFsub_nonneg (x y : spec_float) :
  valid_binary FloatOps.prec FloatOps.emax x = true ->
  valid_binary FloatOps.prec FloatOps.emax y = true ->
  Binary64.nonneg y = true ->
  SFleb y x = true ->
  SFltb y (S754_infinity false) = true ->
  Binary64.nonneg (SFsub FloatOps.prec FloatOps.emax x y) = true.
Proof.
  destruct x as [sx|sx| |sx mx ex], y as [sy|sy| |sy my ey];
    cbn [Binary64.nonneg SFsub valid_binary]; intros Vx Vy Hy Hle Hfin;
    try discriminate; try reflexivity.
  1-8: destruct sx, sy; cbn in Hle, Hfin, Hy |- *;
    try discriminate; reflexivity.
  - apply negb_true_iff in Hy. subst sy.
    destruct sx; [discriminate|]. cbn [cond_Zopp].
    apply binary_normalize_nonneg.
    unfold SFleb, SFcompare in Hle. clear Hfin.
    destruct (bounded_digits mx ex Vx) as (Hex & Hdx & Hnx).
    destruct (bounded_digits my ey Vy) as (Hey & Hdy & Hny).
    pose proof (digits2_pos_bounds mx) as Bx.
    pose proof (digits2_pos_bounds my) as By.
    destruct (Z.compare_spec ey ex) as [E|E|E]; [| |discriminate].
    + subst ey. rewrite Z.min_id. unfold shl_align. rewrite Z.sub_diag.
      cbn [fst]. rewrite Pos.compare_cont_spec in Hle. cbn [Pos.switch_Eq] in Hle.
      destruct (Pos.compare_spec my mx); try discriminate; lia.
    + rewrite Z.min_r by lia. unfold shl_align. rewrite Z.sub_diag.
      destruct (ey - ex) as [|d|d] eqn:Ed; try lia. cbn [fst].
      rewrite iter_xO. rewrite Hnx in Bx by lia.
      assert (2 ^ 1 <= 2 ^ Zpos d) by (apply Z.pow_le_mono_r; lia).
      assert (Zpos my < 2 ^ 53).
      { eapply Z.lt_le_trans; [apply By|]. apply Z.pow_le_mono_r; lia. }
      change (2 ^ (53 - 1)) with 4503599627370496 in Bx.
      change (2 ^ 53) with 9007199254740992 in *.
      change (2 ^ 1) with 2 in *. nia.
Qed.

Lemma SFcompare_antisym (x y : spec_float) (c : comparison) :
  SFcompare x y = Some c -> SFcompare y x = Some (CompOpp c).
Proof.
  destruct x as [sx|sx| |sx mx ex], y as [sy|sy| |sy my ey];
    cbn [SFcompare]; intros H; try discriminate;
    injection H as <-; f_equal;
    try (destruct sx; reflexivity); try (destruct sy; reflexivity);
    try (destruct sx, sy; reflexivity).
  destruct sx, sy; try reflexivity;
    rewrite (Z.compare_antisym ex ey);
    destruct (ex ?= ey); cbn [CompOpp]; try reflexivity;
    rewrite !Pos.compare_cont_spec; cbn [Pos.switch_Eq];
    rewrite (Pos.compare_antisym mx my);
    destruct (mx ?= my)%positive; reflexivity.
Qed.

Lemma SFcompare_defined (x y : spec_float) :
  x <> S754_nan -> y <> S754_nan -> exists c, SFcompare x y = Some c.
Proof.
  destruct x as [sx|sx| |sx mx ex], y as [sy|sy| |sy my ey];
    cbn [SFcompare]; intros Hx Hy; try contradiction; eauto.
Qed.

End SpecSigns.

(** ** Signs and order of the primitive numbers *)

Section Primitive.
Import PrimFloat SpecFloat.
Local Open Scope float_scope.

Lemma Prim2SF_zero : FloatOps.Prim2SF 0 = S754_zero false.
Proof. vm_compute. reflexivity. Qed.

Lemma Prim2SF_infinity : FloatOps.Prim2SF infinity = S754_infinity false.
Proof. vm_compute. reflexivity. Qed.

Lemma leb_zero (a : float) : (0 <=? a) = Binary64.nonneg (FloatOps.Prim2SF a).
Proof.
  rewrite FloatAxioms.leb_spec, Prim2SF_zero.
  destruct (FloatOps.Prim2SF a) as [s|s| |s m e]; cbn; try reflexivity;
    destruct s; reflexivity.
Qed.

Lemma add_nonneg (a b : float) :
  (0 <=? a) = true -> (0 <=? b) = true -> (0 <=? a + b) = true.
Proof.
  rewrite !leb_zero, FloatAxioms.add_spec. apply SFadd_nonneg.
Qed.

Lemma sub_nonneg (a b : float) :
  (0 <=? b) = true -> (b <=? a) = true -> (b <? infinity) = true ->
  (0 <=? a - b) = true.
Proof.
  rewrite !leb_zero, FloatAxioms.leb_spec, FloatAxioms.ltb_spec,
    FloatAxioms.sub_spec, Prim2SF_infinity.
  apply SFsub_nonneg; apply FloatAxioms.Prim2SF_valid.
Qed.

Lemma nonneg_above (a b : float) :
  (0 <=? a) = true -> (a <? b) = true -> (0 <=? b) = true.
Proof.
  rewrite !leb_zero, FloatAxioms.ltb_spec.
  destruct (FloatOps.Prim2SF a) as [sa|sa| |sa ma ea],
           (FloatOps.Prim2SF b) as [sb|sb| |sb mb eb];
    cbn; intros Ha Hb; try discriminate; try reflexivity;
    destruct sa, sb; cbn in *; try discriminate; reflexivity.
Qed.

(** Two numbers that are not NaN are ordered one way or the other. *)
Lemma ltb_of_not_leb (a0 a b : float) :
  (a0 <? b) = true -> (0 <=? a) = true -> (b <=? a) = false ->
  (a <? b) = true.
Proof.
  rewrite leb_zero, FloatAxioms.leb_spec, !FloatAxioms.ltb_spec.
  intros Hb Ha Hle.
  assert (Hnb : FloatOps.Prim2SF b <> S754_nan).
  { intros E. rewrite E in Hb.
    destruct (FloatOps.Prim2SF a0); discriminate. }
  assert (Hna : FloatOps.Prim2SF a <> S754_nan).
  { intros E. rewrite E in Ha. discriminate. }
  destruct (SFcompare_defined _ _ Hnb Hna) as [c Hc].
  pose proof (SFcompare_antisym _ _ _ Hc) as Hc'.
  unfold SFleb in Hle. unfold SFltb. rewrite Hc in Hle. rewrite Hc'.
  destruct c; try discriminate; reflexivity.
Qed.

End Primitive.

Section Clock.
Import PrimFloat Binary64.
Local Open Scope float_scope.

Variable w : World.World.
Hypothesis Hw : World.shaped w.

Lemma loopBody_eq (ph : Physics.Physics) (a : Player.Player) :
  loopBody ph a w
  = Ok (Physics.set_helpers ph
          (Steps.passHelpers
             (Player.applyInputs (Steps.fall ph a) (Physics.timestep ph)) w),
        snd (Steps.pureStep w (ph, a))).
Proof.
  unfold loopBody. cbv zeta. fold (Steps.fall ph a).
  rewrite (detectCollisions_eq _ _ _ Hw). reflexivity.
Qed.

Lemma turns_returns (n : nat) : forall ph a,
  exists ph' a', turns n ph a w = Ok (ph', a').
Proof.
  induction n as [|n IH]; intros ph a; cbn [turns].
  - now exists ph, a.
  - rewrite loopBody_eq. cbn [bind]. apply IH.
Qed.

Lemma turns_add (n m : nat) : forall ph a ph1 a1,
  turns n ph a w = Ok (ph1, a1) ->
  turns (n + m) ph a w = turns m ph1 a1 w.
Proof.
  induction n as [|n IH]; intros ph a ph1 a1 E; cbn [turns Nat.add] in *.
  - now injection E as -> ->.
  - rewrite loopBody_eq in *. cbn [bind] in *. now apply IH.
Qed.

(** On a shaped grid the loop does what its clock says: when the clock ends
    after [n] turns, the loop returns the state of [n] turns of its body. *)
Lemma while_loop_ticks (fuel : nat) : forall ts acc ph a n acc',
  ticks fuel ts acc = Some (n, acc') ->
  exists ph' a',
    while_loop fuel (mkClock ts acc) ph a w = Ok (mkClock ts acc', ph', a') /\
    turns n ph a w = Ok (ph', a').
Proof.
  induction fuel as [|fuel IH]; intros ts acc ph a n acc' E;
    cbn [ticks while_loop timestep accumulator] in *.
  - destruct (ts <=? acc); [discriminate|]. injection E as <- <-.
    now exists ph, a.
  - destruct (ts <=? acc).
    + destruct (ticks fuel ts (acc - ts)) as [[k r]|] eqn:Ek; [|discriminate].
      injection E as <- <-. cbn [turns].
      rewrite loopBody_eq. cbn [bind]. now apply IH.
    + injection E as <- <-. now exists ph, a.
Qed.

Lemma frames_ticks (dts : list float) : forall fuel ts acc ph a n acc',
  frameTicks fuel ts acc dts = Some (n, acc') ->
  exists ph' a',
    frames fuel dts (mkClock ts acc) ph a w = Ok (mkClock ts acc', ph', a') /\
    turns n ph a w = Ok (ph', a').
Proof.
  induction dts as [|dt rest IH]; intros fuel ts acc ph a n acc' E;
    cbn [frameTicks frames] in *.
  - injection E as <- <-. now exists ph, a.
  - destruct (ticks fuel ts (acc + dt)) as [[k r]|] eqn:Ek; [|discriminate].
    destruct (frameTicks fuel ts r rest) as [[m r']|] eqn:Em; [|discriminate].
    injection E as <- <-.
    destruct (while_loop_ticks fuel ts (acc + dt) ph a k r Ek)
      as (ph1 & a1 & E1 & T1).
    unfold update. cbn [timestep accumulator]. rewrite E1. cbn [bind].
    destruct (IH fuel ts r ph1 a1 m r' Em) as (ph2 & a2 & E2 & T2).
    exists ph2, a2. split; [exact E2|].
    now rewrite (turns_add k m ph a ph1 a1 T1).
Qed.

End Clock.

Section ClockRange.
Import PrimFloat Binary64.
Local Open Scope float_scope.

(** The clock leaves the accumulator in [[0, timestep)]. *)
Lemma ticks_range (fuel : nat) : forall ts acc0 acc n acc',
  (0 <=? ts) = true -> (ts <? infinity) = true -> (acc0 <? ts) = true ->
  (0 <=? acc) = true ->
  ticks fuel ts acc = Some (n, acc') ->
  (0 <=? acc') = true /\ (acc' <? ts) = true.
Proof.
  induction fuel as [|fuel IH]; intros ts acc0 acc n acc' Hts Hfin H0 Hacc E;
    cbn [ticks] in E.
  - destruct (ts <=? acc) eqn:G; [discriminate|]. injection E as <- <-.
    split; [exact Hacc|]. exact (ltb_of_not_leb acc0 acc ts H0 Hacc G).
  - destruct (ts <=? acc) eqn:G.
    + destruct (ticks fuel ts (acc - ts)) as [[k r]|] eqn:Ek; [|discriminate].
      injection E as <- <-.
      apply (IH ts acc0 (acc - ts) k r Hts Hfin H0); [|exact Ek].
      now apply sub_nonneg.
    + injection E as <- <-.
      split; [exact Hacc|]. exact (ltb_of_not_leb acc0 acc ts H0 Hacc G).
Qed.

End ClockRange.

(** ** The claims on the clock and on the overlap *)

Section FallingTurns.
Import Binary64.

(** In empty space each turn of the body takes one step of gravity off the
    vertical velocity. *)
Lemma turns_free_fall (w : World.World) (n : nat) :
  World.shaped w ->
  forall ph a,
    Player.isLocked a = false ->
    (forall i j k, BroadSpec.inExtents a i j k -> ~ BroadSpec.occupied w i j k) ->
    exists ph' a',
      turns n ph a w = Ok (ph', a') /\
      Player.velocity a'
      = THREE.mkVector3
          (THREE.x (Player.velocity a))
          (THREE.y (Player.velocity a)
           - INR n * (Physics.gravity ph * Physics.timestep ph))
          (THREE.z (Player.velocity a)).
Proof.
  intros Hw. induction n as [|n IH]; intros ph a Hl Hfree.
  - exists ph, a. split; [reflexivity|].
    destruct (Player.velocity a); cbn. f_equal. lra.
  - cbn [turns]. rewrite (loopBody_eq w Hw). cbn [bind].
    rewrite (free_pureStep w ph a Hl Hfree).
    match goal with
    | |- context [turns n ?p ?q w] => destruct (IH p q) as (ph' & a' & E & Hv)
    end.
    + exact Hl.
    + intros i j k He. now apply Hfree.
    + exists ph', a'. split; [exact E|]. rewrite Hv.
      cbn [Player.velocity Player.set_onGround Player.set_velocity
           Physics.gravity Physics.timestep Physics.set_helpers
           THREE.x THREE.y THREE.z].
      rewrite S_INR. f_equal. lra.
Qed.

End FallingTurns.

Section ClockClaims.
Import PrimFloat Binary64.
Local Open Scope float_scope.

(** C6, as the code has it.  A call [update dt] on a shaped grid, with
    [dt >= 0], the accumulator in [[0, timestep)] and a finite timestep, all
    in binary64: when the loop of the clock ends within the fuel, after [n]
    turns, [update] returns the state of [n] turns of the loop body, and the
    accumulator is again in [[0, timestep)].  The number of turns is the
    clock's own, and can fall short of
    [floor ((accumulator + dt) / timestep)]. *)
Theorem update_accumulator_range (fuel : nat) (dt : float) (c : Clock)
        (ph : Physics.Physics) (a : Player.Player) (w : World.World)
        (n : nat) (acc' : float) :
  World.shaped w ->
  (0 <=? dt) = true ->
  (0 <=? accumulator c) = true ->
  (accumulator c <? timestep c) = true ->
  (timestep c <? infinity) = true ->
  ticks fuel (timestep c) (accumulator c + dt) = Some (n, acc') ->
  exists ph' a',
    update fuel dt c ph a w = Ok (mkClock (timestep c) acc', ph', a') /\
    turns n ph a w = Ok (ph', a') /\
    (0 <=? acc') = true /\ (acc' <? timestep c) = true.
Proof.
  intros Hw Hdt Hlo Hhi Hfin E.
  destruct (while_loop_ticks w Hw fuel _ _ ph a n acc' E) as (ph' & a' & E1 & T).
  exists ph', a'. split; [exact E1|]. split; [exact T|].
  apply (ticks_range fuel (timestep c) (accumulator c) (accumulator c + dt) n acc');
    try assumption.
  - exact (nonneg_above _ _ Hlo Hhi).
  - now apply add_nonneg.
Qed.

Lemma tenth_ticks :
  exists r, ticks 30 (timestep new_Clock) (accumulator new_Clock + tenthOfASecond)
            = Some (24%nat, r).
Proof. eexists. vm_compute. reflexivity. Qed.

(** C6, as the code has it, on a fresh integrator and a frame of 0.1 s. *)
Lemma update_accumulator_range_witness :
  World.shaped Scenario.emptyWorld /\
  (0 <=? tenthOfASecond) = true /\
  (0 <=? accumulator new_Clock) = true /\
  (accumulator new_Clock <? timestep new_Clock) = true /\
  (timestep new_Clock <? infinity) = true /\
  exists acc',
    ticks 30 (timestep new_Clock) (accumulator new_Clock + tenthOfASecond)
    = Some (24%nat, acc') /\
    exists ph' a',
      update 30 tenthOfASecond new_Clock Physics.new_Physics Scenario.actor
             Scenario.emptyWorld
      = Ok (mkClock (timestep new_Clock) acc', ph', a') /\
      turns 24 Physics.new_Physics Scenario.actor Scenario.emptyWorld
      = Ok (ph', a') /\
      (0 <=? acc') = true /\ (acc' <? timestep new_Clock) = true.
Proof.
  split; [exact emptyWorld_shaped|].
  split; [reflexivity|]. split; [reflexivity|]. split; [reflexivity|].
  split; [reflexivity|].
  destruct tenth_ticks as [r E]. exists r. split; [exact E|].
  exact (update_accumulator_range 30 tenthOfASecond new_Clock
           Physics.new_Physics Scenario.actor Scenario.emptyWorld 24 r
           emptyWorld_shaped eq_refl eq_refl eq_refl eq_refl E).
Defined.

Lemma toR_zero : toR 0 = 0%R.
Proof. unfold toR. now rewrite Prim2SF_zero. Qed.

Lemma toR_tenth : toR tenthOfASecond = (7205759403792794 / 72057594037927936)%R.
Proof.
  unfold toR.
  replace (FloatOps.Prim2SF tenthOfASecond)
    with (SpecFloat.S754_finite false 7205759403792794 (-56))
    by (vm_compute; reflexivity).
  reflexivity.
Qed.

Lemma toR_timestep :
  toR (timestep new_Clock) = (4611686018427388 / 1152921504606846976)%R.
Proof.
  unfold toR.
  replace (FloatOps.Prim2SF (timestep new_Clock))
    with (SpecFloat.S754_finite false 4611686018427388 (-60))
    by (vm_compute; reflexivity).
  reflexivity.
Qed.

Lemma tenth_floor :
  Zfloor ((toR (accumulator new_Clock) + toR tenthOfASecond)
          / toR (timestep new_Clock)) = 25%Z.
Proof.
  change (accumulator new_Clock) with 0%float.
  rewrite toR_zero, toR_tenth, toR_timestep.
  apply Zfloor_eq. lra.
Qed.

Lemma free_actor (i j k : Z) :
  BroadSpec.inExtents Scenario.actor i j k ->
  ~ BroadSpec.occupied Scenario.emptyWorld i j k.
Proof. intros _. apply emptyWorld_free. Qed.

(** C6, as the claim has it, fails.  On a fresh integrator a frame of 0.1 s
    has [dt >= 0] and the accumulator in [[0, timestep)], and
    [floor ((accumulator + dt) / timestep)] is 25; [update] returns after 24
    turns, which is not the state of 25. *)
Lemma update_floor_overrun :
  (0 <=? tenthOfASecond) = true /\
  (0 <=? accumulator new_Clock) = true /\
  (accumulator new_Clock <? timestep new_Clock) = true /\
  Zfloor ((toR (accumulator new_Clock) + toR tenthOfASecond)
          / toR (timestep new_Clock)) = 25%Z /\
  exists c' ph' a',
    update 30 tenthOfASecond new_Clock Physics.new_Physics Scenario.actor
           Scenario.emptyWorld = Ok (c', ph', a') /\
    turns 24 Physics.new_Physics Scenario.actor Scenario.emptyWorld
    = Ok (ph', a') /\
    turns 25 Physics.new_Physics Scenario.actor Scenario.emptyWorld
    <> Ok (ph', a').
Proof.
  split; [reflexivity|]. split; [reflexivity|]. split; [reflexivity|].
  split; [exact tenth_floor|].
  destruct tenth_ticks as [r E].
  destruct (while_loop_ticks Scenario.emptyWorld emptyWorld_shaped 30 _ _
              Physics.new_Physics Scenario.actor 24 r E)
    as (ph' & a' & E1 & T).
  exists (mkClock (timestep new_Clock) r), ph', a'.
  split; [exact E1|]. split; [exact T|].
  destruct (turns_free_fall Scenario.emptyWorld 24 emptyWorld_shaped
              Physics.new_Physics Scenario.actor eq_refl free_actor)
    as (ph1 & a1 & T1 & V1).
  destruct (turns_free_fall Scenario.emptyWorld 25 emptyWorld_shaped
              Physics.new_Physics Scenario.actor eq_refl free_actor)
    as (ph2 & a2 & T2 & V2).
  rewrite T in T1. injection T1 as <- <-.
  rewrite T2. intros H. injection H as _ <-.
  rewrite V1 in V2. injection V2 as V.
  cbn in V. lra.
Qed.

(** C3, as the code has it.  On a shaped grid, from one and the same clock,
    integrator and actor, two sequences of frame times over which the loop
    of the clock takes the same number [n] of turns in all end in the same
    state, that of [n] turns of the loop body: the body reads the constant
    timestep and never a frame time. *)
Theorem frames_same_turns (fuel : nat) (dts dts' : list float) (c : Clock)
        (ph : Physics.Physics) (a : Player.Player) (w : World.World)
        (n : nat) (acc1 acc2 : float) :
  World.shaped w ->
  frameTicks fuel (timestep c) (accumulator c) dts = Some (n, acc1) ->
  frameTicks fuel (timestep c) (accumulator c) dts' = Some (n, acc2) ->
  exists ph' a',
    frames fuel dts c ph a w = Ok (mkClock (timestep c) acc1, ph', a') /\
    frames fuel dts' c ph a w = Ok (mkClock (timestep c) acc2, ph', a') /\
    turns n ph a w = Ok (ph', a').
Proof.
  intros Hw E1 E2. destruct c as [ts acc]. cbn [timestep accumulator] in *.
  destruct (frames_ticks w Hw dts fuel ts acc ph a n acc1 E1)
    as (ph1 & a1 & F1 & T1).
  destruct (frames_ticks w Hw dts' fuel ts acc ph a n acc2 E2)
    as (ph2 & a2 & F2 & T2).
  rewrite T1 in T2. injection T2 as <- <-.
  exists ph1, a1. split; [exact F1|]. split; [exact F2|exact T1].
Qed.

(** C3, as the code has it: one frame of 0.004 s against two of 0.002 s. *)
Lemma frames_same_turns_witness :
  World.shaped Scenario.emptyWorld /\
  frameTicks 5 (timestep new_Clock) (accumulator new_Clock) oneFrame
  = Some (1%nat, 0) /\
  frameTicks 5 (timestep new_Clock) (accumulator new_Clock) twoFrames
  = Some (1%nat, 0) /\
  exists ph' a',
    frames 5 oneFrame new_Clock Physics.new_Physics Scenario.actor
           Scenario.emptyWorld
    = Ok (mkClock (timestep new_Clock) 0, ph', a') /\
    frames 5 twoFrames new_Clock Physics.new_Physics Scenario.actor
           Scenario.emptyWorld
    = Ok (mkClock (timestep new_Clock) 0, ph', a') /\
    turns 1 Physics.new_Physics Scenario.actor Scenario.emptyWorld
    = Ok (ph', a').
Proof.
  split; [exact emptyWorld_shaped|]. split; [reflexivity|].
  split; [reflexivity|].
  exact (frames_same_turns 5 oneFrame twoFrames new_Clock Physics.new_Physics
           Scenario.actor Scenario.emptyWorld 1 0 0
           emptyWorld_shaped eq_refl eq_refl).
Defined.

Lemma shortLong_ticks :
  exists r, frameTicks 10 (timestep new_Clock) (accumulator new_Clock) shortLong
            = Some (3%nat, r).
Proof. eexists. vm_compute. reflexivity. Qed.

Lemma longShort_ticks :
  exists r, frameTicks 10 (timestep new_Clock) (accumulator new_Clock) longShort
            = Some (2%nat, r).
Proof. eexists. vm_compute. reflexivity. Qed.

(** C3, as the claim has it, fails.  The frames 0.003 s, 0.009 s and the
    frames 0.009 s, 0.003 s are not negative and add up to the same time;
    from a fresh integrator the first run takes 3 turns and the second 2,
    and the two actors end with different velocities. *)
Lemma frames_split_dependent :
  Forall (fun dt => (0 <=? dt) = true) shortLong /\
  Forall (fun dt => (0 <=? dt) = true) longShort /\
  total shortLong = total longShort /\
  (0 <=? accumulator new_Clock) = true /\
  (accumulator new_Clock <? timestep new_Clock) = true /\
  exists c1 ph1 a1 c2 ph2 a2,
    frames 10 shortLong new_Clock Physics.new_Physics Scenario.actor
           Scenario.emptyWorld = Ok (c1, ph1, a1) /\
    frames 10 longShort new_Clock Physics.new_Physics Scenario.actor
           Scenario.emptyWorld = Ok (c2, ph2, a2) /\
    turns 3 Physics.new_Physics Scenario.actor Scenario.emptyWorld
    = Ok (ph1, a1) /\
    turns 2 Physics.new_Physics Scenario.actor Scenario.emptyWorld
    = Ok (ph2, a2) /\
    Player.velocity a1 <> Player.velocity a2.
Proof.
  split; [repeat constructor|]. split; [repeat constructor|].
  split; [cbn [total shortLong longShort]; lra|].
  split; [reflexivity|]. split; [reflexivity|].
  destruct shortLong_ticks as [r1 E1]. destruct longShort_ticks as [r2 E2].
  destruct (frames_ticks Scenario.emptyWorld emptyWorld_shaped shortLong 10 _ _
              Physics.new_Physics Scenario.actor 3 r1 E1)
    as (ph1 & a1 & F1 & T1).
  destruct (frames_ticks Scenario.emptyWorld emptyWorld_shaped longShort 10 _ _
              Physics.new_Physics Scenario.actor 2 r2 E2)
    as (ph2 & a2 & F2 & T2).
  exists (mkClock (timestep new_Clock) r1), ph1, a1,
         (mkClock (timestep new_Clock) r2), ph2, a2.
  split; [exact F1|]. split; [exact F2|]. split; [exact T1|].
  split; [exact T2|].
  destruct (turns_free_fall Scenario.emptyWorld 3 emptyWorld_shaped
              Physics.new_Physics Scenario.actor eq_refl free_actor)
    as (p3 & b3 & T3 & V3).
  destruct (turns_free_fall Scenario.emptyWorld 2 emptyWorld_shaped
              Physics.new_Physics Scenario.actor eq_refl free_actor)
    as (p2 & b2 & T2' & V2).
  rewrite T1 in T3. injection T3 as <- <-.
  rewrite T2 in T2'. injection T2' as <- <-.
  rewrite V3, V2. intros H. injection H as H. cbn in H. lra.
Qed.

End ClockClaims.

Section OverlapClaim.
Import PrimFloat Binary64.
Local Open Scope float_scope.

(** C7 at the failing input.  For the player of radius 0.6 and height 1.8
    at (1.332, 1.9, 0.924) and the cell (2, 1, 2), the squared distance
    rounds below [radius * radius] while its square root rounds to
    [radius]: [narrowPhase] emits one record, and its overlap is 0. *)
Theorem narrowPhase_zero_overlap :
  (0 <? radius bystander) = true /\
  (0 <? height bystander) = true /\
  pointInPlayerBoundingCylinder (closestPointOn corner bystander) bystander
  = true /\
  map block (fst (fst (narrowPhase [corner] bystander))) = [corner] /\
  map overlap (fst (fst (narrowPhase [corner] bystander))) = [0].
Proof. repeat split; vm_compute; reflexivity. Qed.

End OverlapClaim.
